(** * Unpadded: wire codec, tuple layout, dispatcher, buffered dispatcher

    A shallow embedding of the serialization layer ([upd/serialization.hpp],
    [upd/storage/unaligned_data.hpp], [upd/storage/tuple.hpp]), of the
    actions and the plain dispatcher ([upd/action.hpp], [upd/dispatcher.hpp])
    and of the buffered dispatchers ([upd/buffered_undispatcher.hpp],
    [k2o/buffered_dispatcher.hpp]).

    Conventions.  A [byte_t] is an unsigned 8-bit integer carried as a [Z];
    a [std::size_t] is a 64-bit unsigned integer carried as a [Z] with its
    wrap-around written out ([wrap size_bits]).  A C array is a [list]; a
    pointer into an array is the list together with an offset.  An access
    outside the array is undefined in C++: the model reads [0] there and
    drops the store (stdpp's list insert), and the theorems that need an
    access to be in range say so. *)

From Stdlib Require Import ZArith List Lia Bool.
From stdpp Require Import base list.

Set Warnings "-register-all".

(** ** Machine integers *)

Abbreviation byte_t := Z (only parsing).

Definition wrap (bits x : Z) : Z := (x mod 2 ^ bits)%Z.

Definition size_bits : Z := 64%Z.

(** The fixed-width integer types of <cstdint>. *)
Inductive width : Type := W8 | W16 | W32 | W64.

Definition width_bytes (w : width) : nat :=
  match w with W8 => 1 | W16 => 2 | W32 => 4 | W64 => 8 end.

Definition width_bits (w : width) : Z := (8 * Z.of_nat (width_bytes w))%Z.

Inductive endianess : Type := LITTLE | BIG.

Inductive signed_mode : Type := ONES_COMPLEMENT | TWOS_COMPLEMENT.

(** ** Byte order: the loops of [unaligned_data]

    [m_raw_data[offset + i]] for LITTLE, [m_raw_data[offset + (n - i - 1)]]
    for BIG. *)

Definition raw_at (raw : list byte_t) (i : nat) : byte_t := default 0%Z (raw !! i).

Definition endian_index (e : endianess) (offset n i : nat) : nat :=
  match e with
  | LITTLE => offset + i
  | BIG => offset + (n - i - 1)
  end.

(** [T interpret_with_endianess(size_t offset, size_t n)], [T] being an
    unsigned type of [bits] bits:
    [retval |= static_cast<T>(m_raw_data[...]) << shift] for [i] in [0, n),
    [shift] growing by 8. *)
Definition interpret_with_endianess (bits : Z) (e : endianess)
    (raw : list byte_t) (offset n : nat) : Z :=
  fold_left
    (fun retval i =>
       wrap bits (Z.lor retval
                    (Z.shiftl (wrap bits (raw_at raw (endian_index e offset n i)))
                              (8 * Z.of_nat i))))
    (seq 0 n) 0%Z.

(** [void write_with_endianess(T x, size_t offset, size_t n)]:
    [m_raw_data[...] = x & 0xff] for [i] in [0, n), with [x >>= 8]. *)
Definition write_with_endianess_step (e : endianess) (offset n : nat)
    (acc : list byte_t * Z) (i : nat) : list byte_t * Z :=
  (<[endian_index e offset n i := Z.land acc.2 255]> acc.1, Z.shiftr acc.2 8).

Definition write_with_endianess (e : endianess) (x : Z) (offset n : nat)
    (raw : list byte_t) : list byte_t :=
  (fold_left (write_with_endianess_step e offset n) (seq 0 n) (raw, x)).1.

(** ** Signed representations *)

(** Modelled from the spec: [detail::to_signed_mode] and
    [detail::interpret_to_one_complement] / [interpret_to_two_complement]
    ([detail/signed_representation.hpp] is not part of the sources).  The
    result is an [unsigned long long].  "On TWOS_COMPLEMENT the pattern is
    the usual modular interpretation; on ONES_COMPLEMENT negatives are the
    bitwise inverse of the absolute value." *)
Definition to_signed_mode (sm : signed_mode) (x : Z) : Z :=
  match sm with
  | TWOS_COMPLEMENT => wrap 64 x
  | ONES_COMPLEMENT => if (0 <=? x)%Z then x else wrap 64 (Z.lnot (Z.abs x))
  end.

(** Modelled from the spec: [detail::from_signed_mode<T, Signed_Mode>] and
    [detail::interpret_from_one_complement<T>] /
    [interpret_from_two_complement<T>], the inverse reading of a pattern of
    [sizeof(T)] bytes: the top bit of the pattern is the sign. *)
Definition from_signed_mode (w : width) (sm : signed_mode) (tmp : Z) : Z :=
  let bits := width_bits w in
  if (tmp <? 2 ^ (bits - 1))%Z then tmp
  else match sm with
       | TWOS_COMPLEMENT => (tmp - 2 ^ bits)%Z
       | ONES_COMPLEMENT => (- (2 ^ bits - 1 - tmp))%Z
       end.

(** ** Serializable types and their values *)

Inductive type : Type :=
  | t_unsigned (w : width)
  | t_signed (w : width)
  | t_array (elt : type) (len : nat).

Fixpoint sizeof (T : type) : nat :=
  match T with
  | t_unsigned w | t_signed w => width_bytes w
  | t_array elt len => len * sizeof elt
  end.

Inductive value : Type :=
  | v_int (z : Z)
  | v_array (vs : list value).

Definition as_int (x : value) : Z :=
  match x with v_int z => z | v_array _ => 0%Z end.

Definition array_at (x : value) (i : nat) : value :=
  match x with v_int _ => v_int 0 | v_array vs => nth i vs (v_int 0) end.

(** The values a type holds and the wire can carry: an unsigned integer
    below [2 ^ bits]; a signed integer in the range of the signed mode (ones'
    complement has no pattern for [- 2 ^ (bits - 1)]); an array of exactly
    [len] such elements. *)
Fixpoint representable (sm : signed_mode) (T : type) (x : value) : bool :=
  match T, x with
  | t_unsigned w, v_int z => (0 <=? z)%Z && (z <? 2 ^ width_bits w)%Z
  | t_signed w, v_int z =>
      match sm with
      | TWOS_COMPLEMENT => (- 2 ^ (width_bits w - 1) <=? z)%Z && (z <? 2 ^ (width_bits w - 1))%Z
      | ONES_COMPLEMENT => (- 2 ^ (width_bits w - 1) <? z)%Z && (z <? 2 ^ (width_bits w - 1))%Z
      end
  | t_array elt len, v_array vs =>
      Nat.eqb (length vs) len && forallb (representable sm elt) vs
  | _, _ => false
  end.

(** ** [upd/serialization.hpp] *)

Module serialization.

(** Modelled from the spec: [detail::from_endianess<T, Endianess>(sequence, n)]
    ([detail/endianess.hpp] is not part of the sources): "least-significant
    first if LITTLE, most-significant first if BIG", which is the loop of
    [unaligned_data::interpret_with_endianess] run from [sequence]. *)
Definition from_endianess (bits : Z) (e : endianess) (mem : list byte_t)
    (sequence n : nat) : Z :=
  interpret_with_endianess bits e mem sequence n.

(** Modelled from the spec: [detail::to_endianess<Endianess>(sequence, x, n)],
    the loop of [unaligned_data::write_with_endianess] run from [sequence]. *)
Definition to_endianess (e : endianess) (mem : list byte_t) (sequence : nat)
    (x : Z) (n : nat) : list byte_t :=
  write_with_endianess e x sequence n mem.

(** [read_as<T, Endianess, Signed_Mode>(const byte_t *sequence)]; the pointer
    is the memory [mem] and the offset [sequence]. *)
Fixpoint read_as (T : type) (e : endianess) (sm : signed_mode)
    (mem : list byte_t) (sequence : nat) : value :=
  match T with
  | t_unsigned w => v_int (from_endianess (width_bits w) e mem sequence (width_bytes w))
  | t_signed w =>
      let tmp := from_endianess 64 e mem sequence (width_bytes w) in
      v_int (from_signed_mode w sm tmp)
  | t_array elt len =>
      v_array (map (fun i => read_as elt e sm mem (sequence + i * sizeof elt)) (seq 0 len))
  end.

(** [write_as<Endianess, Signed_Mode>(const T &x, byte_t *sequence)]. *)
Fixpoint write_as (e : endianess) (sm : signed_mode) (T : type) (x : value)
    (mem : list byte_t) (sequence : nat) : list byte_t :=
  match T with
  | t_unsigned w => to_endianess e mem sequence (as_int x) (width_bytes w)
  | t_signed w =>
      let tmp := to_signed_mode sm (as_int x) in
      to_endianess e mem sequence tmp (width_bytes w)
  | t_array elt len =>
      fold_left
        (fun mem i => write_as e sm elt (array_at x i) mem (sequence + i * sizeof elt))
        (seq 0 len) mem
  end.

(** The overloads on an iterator that is not a pointer go through a local
    [byte_t buf[sizeof(T)]]: [write_as] fills it and its bytes are copied
    out; [read_as] copies [sizeof(T)] bytes in and reads them. *)
Definition write_as_bytes (e : endianess) (sm : signed_mode) (T : type)
    (x : value) : list byte_t :=
  write_as e sm T x (replicate (sizeof T) 0%Z) 0.

Definition read_as_bytes (T : type) (e : endianess) (sm : signed_mode)
    (bytes : list byte_t) : value :=
  read_as T e sm (take (sizeof T) bytes) 0.

End serialization.

(** ** [upd/storage/unaligned_data.hpp] *)

Module unaligned_data.

(** [unaligned_data<N>]: [N] is the length of [m_raw_data]. *)
Record t : Type := mk {
  m_raw_data : list byte_t;
  m_endianess : endianess;
  m_signed_mode : signed_mode
}.

(** Modelled from the spec: [detail::interpret_from_one_complement<T>] and
    [detail::interpret_from_two_complement<T>] of
    [detail/signed_representation.hpp], which is not part of the sources. *)
Definition interpret_from_one_complement (w : width) (tmp : Z) : Z :=
  from_signed_mode w ONES_COMPLEMENT tmp.

Definition interpret_from_two_complement (w : width) (tmp : Z) : Z :=
  from_signed_mode w TWOS_COMPLEMENT tmp.

(** Modelled from the spec: [detail::interpret_to_one_complement] and
    [detail::interpret_to_two_complement]. *)
Definition interpret_to_one_complement (x : Z) : Z := to_signed_mode ONES_COMPLEMENT x.

Definition interpret_to_two_complement (x : Z) : Z := to_signed_mode TWOS_COMPLEMENT x.

(** The three overloads of [interpret_as<T>(size_t offset)]. *)
Fixpoint interpret_as (T : type) (ud : t) (offset : nat) : value :=
  match T with
  | t_unsigned w =>
      v_int (interpret_with_endianess (width_bits w) (m_endianess ud)
               (m_raw_data ud) offset (width_bytes w))
  | t_signed w =>
      let tmp := interpret_with_endianess 64 (m_endianess ud)
                   (m_raw_data ud) offset (width_bytes w) in
      match m_signed_mode ud with
      | ONES_COMPLEMENT => v_int (interpret_from_one_complement w tmp)
      | TWOS_COMPLEMENT => v_int (interpret_from_two_complement w tmp)
      end
  | t_array elt len =>
      v_array (map (fun i => interpret_as elt ud (offset + i * sizeof elt)) (seq 0 len))
  end.

Definition with_raw_data (ud : t) (raw : list byte_t) : t :=
  mk raw (m_endianess ud) (m_signed_mode ud).

(** The three overloads of [write(const T &x, size_t offset)]. *)
Fixpoint write (T : type) (x : value) (offset : nat) (ud : t) : t :=
  match T with
  | t_unsigned w =>
      with_raw_data ud
        (write_with_endianess (m_endianess ud) (as_int x) offset (width_bytes w)
           (m_raw_data ud))
  | t_signed w =>
      let tmp :=
        match m_signed_mode ud with
        | ONES_COMPLEMENT => interpret_to_one_complement (as_int x)
        | TWOS_COMPLEMENT => interpret_to_two_complement (as_int x)
        end in
      with_raw_data ud
        (write_with_endianess (m_endianess ud) tmp offset (width_bytes w)
           (m_raw_data ud))
  | t_array elt len =>
      fold_left (fun ud i => write elt (array_at x i) (offset + i * sizeof elt) ud)
        (seq 0 len) ud
  end.

End unaligned_data.

(** ** [upd/storage/tuple.hpp] *)

Module tuple.

(** [boost::mp11]: [mp_fold<L, V, F>] folds from the left, [mp_take_c<L, N>]
    keeps the first [N] elements, [mp_at_c<L, I>] is the [I]-th element and
    does not compile out of range. *)
Definition mp_fold {A B : Type} (L : list A) (V : B) (F : B -> A -> B) : B :=
  fold_left F L V.

Definition mp_take_c {A : Type} (L : list A) (N : nat) : list A := take N L.

Definition mp_at_c {A : Type} (L : list A) (I : nat) : option A := L !! I.

(** [tuple<Ts...>]: the type list and the storage [unaligned_data<size>]. *)
Record t : Type := mk {
  typelist : list type;
  m_storage : unaligned_data.t
}.

Definition type_sizes (Ts : list type) : list nat := map sizeof Ts.

Definition arg_t (Ts : list type) (I : nat) : option type := mp_at_c Ts I.

(** [constexpr static auto size = mp_fold<type_sizes, mp_size_t<0>, mp_plus>]. *)
Definition size (Ts : list type) : nat := mp_fold (type_sizes Ts) 0 Nat.add.

(** [constexpr auto offset = mp_fold<mp_take_c<type_sizes, I>, mp_size_t<0>, mp_plus>]
    of [get] and [set]. *)
Definition offset (Ts : list type) (I : nat) : nat :=
  mp_fold (mp_take_c (type_sizes Ts) I) 0 Nat.add.

(** [get<I>()]; [None] where [arg_t<I>] does not exist. *)
Definition get (I : nat) (tu : t) : option value :=
  match arg_t (typelist tu) I with
  | Some T => Some (unaligned_data.interpret_as T (m_storage tu) (offset (typelist tu) I))
  | None => None
  end.

(** [set<I>(value)]. *)
Definition set (I : nat) (x : value) (tu : t) : option t :=
  match arg_t (typelist tu) I with
  | Some T =>
      Some (mk (typelist tu)
              (unaligned_data.write T x (offset (typelist tu) I) (m_storage tu)))
  | None => None
  end.

(** [tuple(endianess, signed_mode)]: the storage is left as it is found;
    [raw] (of length [size Ts]) is that content. *)
Definition default_init (Ts : list type) (e : endianess) (sm : signed_mode)
    (raw : list byte_t) : t :=
  mk Ts (unaligned_data.mk raw e sm).

(** [lay(index_sequence_for<Ts...>{}, args...)]: [set<Is>(args)] for each
    index in turn. *)
Definition lay (args : list value) (tu : t) : t :=
  fold_left (fun tu I => default tu (set I (nth I args (v_int 0)) tu))
    (seq 0 (length (typelist tu))) tu.

(** [tuple(endianess, signed_mode, args...)] and [make_tuple]; the storage
    starts from zeros here, each of its bytes is then written by [lay]. *)
Definition make_tuple (e : endianess) (sm : signed_mode) (Ts : list type)
    (args : list value) : t :=
  lay args (default_init Ts e sm (replicate (size Ts) 0%Z)).

(** [begin()] to [end()]: the bytes of the storage. *)
Definition bytes (tu : t) : list byte_t := unaligned_data.m_raw_data (m_storage tu).

(** Modelled from the spec: [invoke(f)] (not in this [tuple.hpp]) "expands
    the tuple as positional arguments to a callable". *)
Definition invoke {R : Type} (f : list value -> R) (tu : t) : R :=
  f (map (fun I => default (v_int 0) (get I tu)) (seq 0 (length (typelist tu)))).

(** The sum the layout is specified with: [sigma f n] is the sum of [f j]
    over [j < n]. *)
Fixpoint sigma (f : nat -> nat) (n : nat) : nat :=
  match n with
  | 0 => 0
  | S n => sigma f n + f n
  end.

Definition size_at (Ts : list type) (j : nat) : nat :=
  match Ts !! j with Some T => sizeof T | None => 0 end.

End tuple.

(** ** Byte getters and byte putters

    A getter is a callable returning one byte per call, a putter a callable
    taking one byte per call.  [src k] is the byte the getter returns at its
    call number [k]; the state records how many calls the getter has served
    and the bytes the putter has been given, in order. *)

Definition getter : Type := nat -> byte_t.

Record io_state : Type := mk_io {
  getter_calls : nat;
  putter_bytes : list byte_t
}.

Definition io (A : Type) : Type := io_state -> A * io_state.

Definition io_ret {A : Type} (a : A) : io A := fun s => (a, s).

Definition io_bind {A B : Type} (m : io A) (k : A -> io B) : io B :=
  fun s => let (a, s') := m s in k a s'.

Notation "x <- m ;; k" := (io_bind m (fun x => k))
  (at level 100, m at next level, right associativity).
Notation "m ;;; k" := (io_bind m (fun _ => k))
  (at level 100, right associativity).

(** [src()] *)
Definition call_src (src : getter) : io byte_t :=
  fun s => (src (getter_calls s), mk_io (S (getter_calls s)) (putter_bytes s)).

(** [dest(byte)] *)
Definition call_dest (byte : byte_t) : io unit :=
  fun s => (tt, mk_io (getter_calls s) (putter_bytes s ++ [byte])).

(** [for (auto &byte : tuple) byte = src();] over a storage of [n] bytes. *)
Fixpoint fill (src : getter) (n : nat) : io (list byte_t) :=
  match n with
  | 0 => io_ret []
  | S n => byte <- call_src src ;; rest <- fill src n ;; io_ret (byte :: rest)
  end.

(** [for (byte_t byte : output) dest(byte);] *)
Fixpoint emit (output : list byte_t) : io unit :=
  match output with
  | [] => io_ret tt
  | byte :: rest => call_dest byte ;;; emit rest
  end.

(** ** [upd/action.hpp] *)

(** A function signature: the parameter types and the return type, [None]
    for [void]. *)
Record signature : Type := mk_signature {
  parameters : list type;
  return_t : option type
}.

(** Modelled from the spec: [detail::parameters_size<F>] and the size of
    [input_tuple<Endianess, Signed_Mode, F>] ([detail/type_traits] is not part
    of the sources): "input_size = Σ size(argsᵢ)", the size of the tuple of
    the parameters. *)
Definition parameters_size (sig : signature) : nat := tuple.size (parameters sig).

(** Modelled from the spec: [detail::return_type_size<F>] and the size of
    [flatten_tuple_t<Endianess, Signed_Mode, return_t<F>>]:
    "output_size = size(ret)", nothing for [void]. *)
Definition return_type_size (sig : signature) : nat :=
  match return_t sig with
  | Some R => tuple.size [R]
  | None => 0
  end.

(** A callable with its signature ([unevaluated<F, Ftor>]); it maps the
    decoded arguments to the returned value, which is ignored for [void]. *)
Record unevaluated : Type := mk_unevaluated {
  u_signature : signature;
  u_ftor : list value -> value
}.

(** An action as [make_action] builds it, owning ([action], whose
    [m_concept_uptr] is then not null) or not ([no_storage_action]): both
    carry the callable, the serialization parameters and the two sizes. *)
Record action : Type := mk_action {
  a_callable : unevaluated;
  a_endianess : endianess;
  a_signed_mode : signed_mode;
  m_input_size : nat;
  m_output_size : nat
}.

Definition make_action (e : endianess) (sm : signed_mode) (u : unevaluated) : action :=
  mk_action u e sm (parameters_size (u_signature u)) (return_type_size (u_signature u)).

Definition input_size (a : action) : nat := m_input_size a.

Definition output_size (a : action) : nat := m_output_size a.

(** [detail::insert<Endianess, Signed_Mode>(dest, value)] *)
Definition insert (e : endianess) (sm : signed_mode) (R : type) (x : value) : io unit :=
  let output := tuple.make_tuple e sm [R] [x] in
  emit (tuple.bytes output).

(** [detail::call<Tuple>(src, dest, ftor)], both overloads, which is also
    the body of [static_storage_duration_callback_wrapper]. *)
Definition call (e : endianess) (sm : signed_mode) (u : unevaluated)
    (src : getter) : io unit :=
  let Ts := parameters (u_signature u) in
  raw <- fill src (tuple.size Ts) ;;
  let input_args := tuple.default_init Ts e sm raw in
  let result := tuple.invoke (u_ftor u) input_args in
  match return_t (u_signature u) with
  | None => io_ret tt
  | Some R => insert e sm R result
  end.

(** [action::operator()(src, dest)] *)
Definition invoke (a : action) (src : getter) : io unit :=
  call (a_endianess a) (a_signed_mode a) (a_callable a) src.

(** ** [upd/dispatcher.hpp] *)

(** A keyring: the serialization parameters and the list of callables. *)
Record keyring : Type := mk_keyring {
  kr_endianess : endianess;
  kr_signed_mode : signed_mode;
  flist_t : list unevaluated
}.

Definition signatures_t (K : keyring) : list signature := map u_signature (flist_t K).

Definition keyring_size (K : keyring) : nat := length (flist_t K).

(** Modelled from the spec: [Keyring::index_t] ([keyring.hpp] is not part of
    the sources), "the smallest unsigned integer type capable of holding
    values 0..N-1 (thus u8 up to 256 actions, u16 up to 65 536, etc.)". *)
Definition smallest_unsigned (N : nat) : width :=
  if (Z.of_nat N <=? 2 ^ 8)%Z then W8
  else if (Z.of_nat N <=? 2 ^ 16)%Z then W16
  else if (Z.of_nat N <=? 2 ^ 32)%Z then W32
  else W64.

Definition keyring_index_t (K : keyring) : width := smallest_unsigned (keyring_size K).

(** [dispatcher<Keyring, Action_Features>]: the keyring it is built from and
    [m_actions.content]. *)
Record dispatcher : Type := mk_dispatcher {
  keyring_t : keyring;
  m_actions : list action
}.

(** [dispatcher()]: [content{make_action<...>()...}] over the keyring. *)
Definition make_dispatcher (K : keyring) : dispatcher :=
  mk_dispatcher K (map (make_action (kr_endianess K) (kr_signed_mode K)) (flist_t K)).

Definition size (d : dispatcher) : nat := keyring_size (keyring_t d).

Definition index_t (d : dispatcher) : width := keyring_index_t (keyring_t d).

(** [index_t get_index(Src &&src) const] *)
Definition get_index (d : dispatcher) (src : getter) : io Z :=
  let Ts := [t_unsigned (index_t d)] in
  raw <- fill src (tuple.size Ts) ;;
  let index_tuple :=
    tuple.default_init Ts (kr_endianess (keyring_t d)) (kr_signed_mode (keyring_t d)) raw in
  io_ret (as_int (default (v_int 0) (tuple.get 0 index_tuple))).

(** [index_t operator()(Src &&src, Dest &&dest)] *)
Definition dispatch (d : dispatcher) (src : getter) : io Z :=
  index <- get_index d src ;;
  (if (index <? Z.of_nat (size d))%Z
   then match m_actions d !! Z.to_nat index with
        | Some a => invoke a src
        | None => io_ret tt
        end
   else io_ret tt) ;;;
  io_ret index.

(** [action_t *get_action(Src &&src)]; [None] is [nullptr]. *)
Definition get_action (d : dispatcher) (src : getter) : io (option action) :=
  index <- get_index d src ;;
  io_ret (if (index <? Z.of_nat (size d))%Z then m_actions d !! Z.to_nat index else None).

Definition width_eqb (a b : width) : bool :=
  match a, b with
  | W8, W8 | W16, W16 | W32, W32 | W64, W64 => true
  | _, _ => false
  end.

Fixpoint type_eqb (a b : type) : bool :=
  match a, b with
  | t_unsigned w, t_unsigned w' => width_eqb w w'
  | t_signed w, t_signed w' => width_eqb w w'
  | t_array elt len, t_array elt' len' => type_eqb elt elt' && Nat.eqb len len'
  | _, _ => false
  end.

Fixpoint types_eqb (a b : list type) : bool :=
  match a, b with
  | [], [] => true
  | T :: a, T' :: b => type_eqb T T' && types_eqb a b
  | _, _ => false
  end.

(** [std::is_same] of two signatures. *)
Definition signature_eqb (a b : signature) : bool :=
  types_eqb (parameters a) (parameters b) &&
  match return_t a, return_t b with
  | Some R, Some R' => type_eqb R R'
  | None, None => true
  | _, _ => false
  end.

(** [action_features], the second template parameter of [dispatcher]. *)
Inductive action_features : Type := ANY | WEAK_REFERENCE.

(** What [replace<Index>] is given: [unevaluated<F, Ftor>], a free function
    or a callback with static storage duration (also the C++17 overload
    [replace<Index, Ftor>()], which forwards it), or [F &&ftor], a callback
    of any kind. *)
Inductive callback : Type :=
  | static_storage (u : unevaluated)
  | any_kind (u : unevaluated).

Definition callback_callable (ftor : callback) : unevaluated :=
  match ftor with static_storage u | any_kind u => u end.

(** The overload of [replace] for the callback exists in the dispatcher:
    the one for [F &&ftor] has
    [UPD_REQUIRE_CLASS(Action_Features == action_features::ANY)]. *)
Definition replace_enabled (Action_Features : action_features) (ftor : callback) : bool :=
  match ftor, Action_Features with
  | static_storage _, _ => true
  | any_kind _, ANY => true
  | any_kind _, WEAK_REFERENCE => false
  end.

(** [void replace<Index>(unevaluated<F, Ftor>)] and [void replace<Index>(F &&ftor)]
    of [dispatcher<Keyring, Action_Features>]: [None] where the program is
    rejected, for want of an overload or by a [static_assert], [Index < size]
    or the signature at [Index] being that of the callable. *)
Definition replace (Action_Features : action_features) (Index : nat) (ftor : callback)
    (d : dispatcher) : option dispatcher :=
  if replace_enabled Action_Features ftor then
    match signatures_t (keyring_t d) !! Index with
    | Some sig =>
        if Nat.ltb Index (size d) && signature_eqb sig (u_signature (callback_callable ftor))
        then
          Some (mk_dispatcher (keyring_t d)
                  (<[Index := make_action (kr_endianess (keyring_t d))
                                (kr_signed_mode (keyring_t d)) (callback_callable ftor)]>
                     (m_actions d)))
        else None
    | None => None
    end
  else None.

(** ** Buffer sizes ([upd/buffered_undispatcher.hpp], namespace [detail]) *)

(** Modelled from the spec: [detail::max] over a list of sizes and
    [detail::max_p] of two sizes ([detail/type_traits/typelist.hpp] is not
    part of the sources): the maximum. *)
Definition detail_max (sizes : list nat) : nat := foldr Nat.max 0 sizes.

Definition max_p (a b : nat) : nat := Nat.max a b.

(** Modelled from the spec: [detail::map_parameters_size], the list of the
    [parameters_size] of the signatures. *)
Definition map_parameters_size (sigs : list signature) : list nat :=
  map parameters_size sigs.

(** Modelled from the spec: [detail::map_return_type_size], the list of the
    [return_type_size] of the signatures. *)
Definition map_return_type_size (sigs : list signature) : list nat :=
  map return_type_size sigs.

(** [detail::needed_input_buffer_size<Keyring>] *)
Definition needed_input_buffer_size (K : keyring) : nat :=
  detail_max (map_parameters_size (signatures_t K)) + width_bytes (keyring_index_t K).

(** [detail::needed_output_buffer_size<Keyring>] *)
Definition needed_output_buffer_size (K : keyring) : nat :=
  detail_max (map_parameters_size (signatures_t K)).

(** [single_buffered_undispatcher::buffer_size] *)
Definition buffer_size (K : keyring) : nat :=
  max_p (needed_input_buffer_size K) (needed_output_buffer_size K).

(** [double_buffered_undispatcher::input_buffer_size] and [output_buffer_size] *)
Definition input_buffer_size (K : keyring) : nat := needed_input_buffer_size K.

Definition output_buffer_size (K : keyring) : nat := needed_output_buffer_size K.

(** ** [upd/buffered_undispatcher.hpp] *)

Inductive packet_status : Type := LOADING_PACKET | DROPPED_PACKET | RESOLVED_PACKET.

(** The derived class provides the buffers: [single_buffered_undispatcher]
    has one array [m_buf], which [ibuf_begin()] and [obuf_begin()] both
    return; [double_buffered_undispatcher] has [m_ibuf] and [m_obuf]. *)
Inductive buffers : Type :=
  | single_buffer (m_buf : list byte_t)
  | double_buffer (m_ibuf m_obuf : list byte_t).

Definition ibuf (bufs : buffers) : list byte_t :=
  match bufs with single_buffer m_buf => m_buf | double_buffer m_ibuf _ => m_ibuf end.

Definition obuf (bufs : buffers) : list byte_t :=
  match bufs with single_buffer m_buf => m_buf | double_buffer _ m_obuf => m_obuf end.

(** [ibuf_begin()[i] = byte] *)
Definition ibuf_store (bufs : buffers) (i : nat) (byte : byte_t) : buffers :=
  match bufs with
  | single_buffer m_buf => single_buffer (<[i := byte]> m_buf)
  | double_buffer m_ibuf m_obuf => double_buffer (<[i := byte]> m_ibuf) m_obuf
  end.

(** [*it++ = byte] for each byte in turn, from position [i]. *)
Fixpoint store_seq (buf : list byte_t) (i : nat) (bytes : list byte_t) : list byte_t :=
  match bytes with
  | [] => buf
  | byte :: rest => store_seq (<[i := byte]> buf) (S i) rest
  end.

Definition obuf_store_seq (bufs : buffers) (i : nat) (bytes : list byte_t) : buffers :=
  match bufs with
  | single_buffer m_buf => single_buffer (store_seq m_buf i bytes)
  | double_buffer m_ibuf m_obuf => double_buffer m_ibuf (store_seq m_obuf i bytes)
  end.

(** [ibuf_begin()[i++] = byte] for each byte in turn, from position [i]. *)
Definition ibuf_store_seq (bufs : buffers) (i : nat) (bytes : list byte_t) : buffers :=
  fold_left (fun bufs ib => ibuf_store bufs ib.1 ib.2)
    (zip (seq i (length bytes)) bytes) bufs.

(** The arrays have the sizes the derived classes declare. *)
Definition well_sized (K : keyring) (bufs : buffers) : Prop :=
  match bufs with
  | single_buffer m_buf => length m_buf = buffer_size K
  | double_buffer m_ibuf m_obuf =>
      length m_ibuf = input_buffer_size K /\ length m_obuf = output_buffer_size K
  end.

(** Modelled from the spec: a key ([key.hpp] is not part of the sources),
    with its index in its keyring, the index type and the argument types;
    "payload_length = size(index_type) + Σ size(argsᵢ)" and the request is
    "index first, then each argument via the tuple codec". *)
Record key : Type := mk_key {
  key_index : Z;
  key_index_t : width;
  key_args : list type;
  key_endianess : endianess;
  key_signed_mode : signed_mode
}.

Definition payload_length (k : key) : nat :=
  tuple.size (t_unsigned (key_index_t k) :: key_args k).

Definition key_request (k : key) (args : list value) : list byte_t :=
  tuple.bytes
    (tuple.make_tuple (key_endianess k) (key_signed_mode k)
       (t_unsigned (key_index_t k) :: key_args k) (v_int (key_index k) :: args)).

Module buffered_undispatcher.

Record t : Type := mk {
  m_dispatcher : dispatcher;
  m_is_index_loaded : bool;
  m_load_count : Z;
  m_ibuf_next : Z;
  m_obuf_next : Z;
  m_obuf_bottom : Z;
  m_buffers : buffers
}.

Definition sizeof_index_t (d : dispatcher) : Z := Z.of_nat (width_bytes (index_t d)).

(** [buffered_undispatcher()], over the arrays of the derived class as they
    are found. *)
Definition construct (K : keyring) (bufs : buffers) : t :=
  mk (make_dispatcher K) false (sizeof_index_t (make_dispatcher K)) 0 0 0 bufs.

(** [bool is_loaded() const] *)
Definition is_loaded (bd : t) : bool :=
  negb (m_obuf_next bd =? m_obuf_bottom bd)%Z.

(** [m_dispatcher[index].input_size()] *)
Definition input_size_at (d : dispatcher) (index : Z) : Z :=
  match m_actions d !! Z.to_nat index with
  | Some a => Z.of_nat (input_size a)
  | None => 0%Z
  end.

(** [get_index([&]() { return *ibuf_ptr++; })], [ibuf_ptr] starting at
    [ibuf_begin()]. *)
Definition index_in_ibuf (d : dispatcher) (bufs : buffers) : Z :=
  (get_index d (raw_at (ibuf bufs)) (mk_io 0 [])).1.

(** The content of the output buffer: the bytes staged between [m_obuf_next]
    and [m_obuf_bottom], which [get] and [write_to] release. *)
Definition staged_response (bd : t) : list byte_t :=
  map (raw_at (obuf (m_buffers bd)))
    (seq (Z.to_nat (m_obuf_next bd)) (Z.to_nat (m_obuf_bottom bd - m_obuf_next bd))).

(** [packet_status put(byte_t byte)] *)
Definition put (byte : byte_t) (bd : t) : packet_status * t :=
  let d := m_dispatcher bd in
  let bufs := ibuf_store (m_buffers bd) (Z.to_nat (m_ibuf_next bd)) byte in
  let ibuf_next := wrap size_bits (m_ibuf_next bd + 1) in
  let load_count := wrap size_bits (m_load_count bd - 1) in
  let reset := mk d false (sizeof_index_t d) 0 (m_obuf_next bd) (m_obuf_bottom bd) bufs in
  if (load_count >? 0)%Z then
    (LOADING_PACKET,
     mk d (m_is_index_loaded bd) load_count ibuf_next (m_obuf_next bd) (m_obuf_bottom bd) bufs)
  else if m_is_index_loaded bd then
    (RESOLVED_PACKET, reset)
  else
    let index := index_in_ibuf d bufs in
    if (index <? Z.of_nat (size d))%Z then
      let load_count := input_size_at d index in
      if (load_count =? 0)%Z then (RESOLVED_PACKET, reset)
      else
        (LOADING_PACKET,
         mk d true load_count ibuf_next (m_obuf_next bd) (m_obuf_bottom bd) bufs)
    else (DROPPED_PACKET, reset).

(** The dispatcher with [m_obuf_next] set to [next]. *)
Definition with_obuf_next (bd : t) (next : Z) : t :=
  mk (m_dispatcher bd) (m_is_index_loaded bd) (m_load_count bd) (m_ibuf_next bd)
     next (m_obuf_bottom bd) (m_buffers bd).

(** [byte_t get()] *)
Definition get (bd : t) : byte_t * t :=
  if is_loaded bd then
    (raw_at (obuf (m_buffers bd)) (Z.to_nat (m_obuf_next bd)),
     with_obuf_next bd (wrap size_bits (m_obuf_next bd + 1)))
  else (0%Z, bd).

(** [void write_to(Dest &&dest)]: [while (is_loaded()) dest(get());].  The
    result is the bytes given to [dest], in order; [None] when the loop is
    still running after [fuel] turns. *)
Fixpoint write_to (fuel : nat) (bd : t) : option (list byte_t * t) :=
  if is_loaded bd then
    match fuel with
    | 0 => None
    | S fuel =>
        let (byte, bd') := get bd in
        match write_to fuel bd' with
        | Some (rest, bd'') => Some (byte :: rest, bd'')
        | None => None
        end
    end
  else Some ([], bd).

(** [bool reply(Output &&output, Key k)].  [buf0] is the content the local
    [buf_t buf] is found with; [write_to(std::begin(buf))] stores the bytes
    through the iterator.  The result is the returned boolean, the
    dispatcher and the bytes given to [output]. *)
Definition reply (fuel : nat) (buf0 : list byte_t) (k : key) (bd : t)
    : option (bool * t * list byte_t) :=
  let buf_size := payload_length k - width_bytes (key_index_t k) in
  if negb ((m_obuf_next bd =? 0)%Z && (m_obuf_bottom bd <=? Z.of_nat buf_size)%Z)
  then Some (false, bd, [])
  else
    match write_to fuel bd with
    | None => None
    | Some (staged, bd') =>
        let buf := store_seq buf0 0 staged in
        Some (true, bd', key_request k [v_array (map v_int buf)])
    end.

(** A sequence of calls to [put], and of calls to [get]. *)
Definition put_all (bytes : list byte_t) (bd : t) : t :=
  fold_left (fun bd byte => (put byte bd).2) bytes bd.

Definition get_n (n : nat) (bd : t) : t := Nat.iter n (fun bd => (get bd).2) bd.

(** The action the loaded index designates. *)
Definition current_input_size (bd : t) : Z :=
  input_size_at (m_dispatcher bd) (index_in_ibuf (m_dispatcher bd) (m_buffers bd)).

(** The invariants of the state machine, with the state in which the index
    is not loaded described by what is left of the index to load. *)
Definition invariants (bd : t) : Prop :=
  (0 <= m_ibuf_next bd <= Z.of_nat (length (ibuf (m_buffers bd))))%Z /\
  (0 <= m_obuf_next bd <= m_obuf_bottom bd)%Z /\
  (m_obuf_bottom bd <= Z.of_nat (length (obuf (m_buffers bd))))%Z /\
  (m_is_index_loaded bd = false ->
     (1 <= m_load_count bd)%Z /\
     (m_load_count bd + m_ibuf_next bd = sizeof_index_t (m_dispatcher bd))%Z) /\
  (m_is_index_loaded bd = true ->
     (1 <= m_load_count bd)%Z /\
     (m_load_count bd + m_ibuf_next bd
      = sizeof_index_t (m_dispatcher bd) + current_input_size bd)%Z).

(** The same with the clause on the state in which the index is not loaded
    as first written: [load_count] is then [sizeof(index_t)]. *)
Definition invariants_load_count_fixed (bd : t) : Prop :=
  (0 <= m_ibuf_next bd <= Z.of_nat (length (ibuf (m_buffers bd))))%Z /\
  (0 <= m_obuf_next bd <= m_obuf_bottom bd)%Z /\
  (m_obuf_bottom bd <= Z.of_nat (length (obuf (m_buffers bd))))%Z /\
  (m_is_index_loaded bd = false ->
     m_load_count bd = sizeof_index_t (m_dispatcher bd)) /\
  (m_is_index_loaded bd = true ->
     (m_load_count bd + m_ibuf_next bd
      = sizeof_index_t (m_dispatcher bd) + current_input_size bd)%Z).

Definition is_loading (status : packet_status) : bool :=
  match status with LOADING_PACKET => true | _ => false end.

Definition is_resolved (status : packet_status) : bool :=
  match status with RESOLVED_PACKET => true | _ => false end.

(** [packet_status read_from(Src &&src)], its first loop:
    [while (!m_is_index_loaded && status == LOADING_PACKET) status = put(src());]
    [None] when the loop is still running after [fuel] turns. *)
Fixpoint read_from_index (fuel : nat) (src : getter) (status : packet_status)
    (bd : t) (s : io_state) : option (packet_status * t * io_state) :=
  if negb (m_is_index_loaded bd) && is_loading status then
    match fuel with
    | 0 => None
    | S fuel =>
        let (byte, s') := call_src src s in
        let (status', bd') := put byte bd in
        read_from_index fuel src status' bd' s'
    end
  else Some (status, bd, s).

(** Its second loop: [while (m_is_index_loaded) status = put(src());] *)
Fixpoint read_from_arguments (fuel : nat) (src : getter) (status : packet_status)
    (bd : t) (s : io_state) : option (packet_status * t * io_state) :=
  if m_is_index_loaded bd then
    match fuel with
    | 0 => None
    | S fuel =>
        let (byte, s') := call_src src s in
        let (status', bd') := put byte bd in
        read_from_arguments fuel src status' bd' s'
    end
  else Some (status, bd, s).

Definition read_from (fuel : nat) (src : getter) (bd : t) (s : io_state)
    : option (packet_status * t * io_state) :=
  match read_from_index fuel src LOADING_PACKET bd s with
  | Some (status, bd', s') => read_from_arguments fuel src status bd' s'
  | None => None
  end.

(** [packet_status operator()(Src &&src, Dest &&dest)]: [read_from], then
    [write_to] if the status is [RESOLVED_PACKET]. *)
Definition process (fuel : nat) (src : getter) (bd : t) (s : io_state)
    : option (packet_status * t * io_state) :=
  match read_from fuel src bd s with
  | Some (status, bd', s') =>
      if is_resolved status then
        match write_to fuel bd' with
        | Some (output, bd'') =>
            Some (status, bd'', mk_io (getter_calls s') (putter_bytes s' ++ output))
        | None => None
        end
      else Some (status, bd', s')
  | None => None
  end.

(** A dispatcher over the keyring [K] that waits for the first byte of a
    request. *)
Definition awaits_request (K : keyring) (bd : t) : Prop :=
  m_dispatcher bd = make_dispatcher K /\
  needed_input_buffer_size K <= length (ibuf (m_buffers bd)) /\
  m_is_index_loaded bd = false /\
  m_ibuf_next bd = 0%Z /\
  m_load_count bd = sizeof_index_t (m_dispatcher bd).

(** What holds of every dispatcher reached from a fresh one over the keyring
    [K] by calls to [put]. *)
Definition reached (K : keyring) (bd : t) : Prop :=
  m_dispatcher bd = make_dispatcher K /\
  needed_input_buffer_size K <= length (ibuf (m_buffers bd)) /\
  m_obuf_next bd = 0%Z /\ m_obuf_bottom bd = 0%Z /\
  (1 <= m_load_count bd)%Z /\
  if m_is_index_loaded bd then
    let index := index_in_ibuf (m_dispatcher bd) (m_buffers bd) in
    (0 <= index < Z.of_nat (size (m_dispatcher bd)))%Z /\
    (sizeof_index_t (m_dispatcher bd) <= m_ibuf_next bd)%Z /\
    (m_load_count bd + m_ibuf_next bd
     = sizeof_index_t (m_dispatcher bd) + input_size_at (m_dispatcher bd) index)%Z
  else
    (0 <= m_ibuf_next bd)%Z /\
    (m_load_count bd + m_ibuf_next bd = sizeof_index_t (m_dispatcher bd))%Z.

End buffered_undispatcher.

(** ** [k2o/buffered_dispatcher.hpp]

    The buffered dispatcher under the former name of the library.  Its
    iterators are offsets from the beginning of the buffers; its plain
    dispatcher and its orders ([k2o/dispatcher.hpp], [k2o/order.hpp]) are
    the dispatcher and the actions above, [detail::call] and
    [detail::insert] being the same in both. *)

Module k2o.

Record buffered_dispatcher : Type := mk {
  m_dispatcher : dispatcher;
  m_is_index_loaded : bool;
  m_load_count : Z;
  m_ibuf_next : nat;
  m_obuf_next : nat;
  m_obuf_bottom : nat;
  m_buffers : buffers
}.

(** [detail::get_index(src, read_index)], [read_index] being
    [upd::read_as<index_t, Endianess, Signed_Mode>]. *)
Definition get_index (d : dispatcher) (src : getter) : io Z :=
  index_buf <- fill src (width_bytes (index_t d)) ;;
  io_ret (as_int (serialization.read_as (t_unsigned (index_t d))
                    (kr_endianess (keyring_t d)) (kr_signed_mode (keyring_t d))
                    index_buf 0)).

(** [index_t dispatcher_impl::operator()(Src &&src, Dest &&dest)] *)
Definition dispatch (d : dispatcher) (src : getter) : io Z :=
  index <- get_index d src ;;
  (if (index <? Z.of_nat (size d))%Z
   then match m_actions d !! Z.to_nat index with
        | Some order => invoke order src
        | None => io_ret tt
        end
   else io_ret tt) ;;;
  io_ret index.

Definition construct (K : keyring) (bufs : buffers) : buffered_dispatcher :=
  mk (make_dispatcher K) false (Z.of_nat (width_bytes (keyring_index_t K))) 0 0 0 bufs.

(** [void read(Src_F &&src_ftor)], [byte] being what [src_ftor()] returns.
    The order reads all its arguments from [ibuf_it] before it gives its
    first byte to the putter [*m_obuf_bottom++ = byte], so that its
    output is computed here from the input buffer and stored next.  The
    index just loaded is not compared with [N] before
    [m_dispatcher[index].input_size()]; out of range the model reads 0. *)
Definition read (byte : byte_t) (bd : buffered_dispatcher) : buffered_dispatcher :=
  let d := m_dispatcher bd in
  let bufs := ibuf_store (m_buffers bd) (m_ibuf_next bd) byte in
  let ibuf_next := S (m_ibuf_next bd) in
  let load_count := wrap size_bits (m_load_count bd - 1) in
  if (load_count =? 0)%Z then
    let get_index_byte := raw_at (ibuf bufs) in
    if m_is_index_loaded bd then
      let sizeof_index_t := Z.of_nat (width_bytes (index_t d)) in
      let (index, ibuf_it) := get_index d get_index_byte (mk_io 0 []) in
      if (index >=? Z.of_nat (size d))%Z then
        mk d false sizeof_index_t 0 (m_obuf_next bd) (m_obuf_bottom bd) bufs
      else
        let output :=
          match m_actions d !! Z.to_nat index with
          | Some order => putter_bytes (invoke order get_index_byte ibuf_it).2
          | None => []
          end in
        mk d false sizeof_index_t 0 0 (length output) (obuf_store_seq bufs 0 output)
    else
      let index := (get_index d get_index_byte (mk_io 0 [])).1 in
      mk d true (buffered_undispatcher.input_size_at d index) ibuf_next
         (m_obuf_next bd) (m_obuf_bottom bd) bufs
  else
    mk d (m_is_index_loaded bd) load_count ibuf_next
       (m_obuf_next bd) (m_obuf_bottom bd) bufs.

Definition read_all_bytes (bytes : list byte_t) (bd : buffered_dispatcher)
    : buffered_dispatcher :=
  fold_left (fun bd byte => read byte bd) bytes bd.

(** [void read_all(Src_F &&src_ftor)], one of its two loops:
    [while (!m_is_index_loaded) read(src_ftor);] for [loaded = false] and
    [while (m_is_index_loaded) read(src_ftor);] for [loaded = true].
    [None] when the loop is still running after [fuel] turns. *)
Fixpoint read_all_while (loaded : bool) (fuel : nat) (src : getter)
    (bd : buffered_dispatcher) (s : io_state) : option (buffered_dispatcher * io_state) :=
  if Bool.eqb (m_is_index_loaded bd) loaded then
    match fuel with
    | 0 => None
    | S fuel =>
        let (byte, s') := call_src src s in
        read_all_while loaded fuel src (read byte bd) s'
    end
  else Some (bd, s).

Definition read_all (fuel : nat) (src : getter) (bd : buffered_dispatcher) (s : io_state)
    : option (buffered_dispatcher * io_state) :=
  match read_all_while false fuel src bd s with
  | Some (bd', s') => read_all_while true fuel src bd' s'
  | None => None
  end.

(** [bool is_loaded() const] *)
Definition is_loaded (bd : buffered_dispatcher) : bool :=
  negb (Nat.eqb (m_obuf_next bd) (m_obuf_bottom bd)).

(** [void write(Dest_F &&dest_ftor)]: the byte [*m_obuf_next++] is given to [dest_ftor] if [is_loaded()].
    The result is the bytes given to [dest_ftor], one or none. *)
Definition write (bd : buffered_dispatcher) : list byte_t * buffered_dispatcher :=
  if is_loaded bd then
    ([raw_at (obuf (m_buffers bd)) (m_obuf_next bd)],
     mk (m_dispatcher bd) (m_is_index_loaded bd) (m_load_count bd) (m_ibuf_next bd)
        (S (m_obuf_next bd)) (m_obuf_bottom bd) (m_buffers bd))
  else ([], bd).

(** [void write_all(Dest_F &&dest_ftor)]: [while (is_loaded()) write(dest_ftor);] *)
Fixpoint write_all (fuel : nat) (bd : buffered_dispatcher)
    : option (list byte_t * buffered_dispatcher) :=
  if is_loaded bd then
    match fuel with
    | 0 => None
    | S fuel =>
        let (bytes, bd') := write bd in
        match write_all fuel bd' with
        | Some (rest, bd'') => Some (bytes ++ rest, bd'')
        | None => None
        end
    end
  else Some ([], bd).

End k2o.

(** ** Keyrings of the scenarios *)

(** [u8 id(u8)] *)
Definition id_u8 : unevaluated :=
  mk_unevaluated (mk_signature [t_unsigned W8] (Some (t_unsigned W8)))
    (fun args => nth 0 args (v_int 0)).

(** [u32 widen(u8)] *)
Definition widen_u8 : unevaluated :=
  mk_unevaluated (mk_signature [t_unsigned W8] (Some (t_unsigned W32)))
    (fun args => nth 0 args (v_int 0)).

(** [void noop()] *)
Definition noop : unevaluated :=
  mk_unevaluated (mk_signature [] None) (fun _ => v_int 0).

(** [u16 add(u16, u16)] *)
Definition add_u16 : unevaluated :=
  mk_unevaluated
    (mk_signature [t_unsigned W16; t_unsigned W16] (Some (t_unsigned W16)))
    (fun args =>
       v_int (wrap 16 (as_int (nth 0 args (v_int 0)) + as_int (nth 1 args (v_int 0))))).

(** [swap] of a [u8[4]], returning its argument reversed. *)
Definition swap_u8_4 : unevaluated :=
  mk_unevaluated
    (mk_signature [t_array (t_unsigned W8) 4] (Some (t_array (t_unsigned W8) 4)))
    (fun args =>
       match nth 0 args (v_int 0) with
       | v_array vs => v_array (rev vs)
       | v_int z => v_int z
       end).

Definition keyring_id : keyring := mk_keyring LITTLE TWOS_COMPLEMENT [id_u8].

Definition keyring_widen : keyring := mk_keyring LITTLE TWOS_COMPLEMENT [widen_u8].

Definition keyring_300 : keyring :=
  mk_keyring LITTLE TWOS_COMPLEMENT (replicate 300 noop).

(** * Proofs *)

(** ** Bits *)

Lemma lor_next_byte (x m : Z) :
  (0 <= m)%Z ->
  Z.lor (x mod 2 ^ m) (Z.shiftl (Z.land (Z.shiftr x m) 255) m)
  = (x mod 2 ^ (m + 8))%Z.
Proof.
  intros Hm. apply Z.bits_inj'. intros i Hi.
  rewrite Z.lor_spec, !Z.testbit_mod_pow2 by lia.
  rewrite Z.shiftl_spec by lia.
  destruct (Z.ltb_spec i m) as [Hlt | Hge].
  - rewrite (Z.testbit_neg_r _ (i - m)) by lia.
    replace (i <? m + 8)%Z with true by (symmetry; apply Z.ltb_lt; lia).
    now rewrite orb_false_r.
  - rewrite Z.land_spec, Z.shiftr_spec by lia.
    change 255%Z with (Z.ones 8). rewrite Z.testbit_ones by lia.
    replace (i - m + m)%Z with i by lia.
    destruct (Z.ltb_spec i (m + 8)), (Z.ltb_spec (i - m) 8), (Z.leb_spec 0 (i - m));
      try lia; simpl; now rewrite ?andb_true_r, ?andb_false_r.
Qed.

(** ** The byte-order loops *)

Lemma endian_index_range e offset n i :
  i < n -> offset <= endian_index e offset n i < offset + n.
Proof. destruct e; simpl; lia. Qed.

Lemma endian_index_inj e offset n i j :
  i < n -> j < n -> endian_index e offset n i = endian_index e offset n j -> i = j.
Proof. destruct e; simpl; lia. Qed.

Lemma write_loop_spec e x offset n raw m :
  m <= n -> offset + n <= length raw ->
  let r := fold_left (write_with_endianess_step e offset n) (seq 0 m) (raw, x) in
  r.2 = Z.shiftr x (8 * Z.of_nat m) /\
  length r.1 = length raw /\
  (forall i, i < m ->
     r.1 !! endian_index e offset n i = Some (Z.land (Z.shiftr x (8 * Z.of_nat i)) 255)) /\
  (forall j, (forall i, i < m -> j <> endian_index e offset n i) -> r.1 !! j = raw !! j).
Proof.
  intros Hm Hlen. induction m as [| m IH].
  - simpl. repeat split; auto. intros i Hi. lia.
  - rewrite seq_S, fold_left_app. simpl.
    destruct IH as (Hx & Hl & Hin & Hout); [lia |].
    set (r := fold_left _ (seq 0 m) (raw, x)) in *.
    repeat split.
    + rewrite Hx, Z.shiftr_shiftr by lia. f_equal. lia.
    + now rewrite length_insert.
    + intros i Hi. destruct (decide (i = m)) as [-> | Hne].
      * rewrite list_lookup_insert_eq, Hx; [done |].
        pose proof (endian_index_range e offset n m ltac:(lia)). lia.
      * rewrite list_lookup_insert_ne.
        -- apply Hin. lia.
        -- intros Heq. apply endian_index_inj in Heq; lia.
    + intros j Hj. rewrite list_lookup_insert_ne.
      * apply Hout. intros i Hi. apply Hj. lia.
      * intros Heq. apply (Hj m); [lia | done].
Qed.

Lemma write_with_endianess_length e x offset n raw :
  offset + n <= length raw ->
  length (write_with_endianess e x offset n raw) = length raw.
Proof. intros H. now destruct (write_loop_spec e x offset n raw n) as (_ & ? & _). Qed.

Lemma write_with_endianess_byte e x offset n raw i :
  offset + n <= length raw -> i < n ->
  raw_at (write_with_endianess e x offset n raw) (endian_index e offset n i)
  = Z.land (Z.shiftr x (8 * Z.of_nat i)) 255.
Proof.
  intros H Hi. destruct (write_loop_spec e x offset n raw n) as (_ & _ & Hin & _); [lia .. |].
  unfold raw_at, write_with_endianess. now rewrite Hin.
Qed.

Lemma write_with_endianess_frame e x offset n raw j :
  offset + n <= length raw -> j < offset \/ offset + n <= j ->
  write_with_endianess e x offset n raw !! j = raw !! j.
Proof.
  intros H Hj. destruct (write_loop_spec e x offset n raw n) as (_ & _ & _ & Hout); [lia .. |].
  apply Hout. intros i Hi. pose proof (endian_index_range e offset n i Hi). lia.
Qed.

Lemma interpret_loop_spec bits e raw offset n x m :
  m <= n -> (8 * Z.of_nat n <= bits)%Z ->
  (forall i, i < n ->
     raw_at raw (endian_index e offset n i) = Z.land (Z.shiftr x (8 * Z.of_nat i)) 255) ->
  fold_left
    (fun retval i =>
       wrap bits (Z.lor retval
                    (Z.shiftl (wrap bits (raw_at raw (endian_index e offset n i)))
                              (8 * Z.of_nat i))))
    (seq 0 m) 0%Z
  = (x mod 2 ^ (8 * Z.of_nat m))%Z.
Proof.
  intros Hm Hbits Hraw. induction m as [| m IH].
  - simpl. now rewrite Z.mod_1_r.
  - rewrite seq_S, fold_left_app, IH by lia. simpl.
    rewrite Hraw by lia. unfold wrap.
    assert (Hpow : (2 ^ (8 * Z.of_nat m + 8) <= 2 ^ bits)%Z)
      by (apply Z.pow_le_mono_r; lia).
    assert (Hbyte : (0 <= Z.land (Z.shiftr x (8 * Z.of_nat m)) 255 < 2 ^ 8)%Z).
    { change 255%Z with (Z.ones 8). rewrite Z.land_ones by lia.
      apply Z.mod_pos_bound. lia. }
    assert (H8 : (2 ^ 8 <= 2 ^ bits)%Z) by (apply Z.pow_le_mono_r; lia).
    rewrite (Z.mod_small (Z.land _ _)) by lia.
    rewrite lor_next_byte by lia.
    replace (8 * Z.of_nat (S m))%Z with (8 * Z.of_nat m + 8)%Z by lia.
    apply Z.mod_small.
    pose proof (Z.mod_pos_bound x (2 ^ (8 * Z.of_nat m + 8))). lia.
Qed.

Lemma interpret_write_with_endianess bits e x offset n raw :
  offset + n <= length raw -> (8 * Z.of_nat n <= bits)%Z ->
  interpret_with_endianess bits e (write_with_endianess e x offset n raw) offset n
  = (x mod 2 ^ (8 * Z.of_nat n))%Z.
Proof.
  intros H Hbits. unfold interpret_with_endianess.
  apply interpret_loop_spec; [lia | lia |].
  intros i Hi. now apply write_with_endianess_byte.
Qed.

Lemma interpret_with_endianess_ext bits e raw1 raw2 offset n :
  (forall j, offset <= j < offset + n -> raw1 !! j = raw2 !! j) ->
  interpret_with_endianess bits e raw1 offset n
  = interpret_with_endianess bits e raw2 offset n.
Proof.
  intros Hext. unfold interpret_with_endianess.
  assert (Hgen : forall m a, m <= n ->
    fold_left
      (fun retval i =>
         wrap bits (Z.lor retval
           (Z.shiftl (wrap bits (raw_at raw1 (endian_index e offset n i))) (8 * Z.of_nat i))))
      (seq 0 m) a
    = fold_left
      (fun retval i =>
         wrap bits (Z.lor retval
           (Z.shiftl (wrap bits (raw_at raw2 (endian_index e offset n i))) (8 * Z.of_nat i))))
      (seq 0 m) a).
  { induction m as [| m IH]; intros a Hm; [done |].
    rewrite seq_S, !fold_left_app, IH by lia. simpl.
    unfold raw_at. rewrite Hext; [done |]. apply endian_index_range. lia. }
  now apply Hgen.
Qed.

Lemma interpret_with_endianess_bound bits e raw offset n :
  (0 < bits)%Z ->
  (0 <= interpret_with_endianess bits e raw offset n < 2 ^ bits)%Z.
Proof.
  intros Hbits. unfold interpret_with_endianess.
  destruct n as [| n]; [simpl; lia |].
  rewrite seq_S, fold_left_app. simpl. unfold wrap at 1.
  apply Z.mod_pos_bound. lia.
Qed.

(** ** Signed representations *)

Lemma width_bits_cases w :
  width_bits w = 8%Z \/ width_bits w = 16%Z \/ width_bits w = 32%Z \/ width_bits w = 64%Z.
Proof. destruct w; cbv; auto. Qed.

Lemma width_bits_bytes w : width_bits w = (8 * Z.of_nat (width_bytes w))%Z.
Proof. reflexivity. Qed.

Lemma width_bytes_pos w : 1 <= width_bytes w <= 8.
Proof. destruct w; simpl; lia. Qed.

Lemma pow2_width_bits w :
  exists h : Z,
    (0 < h)%Z /\ (2 ^ (width_bits w - 1) = h)%Z /\ (2 ^ width_bits w = 2 * h)%Z /\
    (2 * h | 2 ^ 64)%Z.
Proof.
  exists (2 ^ (width_bits w - 1))%Z.
  destruct w; cbv [width_bits width_bytes]; simpl; repeat split; try lia.
  - exists (2 ^ 56)%Z. reflexivity.
  - exists (2 ^ 48)%Z. reflexivity.
  - exists (2 ^ 32)%Z. reflexivity.
  - exists 1%Z. reflexivity.
Qed.

Lemma mod_negative (x k : Z) : (- k <= x < 0)%Z -> (x mod k = x + k)%Z.
Proof. intros H. symmetry. apply Z.mod_unique with (q := (-1)%Z); lia. Qed.

Lemma from_to_signed_mode w sm x :
  representable sm (t_signed w) (v_int x) = true ->
  from_signed_mode w sm (to_signed_mode sm x mod 2 ^ width_bits w) = x.
Proof.
  unfold from_signed_mode, to_signed_mode, wrap, representable.
  destruct (pow2_width_bits w) as (h & Hh & -> & -> & Hdiv).
  intros Hrep. destruct sm.
  - apply andb_prop in Hrep as [Hlo Hhi].
    apply Z.ltb_lt in Hlo, Hhi.
    destruct (Z.leb_spec 0 x) as [Hpos | Hneg].
    + rewrite Z.mod_small by lia.
      destruct (Z.ltb_spec x h); lia.
    + replace (Z.lnot (Z.abs x)) with (x - 1)%Z by (unfold Z.lnot; lia).
      rewrite Z.mod_mod_divide by apply Hdiv.
      rewrite mod_negative by lia.
      destruct (Z.ltb_spec (x - 1 + 2 * h) h); lia.
  - apply andb_prop in Hrep as [Hlo Hhi].
    apply Z.leb_le in Hlo. apply Z.ltb_lt in Hhi.
    rewrite Z.mod_mod_divide by apply Hdiv.
    destruct (Z.leb_spec 0 x) as [Hpos | Hneg].
    + rewrite Z.mod_small by lia.
      destruct (Z.ltb_spec x h); lia.
    + rewrite mod_negative by lia.
      destruct (Z.ltb_spec (x + 2 * h) h); lia.
Qed.

(** ** [read_as] after [write_as] *)

Section serialization_roundtrip.
Import serialization.
Variables (e : endianess) (sm : signed_mode).

Lemma array_slot (sequence i len sz : nat) :
  i < len -> sequence + i * sz + sz <= sequence + len * sz.
Proof. intros Hi. nia. Qed.

(** [write_as] keeps the length of the memory and touches no byte outside
    the [sizeof(T)] bytes from [sequence]. *)
Lemma write_as_frame T : forall x mem sequence,
  sequence + sizeof T <= length mem ->
  length (write_as e sm T x mem sequence) = length mem /\
  (forall j, j < sequence \/ sequence + sizeof T <= j ->
     write_as e sm T x mem sequence !! j = mem !! j).
Proof.
  induction T as [w | w | elt IH len]; intros x mem sequence Hlen; simpl in *.
  - split; [now apply write_with_endianess_length |].
    intros j Hj. now apply write_with_endianess_frame.
  - split; [now apply write_with_endianess_length |].
    intros j Hj. now apply write_with_endianess_frame.
  - assert (Hgen : forall m, m <= len ->
      let mem' := fold_left
        (fun mem i => write_as e sm elt (array_at x i) mem (sequence + i * sizeof elt))
        (seq 0 m) mem in
      length mem' = length mem /\
      (forall j, j < sequence \/ sequence + m * sizeof elt <= j -> mem' !! j = mem !! j)).
    { induction m as [| m IHm]; intros Hm; [done |].
      rewrite seq_S, fold_left_app. simpl.
      destruct IHm as [Hl Hf]; [lia |].
      pose proof (array_slot sequence m len (sizeof elt) ltac:(lia)) as Hslot.
      destruct (IH (array_at x m)
                  (fold_left
                     (fun mem i => write_as e sm elt (array_at x i) mem (sequence + i * sizeof elt))
                     (seq 0 m) mem)
                  (sequence + m * sizeof elt)) as [Hl' Hf']; [lia |].
      split; [lia |].
      intros j Hj. rewrite Hf' by lia. apply Hf. lia. }
    apply Hgen. lia.
Qed.

(** [read_as] looks at the [sizeof(T)] bytes from [sequence] only. *)
Lemma read_as_ext T : forall mem1 mem2 sequence,
  (forall j, sequence <= j < sequence + sizeof T -> mem1 !! j = mem2 !! j) ->
  read_as T e sm mem1 sequence = read_as T e sm mem2 sequence.
Proof.
  induction T as [w | w | elt IH len]; intros mem1 mem2 sequence Hext; simpl in *.
  - unfold from_endianess. f_equal. now apply interpret_with_endianess_ext.
  - unfold from_endianess. do 2 f_equal. now apply interpret_with_endianess_ext.
  - f_equal. apply map_ext_in. intros i Hi. apply in_seq in Hi.
    apply IH. intros j Hj. apply Hext.
    pose proof (array_slot sequence i len (sizeof elt) ltac:(lia)). lia.
Qed.

Lemma map_nth_seq (vs : list value) (d : value) :
  map (fun i => nth i vs d) (seq 0 (length vs)) = vs.
Proof.
  induction vs as [| v vs IH]; [done |].
  simpl. f_equal. rewrite <- seq_shift, map_map. exact IH.
Qed.

Lemma representable_array_at elt len x i :
  representable sm (t_array elt len) x = true -> i < len ->
  representable sm elt (array_at x i) = true.
Proof.
  destruct x as [z | vs]; simpl; [done |].
  intros H Hi. apply andb_prop in H as [Hlen Hall].
  apply Nat.eqb_eq in Hlen. rewrite forallb_forall in Hall.
  apply Hall, nth_In. lia.
Qed.

Lemma roundtrip_at T : forall x mem sequence,
  representable sm T x = true ->
  sequence + sizeof T <= length mem ->
  read_as T e sm (write_as e sm T x mem sequence) sequence = x.
Proof.
  induction T as [w | w | elt IH len]; intros x mem sequence Hrep Hlen.
  - destruct x as [z |]; [| done]. simpl in *.
    unfold from_endianess, to_endianess.
    rewrite interpret_write_with_endianess by (rewrite ?width_bits_bytes; lia).
    apply andb_prop in Hrep as [Hlo Hhi].
    apply Z.leb_le in Hlo. apply Z.ltb_lt in Hhi.
    rewrite <- width_bits_bytes. now rewrite Z.mod_small by lia.
  - destruct x as [z |]; [| done]. simpl read_as. simpl write_as. simpl in Hlen.
    unfold from_endianess, to_endianess.
    rewrite interpret_write_with_endianess
      by (pose proof (width_bytes_pos w); lia).
    rewrite <- width_bits_bytes. f_equal. now apply from_to_signed_mode.
  - destruct x as [z | vs]; [done |].
    pose proof Hrep as Hrep'. simpl in Hrep'.
    apply andb_prop in Hrep' as [Hvs _]. apply Nat.eqb_eq in Hvs.
    simpl in Hlen. simpl read_as. simpl write_as.
    assert (Hgen : forall m, m <= len ->
      forall i, i < m ->
      read_as elt e sm
        (fold_left
           (fun mem i => write_as e sm elt (array_at (v_array vs) i) mem
                           (sequence + i * sizeof elt))
           (seq 0 m) mem)
        (sequence + i * sizeof elt)
      = array_at (v_array vs) i).
    { induction m as [| m IHm]; intros Hm i Hi; [lia |].
      rewrite seq_S, fold_left_app. simpl fold_left at 1.
      set (mem' := fold_left _ (seq 0 m) mem) in *.
      pose proof (array_slot sequence m len (sizeof elt) ltac:(lia)) as Hslot.
      assert (Hmem' : length mem' = length mem).
      { pose proof (write_as_frame (t_array elt m) (v_array vs) mem sequence) as Hf.
        simpl in Hf. apply Hf. nia. }
      destruct (decide (i = m)) as [-> | Hne].
      - apply IH; [| simpl; lia].
        eapply representable_array_at; [exact Hrep | lia].
      - rewrite <- (IHm ltac:(lia) i ltac:(lia)).
        apply read_as_ext. intros j Hj.
        apply write_as_frame; [simpl; lia |]. simpl. nia. }
    f_equal.
    transitivity (map (fun i => nth i vs (v_int 0)) (seq 0 (length vs)));
      [| apply map_nth_seq].
    rewrite Hvs. apply map_ext_in. intros i Hi. apply in_seq in Hi.
    rewrite (Hgen len) by lia. reflexivity.
Qed.

End serialization_roundtrip.

(** ** [unaligned_data] goes through the same codec *)

Lemma interpret_as_read_as T : forall ud offset,
  unaligned_data.interpret_as T ud offset
  = serialization.read_as T (unaligned_data.m_endianess ud)
      (unaligned_data.m_signed_mode ud) (unaligned_data.m_raw_data ud) offset.
Proof.
  induction T as [w | w | elt IH len]; intros ud offset; simpl.
  - reflexivity.
  - now destruct (unaligned_data.m_signed_mode ud).
  - f_equal. apply map_ext. intros i. apply IH.
Qed.

Lemma write_write_as T : forall x offset ud,
  unaligned_data.write T x offset ud
  = unaligned_data.with_raw_data ud
      (serialization.write_as (unaligned_data.m_endianess ud)
         (unaligned_data.m_signed_mode ud) T x (unaligned_data.m_raw_data ud) offset).
Proof.
  induction T as [w | w | elt IH len]; intros x offset ud; simpl.
  - reflexivity.
  - now destruct (unaligned_data.m_signed_mode ud).
  - generalize (seq 0 len). intros l. revert ud.
    induction l as [| i l IHl]; intros ud; simpl.
    + now destruct ud.
    + rewrite IHl, IH. reflexivity.
Qed.

(** C2, for the values the signed mode has a pattern for.  For every byte
    order and signed mode and every value [x] of a serializable type [T]
    (unsigned integer, signed integer, array of such) that is in the range
    of the signed mode, which for ones' complement leaves out the least
    value [- 2 ^ (bits - 1)] of a signed integer, reading back what
    [write_as] wrote yields [x]: through a pointer at any place of a memory
    that holds [sizeof(T)] bytes there, and through the iterator overloads
    with their local buffer, and through [unaligned_data::write] and
    [interpret_as]. *)
Theorem read_as_write_as (e : endianess) (sm : signed_mode) (T : type) (x : value) :
  representable sm T x = true ->
  (forall mem sequence,
     sequence + sizeof T <= length mem ->
     serialization.read_as T e sm (serialization.write_as e sm T x mem sequence) sequence = x) /\
  serialization.read_as_bytes T e sm (serialization.write_as_bytes e sm T x) = x /\
  (forall raw offset,
     offset + sizeof T <= length raw ->
     unaligned_data.interpret_as T
       (unaligned_data.write T x offset (unaligned_data.mk raw e sm)) offset = x).
Proof.
  intros Hrep. split; [| split].
  - intros mem sequence Hlen. now apply roundtrip_at.
  - unfold serialization.read_as_bytes, serialization.write_as_bytes.
    assert (Hlen : 0 + sizeof T <= length (replicate (sizeof T) 0%Z))
      by (rewrite length_replicate; lia).
    rewrite take_ge.
    + now apply roundtrip_at.
    + destruct (write_as_frame e sm T x _ 0 Hlen) as [-> _].
      rewrite length_replicate. lia.
  - intros raw offset Hlen.
    rewrite write_write_as, interpret_as_read_as. simpl.
    now apply roundtrip_at.
Qed.

Lemma read_as_write_as_witness :
  let T := t_array (t_signed W16) 3 in
  let x := v_array [v_int (-2); v_int 300; v_int (-32767)] in
  representable ONES_COMPLEMENT T x = true /\
  serialization.read_as_bytes T BIG ONES_COMPLEMENT
    (serialization.write_as_bytes BIG ONES_COMPLEMENT T x) = x.
Proof.
  split; [reflexivity |].
  refine (proj1 (proj2 (read_as_write_as BIG ONES_COMPLEMENT
           (t_array (t_signed W16) 3)
           (v_array [v_int (-2); v_int 300; v_int (-32767)]) _))).
  reflexivity.
Defined.

(** The range of ones' complement is the symmetric one: the pattern written
    for [- 2 ^ 7] on one byte is that of [2 ^ 7 - 1]. *)
Remark ones_complement_minimum :
  serialization.write_as_bytes LITTLE ONES_COMPLEMENT (t_signed W8) (v_int (-128))
  = serialization.write_as_bytes LITTLE ONES_COMPLEMENT (t_signed W8) (v_int 127).
Proof. reflexivity. Qed.

(** The statement of C2 for every value of [T] fails in ones' complement at
    the least value of a signed integer: [- 2 ^ 7] is a value of the 8-bit
    signed integer, [write_as] takes it, and what is read back is
    [2 ^ 7 - 1], through the pointer overloads, the iterator overloads and
    [unaligned_data] alike. *)
Lemma int8_minimum_not_read_back :
  let T := t_signed W8 in
  let x := v_int (- 2 ^ 7) in
  representable TWOS_COMPLEMENT T x = true /\
  representable ONES_COMPLEMENT T x = false /\
  serialization.read_as_bytes T LITTLE ONES_COMPLEMENT
    (serialization.write_as_bytes LITTLE ONES_COMPLEMENT T x) = v_int (2 ^ 7 - 1) /\
  serialization.read_as T BIG ONES_COMPLEMENT
    (serialization.write_as BIG ONES_COMPLEMENT T x [0; 0]%Z 1) 1 = v_int (2 ^ 7 - 1) /\
  unaligned_data.interpret_as T
    (unaligned_data.write T x 0 (unaligned_data.mk [0]%Z LITTLE ONES_COMPLEMENT)) 0
  = v_int (2 ^ 7 - 1) /\
  serialization.read_as_bytes T LITTLE ONES_COMPLEMENT
    (serialization.write_as_bytes LITTLE ONES_COMPLEMENT T x) <> x.
Proof. repeat split; try reflexivity. discriminate. Qed.


(** ** Tuple layout *)

Lemma type_sizes_lookup Ts j :
  tuple.type_sizes Ts !! j = sizeof <$> (Ts !! j).
Proof.
  unfold tuple.type_sizes. change (map sizeof Ts) with (sizeof <$> Ts).
  apply list_lookup_fmap.
Qed.

Lemma offset_sigma Ts I :
  tuple.offset Ts I = tuple.sigma (tuple.size_at Ts) I.
Proof.
  unfold tuple.offset, tuple.mp_fold, tuple.mp_take_c.
  induction I as [| I IH]; [done |].
  simpl tuple.sigma. rewrite <- IH. unfold tuple.size_at.
  pose proof (type_sizes_lookup Ts I) as Hl.
  destruct (Ts !! I) as [T |] eqn:HT; simpl in Hl.
  - rewrite (take_S_r _ _ _ Hl), fold_left_app. reflexivity.
  - apply lookup_ge_None in Hl. rewrite !take_ge by lia. lia.
Qed.

Lemma size_sigma Ts :
  tuple.size Ts = tuple.sigma (tuple.size_at Ts) (length Ts).
Proof.
  rewrite <- offset_sigma. unfold tuple.size, tuple.offset, tuple.mp_take_c.
  rewrite take_ge; [done |]. unfold tuple.type_sizes. rewrite length_map. lia.
Qed.

Lemma sigma_mono f a b : a <= b -> tuple.sigma f a <= tuple.sigma f b.
Proof. induction 1; simpl; lia. Qed.

Lemma field_fits Ts I T :
  Ts !! I = Some T -> tuple.offset Ts I + sizeof T <= tuple.size Ts.
Proof.
  intros HT. rewrite offset_sigma, size_sigma.
  pose proof (lookup_lt_Some _ _ _ HT) as Hlt.
  pose proof (sigma_mono (tuple.size_at Ts) (S I) (length Ts) ltac:(lia)) as Hm.
  simpl in Hm. unfold tuple.size_at at 2 in Hm. rewrite HT in Hm. exact Hm.
Qed.

Lemma fields_disjoint Ts I J T :
  Ts !! I = Some T -> I < J -> tuple.offset Ts I + sizeof T <= tuple.offset Ts J.
Proof.
  intros HT Hlt. rewrite !offset_sigma.
  pose proof (sigma_mono (tuple.size_at Ts) (S I) J ltac:(lia)) as Hm.
  simpl in Hm. unfold tuple.size_at at 2 in Hm. rewrite HT in Hm. exact Hm.
Qed.

(** C5. In a tuple of types [Ts], field [I] is stored at the sum of the
    sizes of the fields before it and the storage has the sum of all the
    sizes; so [set<I>(x)] writes the bytes of field [I] and no other, and
    [get<I>()] reads [x] back from these bytes alone: it returns [x] on any
    tuple whose storage has them, and the other fields read as before. *)
Theorem tuple_layout (Ts : list type) (I : nat) (T : type)
    (e : endianess) (sm : signed_mode) (raw : list byte_t) (x : value) :
  Ts !! I = Some T ->
  length raw = tuple.size Ts ->
  representable sm T x = true ->
  tuple.offset Ts I = tuple.sigma (tuple.size_at Ts) I /\
  tuple.size Ts = tuple.sigma (tuple.size_at Ts) (length Ts) /\
  tuple.offset Ts I + sizeof T <= tuple.size Ts /\
  exists tu,
    tuple.set I x (tuple.default_init Ts e sm raw) = Some tu /\
    tuple.typelist tu = Ts /\
    length (tuple.bytes tu) = tuple.size Ts /\
    (forall j, j < tuple.offset Ts I \/ tuple.offset Ts I + sizeof T <= j ->
       tuple.bytes tu !! j = raw !! j) /\
    tuple.get I tu = Some x /\
    (forall raw',
       (forall j, tuple.offset Ts I <= j < tuple.offset Ts I + sizeof T ->
          raw' !! j = tuple.bytes tu !! j) ->
       tuple.get I (tuple.default_init Ts e sm raw') = Some x) /\
    (forall J, J <> I ->
       tuple.get J tu = tuple.get J (tuple.default_init Ts e sm raw)).
Proof.
  intros HT Hraw Hrep.
  pose proof (field_fits Ts I T HT) as Hfit.
  split; [apply offset_sigma |]. split; [apply size_sigma |]. split; [exact Hfit |].
  unfold tuple.set, tuple.get, tuple.arg_t, tuple.mp_at_c, tuple.bytes. simpl.
  rewrite HT. eexists. split; [reflexivity |]. simpl.
  rewrite write_write_as. simpl.
  destruct (write_as_frame e sm T x raw (tuple.offset Ts I) ltac:(lia)) as [Hlen Hframe].
  split; [done |]. split; [lia |]. split; [exact Hframe |].
  rewrite HT. split; [| split].
  - rewrite interpret_as_read_as. simpl. f_equal.
    apply roundtrip_at; [done | lia].
  - intros raw' Hsame. rewrite interpret_as_read_as. simpl. f_equal.
    rewrite (read_as_ext e sm T raw' _ _ Hsame).
    apply roundtrip_at; [done | lia].
  - intros J HJ. destruct (Ts !! J) as [TJ |] eqn:HTJ; [| done].
    f_equal. rewrite !interpret_as_read_as. simpl.
    apply read_as_ext. intros j Hj. apply Hframe.
    destruct (Nat.lt_ge_cases J I) as [Hlt | Hge].
    + pose proof (fields_disjoint Ts J I TJ HTJ Hlt). lia.
    + pose proof (fields_disjoint Ts I J T HT ltac:(lia)). lia.
Qed.

Lemma tuple_layout_witness :
  let Ts := [t_unsigned W8; t_signed W32; t_array (t_unsigned W16) 2; t_unsigned W8] in
  let raw := [1; 2; 3; 4; 5; 6; 7; 8; 9; 10]%Z in
  Ts !! 1 = Some (t_signed W32) /\
  length raw = tuple.size Ts /\
  representable TWOS_COMPLEMENT (t_signed W32) (v_int (-5)) = true /\
  tuple.offset Ts 1 = tuple.sigma (tuple.size_at Ts) 1.
Proof.
  split; [reflexivity |]. split; [reflexivity |]. split; [reflexivity |].
  exact (proj1 (tuple_layout
    [t_unsigned W8; t_signed W32; t_array (t_unsigned W16) 2; t_unsigned W8]
    1 (t_signed W32) LITTLE TWOS_COMPLEMENT [1; 2; 3; 4; 5; 6; 7; 8; 9; 10]%Z
    (v_int (-5)) eq_refl eq_refl eq_refl)).
Defined.

Example tuple_offsets :
  let Ts := [t_unsigned W8; t_signed W32; t_array (t_unsigned W16) 2; t_unsigned W8] in
  map (tuple.offset Ts) [0; 1; 2; 3] = [0; 1; 5; 9] /\ tuple.size Ts = 10.
Proof. split; reflexivity. Qed.

(** ** Getters, putters and actions *)

Lemma fill_spec src n : forall s,
  fill src n s
  = (map (fun k => src (getter_calls s + k)) (seq 0 n),
     mk_io (getter_calls s + n) (putter_bytes s)).
Proof.
  induction n as [| n IH]; intros [calls out]; simpl.
  - unfold io_ret. do 2 f_equal. lia.
  - unfold io_bind, call_src, io_ret. rewrite IH. simpl. f_equal.
    + f_equal; [f_equal; lia |].
      rewrite <- seq_shift, map_map. apply map_ext. intros k. f_equal. lia.
    + f_equal. lia.
Qed.

Lemma emit_spec output : forall s,
  emit output s = (tt, mk_io (getter_calls s) (putter_bytes s ++ output)).
Proof.
  induction output as [| byte rest IH]; intros [calls out]; simpl.
  - unfold io_ret. now rewrite app_nil_r.
  - unfold io_bind, call_dest. simpl. rewrite IH. simpl.
    now rewrite <- app_assoc.
Qed.

Lemma set_frame I x tu tu' :
  tuple.set I x tu = Some tu' ->
  length (tuple.bytes tu) = tuple.size (tuple.typelist tu) ->
  tuple.typelist tu' = tuple.typelist tu /\
  length (tuple.bytes tu') = length (tuple.bytes tu).
Proof.
  unfold tuple.set, tuple.arg_t, tuple.mp_at_c, tuple.bytes.
  destruct (tuple.typelist tu !! I) as [T |] eqn:HT; [| done].
  intros [= <-] Hlen. simpl. split; [done |].
  rewrite write_write_as. simpl.
  apply write_as_frame. pose proof (field_fits _ _ _ HT). lia.
Qed.

Lemma lay_length args tu :
  length (tuple.bytes tu) = tuple.size (tuple.typelist tu) ->
  tuple.typelist (tuple.lay args tu) = tuple.typelist tu /\
  length (tuple.bytes (tuple.lay args tu)) = length (tuple.bytes tu).
Proof.
  unfold tuple.lay. generalize (seq 0 (length (tuple.typelist tu))). intros l.
  revert tu. induction l as [| I l IH]; intros tu Hlen; [done |].
  simpl. destruct (tuple.set I (nth I args (v_int 0)) tu) as [tu' |] eqn:Hset; simpl.
  - destruct (set_frame _ _ _ _ Hset Hlen) as [Hty Hl].
    destruct (IH tu') as [Hty' Hl']; [congruence |]. split; congruence.
  - now apply IH.
Qed.

Lemma make_tuple_length e sm Ts args :
  length (tuple.bytes (tuple.make_tuple e sm Ts args)) = tuple.size Ts.
Proof.
  unfold tuple.make_tuple.
  destruct (lay_length args (tuple.default_init Ts e sm (replicate (tuple.size Ts) 0%Z)))
    as [_ ->]; unfold tuple.bytes; simpl; now rewrite length_replicate.
Qed.

(** What one invocation of an action does to the getter and the putter. *)
Lemma invoke_spec e sm u src s :
  exists output,
    invoke (make_action e sm u) src s
    = (tt, mk_io (getter_calls s + input_size (make_action e sm u))
             (putter_bytes s ++ output)) /\
    length output = output_size (make_action e sm u) /\
    (return_t (u_signature u) = None -> output = []).
Proof.
  unfold invoke, call, input_size, output_size. simpl.
  unfold io_bind. rewrite fill_spec. unfold parameters_size, return_type_size.
  destruct (return_t (u_signature u)) as [R |].
  - eexists. unfold insert. rewrite emit_spec. simpl.
    split; [reflexivity |]. split; [apply make_tuple_length | done].
  - exists []. unfold io_ret. simpl. now rewrite app_nil_r.
Qed.

Lemma get_index_spec d src s :
  exists index,
    get_index d src s
    = (index, mk_io (getter_calls s + width_bytes (index_t d)) (putter_bytes s)) /\
    (0 <= index < 2 ^ width_bits (index_t d))%Z.
Proof.
  unfold get_index, io_bind, io_ret. rewrite fill_spec. simpl.
  eexists. split; [reflexivity |].
  apply interpret_with_endianess_bound. destruct (index_t d); reflexivity.
Qed.

(** C3. The plain dispatcher reads exactly [sizeof(index_t)] bytes to decode
    the index and returns that index whatever it is; with the index in
    range it then reads exactly [input_size] further bytes and gives exactly
    [output_size] bytes to the putter, none for a [void] return; with the
    index out of range it calls neither the getter nor the putter again. *)
Theorem dispatch_conservation (K : keyring) (src : getter) (s : io_state) :
  let d := make_dispatcher K in
  let decoded := get_index d src s in
  let result := dispatch d src s in
  decoded.2 = mk_io (getter_calls s + width_bytes (index_t d)) (putter_bytes s) /\
  result.1 = decoded.1 /\
  ((decoded.1 < Z.of_nat (size d))%Z ->
     exists a output,
       m_actions d !! Z.to_nat decoded.1 = Some a /\
       getter_calls result.2
       = getter_calls s + width_bytes (index_t d) + input_size a /\
       putter_bytes result.2 = putter_bytes s ++ output /\
       length output = output_size a /\
       (return_t (u_signature (a_callable a)) = None -> output = [])) /\
  ((Z.of_nat (size d) <= decoded.1)%Z -> result.2 = decoded.2).
Proof.
  intros d decoded result. subst decoded result.
  destruct (get_index_spec d src s) as (index & Hget & Hrange).
  unfold dispatch, io_bind. rewrite Hget. simpl.
  split; [done |].
  destruct (Z.ltb_spec index (Z.of_nat (size d))) as [Hin | Hout].
  - assert (Hlt : Z.to_nat index < length (flist_t K))
      by (unfold size, keyring_size in Hin; simpl in Hin; lia).
    destruct (lookup_lt_is_Some_2 _ _ Hlt) as [u Hu].
    assert (Ha : m_actions d !! Z.to_nat index
                 = Some (make_action (kr_endianess K) (kr_signed_mode K) u)).
    { simpl. change (map ?f ?l) with (f <$> l). now rewrite list_lookup_fmap, Hu. }
    simpl in Ha. rewrite Ha.
    destruct (invoke_spec (kr_endianess K) (kr_signed_mode K) u src
                (mk_io (getter_calls s + width_bytes (index_t d)) (putter_bytes s)))
      as (output & Hinv & Hlen & Hvoid).
    rewrite Hinv. simpl. split; [done |]. split; [| lia].
    intros _. eexists _, output. split; [reflexivity |]. simpl.
    repeat split; assumption.
  - simpl. split; [done |]. split; [lia | done].
Qed.

Example dispatch_add_little :
  dispatch (make_dispatcher (mk_keyring LITTLE TWOS_COMPLEMENT [add_u16]))
    (raw_at [0; 2; 0; 3; 0]%Z) (mk_io 0 [])
  = (0%Z, mk_io 5 [5; 0]%Z).
Proof. reflexivity. Qed.

Example dispatch_add_big :
  dispatch (make_dispatcher (mk_keyring BIG TWOS_COMPLEMENT [add_u16]))
    (raw_at [0; 0; 2; 0; 3]%Z) (mk_io 0 [])
  = (0%Z, mk_io 5 [0; 5]%Z).
Proof. reflexivity. Qed.

Example dispatch_swap :
  dispatch (make_dispatcher (mk_keyring LITTLE TWOS_COMPLEMENT [swap_u8_4]))
    (raw_at [0; 1; 2; 3; 4]%Z) (mk_io 0 [])
  = (0%Z, mk_io 5 [4; 3; 2; 1]%Z).
Proof. reflexivity. Qed.

Example dispatch_out_of_range :
  dispatch (make_dispatcher keyring_300) (raw_at [44; 1]%Z) (mk_io 0 [])
  = (300%Z, mk_io 2 []).
Proof. reflexivity. Qed.

Lemma dispatch_conservation_witness :
  let request k := nth k [0; 42]%Z 0%Z in
  let d := make_dispatcher keyring_id in
  ((get_index d request (mk_io 0 [])).1 < Z.of_nat (size d))%Z /\
  exists a output,
    m_actions d !! Z.to_nat (get_index d request (mk_io 0 [])).1 = Some a /\
    getter_calls (dispatch d request (mk_io 0 [])).2
    = 0 + width_bytes (index_t d) + input_size a /\
    putter_bytes (dispatch d request (mk_io 0 [])).2 = [] ++ output /\
    length output = output_size a /\
    (return_t (u_signature (a_callable a)) = None -> output = []).
Proof.
  split; [reflexivity |].
  apply (proj1 (proj2 (proj2
           (dispatch_conservation keyring_id (fun k => nth k [0; 42]%Z 0%Z) (mk_io 0 []))))).
  reflexivity.
Defined.

(** ** Buffer sizes *)

Lemma needed_input_buffer_size_spec K :
  needed_input_buffer_size K
  = width_bytes (keyring_index_t K)
    + detail_max (map input_size (m_actions (make_dispatcher K))).
Proof.
  unfold needed_input_buffer_size, map_parameters_size, signatures_t. simpl.
  rewrite !map_map. simpl. lia.
Qed.

Lemma buffer_size_spec K :
  buffer_size K = Nat.max (needed_input_buffer_size K) (needed_output_buffer_size K).
Proof. reflexivity. Qed.

(** C4 (the code departs from it).  [needed_output_buffer_size] is computed
    from the parameters of the signatures, as [needed_input_buffer_size] is,
    and not from their return types: for the keyring of [u32 widen(u8)] it is
    1 where the response takes 4 bytes, and the single buffer has 2 bytes. *)
Theorem needed_output_buffer_size_of_parameters :
  (forall K, needed_output_buffer_size K
             = detail_max (map input_size (m_actions (make_dispatcher K)))) /\
  needed_output_buffer_size keyring_widen = 1 /\
  detail_max (map output_size (m_actions (make_dispatcher keyring_widen))) = 4 /\
  detail_max (map_return_type_size (signatures_t keyring_widen)) = 4 /\
  needed_input_buffer_size keyring_widen = 2 /\
  buffer_size keyring_widen = 2.
Proof.
  split; [| repeat split; reflexivity].
  intros K. unfold needed_output_buffer_size, map_parameters_size, signatures_t. simpl.
  now rewrite !map_map.
Qed.

(** ** The output side of the buffered dispatcher *)

Section buffered_output.
Import buffered_undispatcher.

Lemma with_obuf_next_same bd : with_obuf_next bd (m_obuf_next bd) = bd.
Proof. now destruct bd. Qed.

Lemma is_loaded_iff bd : is_loaded bd = true <-> m_obuf_next bd <> m_obuf_bottom bd.
Proof.
  unfold is_loaded. rewrite negb_true_iff. split.
  - intros H. now apply Z.eqb_neq.
  - intros H. now apply Z.eqb_neq.
Qed.

Lemma get_loaded bd :
  (0 <= m_obuf_next bd < m_obuf_bottom bd)%Z -> (m_obuf_bottom bd < 2 ^ size_bits)%Z ->
  get bd = (raw_at (obuf (m_buffers bd)) (Z.to_nat (m_obuf_next bd)),
            with_obuf_next bd (m_obuf_next bd + 1)).
Proof.
  intros Hlt Hmax. unfold get.
  replace (is_loaded bd) with true by (symmetry; apply is_loaded_iff; lia).
  unfold wrap. unfold size_bits in *. now rewrite Z.mod_small by lia.
Qed.

Lemma get_not_loaded bd : m_obuf_next bd = m_obuf_bottom bd -> get bd = (0%Z, bd).
Proof.
  intros Heq. unfold get, is_loaded. now rewrite Heq, Z.eqb_refl.
Qed.

Lemma write_to_spec fuel : forall bd,
  (0 <= m_obuf_next bd <= m_obuf_bottom bd)%Z -> (m_obuf_bottom bd < 2 ^ size_bits)%Z ->
  Z.to_nat (m_obuf_bottom bd - m_obuf_next bd) <= fuel ->
  write_to fuel bd
  = Some (map (raw_at (obuf (m_buffers bd)))
            (seq (Z.to_nat (m_obuf_next bd))
                 (Z.to_nat (m_obuf_bottom bd - m_obuf_next bd))),
          with_obuf_next bd (m_obuf_bottom bd)).
Proof.
  induction fuel as [| fuel IH]; intros bd Hle Hmax Hfuel.
  - assert (Heq : m_obuf_next bd = m_obuf_bottom bd) by lia.
    simpl. unfold is_loaded. rewrite Heq, Z.eqb_refl, Z.sub_diag. simpl.
    now rewrite <- Heq, with_obuf_next_same.
  - simpl. destruct (is_loaded bd) eqn:Hloaded.
    + apply is_loaded_iff in Hloaded.
      rewrite get_loaded by lia.
      rewrite IH by (simpl; lia). simpl.
      replace (Z.to_nat (m_obuf_bottom bd - m_obuf_next bd))
        with (S (Z.to_nat (m_obuf_bottom bd - (m_obuf_next bd + 1)))) by lia.
      simpl. replace (Z.to_nat (m_obuf_next bd + 1)) with (S (Z.to_nat (m_obuf_next bd))) by lia.
      reflexivity.
    + apply not_true_iff_false in Hloaded. rewrite is_loaded_iff in Hloaded.
      assert (Heq : m_obuf_next bd = m_obuf_bottom bd) by lia.
      rewrite Heq, Z.sub_diag. simpl. now rewrite <- Heq, with_obuf_next_same.
Qed.

Lemma store_seq_spec bytes : forall buf i,
  i + length bytes <= length buf ->
  store_seq buf i bytes = take i buf ++ bytes ++ drop (i + length bytes) buf.
Proof.
  induction bytes as [| byte rest IH]; intros buf i Hlen; simpl in *.
  - rewrite Nat.add_0_r. now rewrite take_drop.
  - rewrite IH by (rewrite length_insert; lia).
    rewrite (take_S_r _ _ byte) by (apply list_lookup_insert_eq; lia).
    rewrite take_insert_ge by lia. rewrite drop_insert_lt by lia.
    rewrite <- app_assoc. simpl. do 4 f_equal. lia.
Qed.

(** C8. [get] returns [obuf[obuf_next]] and increments [obuf_next] when
    [obuf_next < obuf_bottom]; when the output buffer is empty it returns a
    byte (zero) and changes nothing; [is_loaded] is true exactly when
    [obuf_next != obuf_bottom]. *)
Theorem get_spec (bd : t) :
  (0 <= m_obuf_next bd)%Z -> (m_obuf_bottom bd < 2 ^ size_bits)%Z ->
  (is_loaded bd = true <-> m_obuf_next bd <> m_obuf_bottom bd) /\
  ((m_obuf_next bd < m_obuf_bottom bd)%Z ->
     (get bd).1 = raw_at (obuf (m_buffers bd)) (Z.to_nat (m_obuf_next bd)) /\
     m_obuf_next (get bd).2 = (m_obuf_next bd + 1)%Z /\
     (get bd).2 = with_obuf_next bd (m_obuf_next bd + 1)) /\
  (m_obuf_next bd = m_obuf_bottom bd -> get bd = (0%Z, bd)).
Proof.
  intros Hnext Hbottom. split; [apply is_loaded_iff |]. split.
  - intros Hlt. rewrite get_loaded by lia. now simpl.
  - apply get_not_loaded.
Qed.

Lemma get_spec_witness :
  let bd := mk (make_dispatcher keyring_id) false 1 0 0 1 (double_buffer [0; 0] [42])%Z in
  (0 <= m_obuf_next bd)%Z /\ (m_obuf_bottom bd < 2 ^ size_bits)%Z /\
  (m_obuf_next bd < m_obuf_bottom bd)%Z /\
  (get bd).1 = 42%Z /\ m_obuf_next (get bd).2 = 1%Z.
Proof.
  split; [reflexivity |]. split; [reflexivity |]. split; [reflexivity |].
  pose proof (proj1 (proj2
    (get_spec (mk (make_dispatcher keyring_id) false 1 0 0 1 (double_buffer [0; 0] [42])%Z)
       ltac:(simpl; lia) eq_refl)) eq_refl) as H.
  split; [exact (proj1 H) | exact (proj1 (proj2 H))].
Defined.

(** C10. With the output buffer empty ([obuf_next == obuf_bottom]), [get]
    returns [byte_t{}], zero, and leaves the whole dispatcher as it is, so
    that any number of such calls changes nothing for what follows. *)
Theorem get_empty (bd : t) :
  m_obuf_next bd = m_obuf_bottom bd ->
  get bd = (0%Z, bd) /\
  (forall n, get_n n bd = bd) /\
  (forall n fuel, write_to fuel (get_n n bd) = write_to fuel bd) /\
  (forall n byte, put byte (get_n n bd) = put byte bd).
Proof.
  intros Heq.
  assert (Hn : forall n, get_n n bd = bd).
  { induction n as [| n IH]; [done |].
    unfold get_n in *. simpl. rewrite IH. now rewrite get_not_loaded. }
  split; [now apply get_not_loaded |]. split; [exact Hn |].
  split; intros n ?; now rewrite Hn.
Qed.

Lemma get_empty_witness :
  let bd := mk (make_dispatcher keyring_id) false 1 0 1 1 (double_buffer [0; 0] [42])%Z in
  m_obuf_next bd = m_obuf_bottom bd /\ get bd = (0%Z, bd).
Proof.
  split; [reflexivity |].
  exact (proj1 (get_empty
    (mk (make_dispatcher keyring_id) false 1 0 1 1 (double_buffer [0; 0] [42])%Z) eq_refl)).
Defined.

(** C9. [reply] returns [false] and does nothing when the output buffer
    has been drained in part ([obuf_next != 0]) or holds more than the
    byte buffer of the key takes; otherwise it sends the request of the key
    with the staged bytes as the argument, the rest of the buffer of the key
    being as it was found, leaves the output buffer empty and returns
    [true]. *)
Theorem reply_spec (fuel : nat) (buf0 : list byte_t) (k : key) (bd : t) :
  let buf_size := payload_length k - width_bytes (key_index_t k) in
  ((m_obuf_next bd <> 0%Z \/ (Z.of_nat buf_size < m_obuf_bottom bd)%Z) ->
     reply fuel buf0 k bd = Some (false, bd, [])) /\
  (m_obuf_next bd = 0%Z ->
   (0 <= m_obuf_bottom bd <= Z.of_nat buf_size)%Z ->
   (m_obuf_bottom bd < 2 ^ size_bits)%Z ->
   length buf0 = buf_size ->
   Z.to_nat (m_obuf_bottom bd) <= fuel ->
   let staged := map (raw_at (obuf (m_buffers bd))) (seq 0 (Z.to_nat (m_obuf_bottom bd))) in
   let bd' := with_obuf_next bd (m_obuf_bottom bd) in
   reply fuel buf0 k bd
   = Some (true, bd',
           key_request k [v_array (map v_int (staged ++ drop (length staged) buf0))]) /\
   is_loaded bd' = false).
Proof.
  intros buf_size. split.
  - intros Hbad. unfold reply. fold buf_size.
    replace ((m_obuf_next bd =? 0)%Z && (m_obuf_bottom bd <=? Z.of_nat buf_size)%Z)
      with false; [done |].
    symmetry. apply andb_false_iff.
    destruct Hbad as [Hnext | Hbig]; [left; now apply Z.eqb_neq | right; now apply Z.leb_gt].
  - intros Hnext Hfit Hmax Hbuf Hfuel staged bd'. unfold reply. fold buf_size.
    replace ((m_obuf_next bd =? 0)%Z && (m_obuf_bottom bd <=? Z.of_nat buf_size)%Z)
      with true
      by (symmetry; apply andb_true_iff; split; [apply Z.eqb_eq | apply Z.leb_le]; lia).
    simpl. rewrite write_to_spec by (rewrite ?Hnext; lia).
    rewrite Hnext, Z.sub_0_r. simpl Z.to_nat. fold staged.
    rewrite store_seq_spec
      by (unfold staged; rewrite length_map, length_seq; lia).
    simpl. split; [reflexivity |].
    unfold is_loaded, bd'. simpl. now rewrite Z.eqb_refl.
Qed.

End buffered_output.

Lemma reply_spec_witness :
  let k := mk_key 3 W8 [t_array (t_unsigned W8) 2] LITTLE TWOS_COMPLEMENT in
  let bd := buffered_undispatcher.mk (make_dispatcher keyring_id) false 1 0 0 2
              (double_buffer [0; 0] [7; 9])%Z in
  buffered_undispatcher.m_obuf_next bd = 0%Z /\
  (0 <= buffered_undispatcher.m_obuf_bottom bd
     <= Z.of_nat (payload_length k - width_bytes (key_index_t k)))%Z /\
  buffered_undispatcher.reply 2 [0; 0]%Z k bd
  = Some (true, buffered_undispatcher.with_obuf_next bd 2, [3; 7; 9]%Z).
Proof.
  split; [reflexivity |]. split; [simpl; lia |].
  exact (proj1 (proj2 (reply_spec 2 [0; 0]%Z
    (mk_key 3 W8 [t_array (t_unsigned W8) 2] LITTLE TWOS_COMPLEMENT)
    (buffered_undispatcher.mk (make_dispatcher keyring_id) false 1 0 0 2
       (double_buffer [0; 0] [7; 9])%Z))
    eq_refl ltac:(simpl; lia) eq_refl eq_refl ltac:(simpl; lia))).
Defined.

Example reply_partly_drained :
  buffered_undispatcher.reply 2 [0; 0]%Z
    (mk_key 3 W8 [t_array (t_unsigned W8) 2] LITTLE TWOS_COMPLEMENT)
    (buffered_undispatcher.mk (make_dispatcher keyring_id) false 1 0 1 2
       (double_buffer [0; 0] [7; 9])%Z)
  = Some (false,
          buffered_undispatcher.mk (make_dispatcher keyring_id) false 1 0 1 2
            (double_buffer [0; 0] [7; 9])%Z,
          []).
Proof. reflexivity. Qed.

(** ** The input side of the buffered dispatcher *)

Section buffered_input.
Import buffered_undispatcher.

Lemma put_frame byte bd :
  m_dispatcher (put byte bd).2 = m_dispatcher bd /\
  m_obuf_next (put byte bd).2 = m_obuf_next bd /\
  m_obuf_bottom (put byte bd).2 = m_obuf_bottom bd /\
  m_buffers (put byte bd).2 = ibuf_store (m_buffers bd) (Z.to_nat (m_ibuf_next bd)) byte.
Proof.
  unfold put.
  repeat match goal with
         | |- context [if ?c then _ else _] => destruct c
         end; simpl; auto.
Qed.

Lemma obuf_ibuf_store bufs i byte :
  length (obuf (ibuf_store bufs i byte)) = length (obuf bufs) /\
  (forall m_ibuf m_obuf, bufs = double_buffer m_ibuf m_obuf ->
     obuf (ibuf_store bufs i byte) = m_obuf) /\
  (forall j, j <> i -> obuf (ibuf_store bufs i byte) !! j = obuf bufs !! j).
Proof.
  destruct bufs as [m_buf | m_ibuf m_obuf]; simpl.
  - split; [apply length_insert |]. split; [done |].
    intros j Hj. now apply list_lookup_insert_ne.
  - split; [done |]. split; [congruence | done].
Qed.

(** C7.  When the byte given to [put] completes an index that is not below
    the number of actions, [put] returns [DROPPED_PACKET] and leaves
    [index_loaded = false], [load_count = sizeof(index_t)], [ibuf_next = 0],
    as in a fresh dispatcher, and [obuf_next] and [obuf_bottom] as they
    were.  The content of the output buffer, the bytes staged between
    [obuf_next] and [obuf_bottom], is untouched: with two buffers always,
    and with the one shared buffer when [put] is called as that
    configuration allows, with nothing left to drain, which is so in every
    state reached from a fresh dispatcher by [put].  As for the arrays, the
    output array of a double-buffered dispatcher is untouched, and the
    shared array of a single-buffered one has taken the byte at [ibuf_next],
    as its input buffer, and is otherwise untouched. *)
Theorem put_dropped (byte : byte_t) (bd : t) :
  m_is_index_loaded bd = false ->
  m_load_count bd = 1%Z ->
  (Z.of_nat (size (m_dispatcher bd))
   <= index_in_ibuf (m_dispatcher bd)
        (ibuf_store (m_buffers bd) (Z.to_nat (m_ibuf_next bd)) byte))%Z ->
  let bd' := (put byte bd).2 in
  (put byte bd).1 = DROPPED_PACKET /\
  bd' = mk (m_dispatcher bd) false (sizeof_index_t (m_dispatcher bd)) 0
           (m_obuf_next bd) (m_obuf_bottom bd)
           (ibuf_store (m_buffers bd) (Z.to_nat (m_ibuf_next bd)) byte) /\
  (forall K bufs,
     m_dispatcher bd = make_dispatcher K ->
     m_is_index_loaded bd' = m_is_index_loaded (construct K bufs) /\
     m_load_count bd' = m_load_count (construct K bufs) /\
     m_ibuf_next bd' = m_ibuf_next (construct K bufs)) /\
  m_obuf_next bd' = m_obuf_next bd /\
  m_obuf_bottom bd' = m_obuf_bottom bd /\
  length (obuf (m_buffers bd')) = length (obuf (m_buffers bd)) /\
  (forall m_ibuf m_obuf,
     m_buffers bd = double_buffer m_ibuf m_obuf ->
     obuf (m_buffers bd') = m_obuf /\ staged_response bd' = staged_response bd) /\
  (forall j, j <> Z.to_nat (m_ibuf_next bd) ->
     obuf (m_buffers bd') !! j = obuf (m_buffers bd) !! j) /\
  (is_loaded bd = false -> staged_response bd' = staged_response bd) /\
  (forall K, reached K bd -> staged_response bd' = staged_response bd).
Proof.
  intros Hidle Hcount Hindex bd'.
  assert (Hput : put byte bd
                 = (DROPPED_PACKET,
                    mk (m_dispatcher bd) false (sizeof_index_t (m_dispatcher bd)) 0
                       (m_obuf_next bd) (m_obuf_bottom bd)
                       (ibuf_store (m_buffers bd) (Z.to_nat (m_ibuf_next bd)) byte))).
  { unfold put. rewrite Hidle, Hcount. simpl.
    apply Z.ltb_ge in Hindex. now rewrite Hindex. }
  subst bd'. rewrite Hput. simpl.
  destruct (obuf_ibuf_store (m_buffers bd) (Z.to_nat (m_ibuf_next bd)) byte)
    as (Hlen & Hdouble & Hother).
  assert (Hdrained : is_loaded bd = false ->
            staged_response
              (mk (m_dispatcher bd) false (sizeof_index_t (m_dispatcher bd)) 0
                 (m_obuf_next bd) (m_obuf_bottom bd)
                 (ibuf_store (m_buffers bd) (Z.to_nat (m_ibuf_next bd)) byte))
            = staged_response bd).
  { intros Hempty. unfold is_loaded in Hempty.
    apply negb_false_iff, Z.eqb_eq in Hempty.
    unfold staged_response. simpl. now rewrite Hempty, Z.sub_diag. }
  split; [done |]. split; [done |].
  split; [intros K bufs ->; repeat split; reflexivity |].
  split; [done |]. split; [done |]. split; [done |].
  split; [| split; [done |]; split; [done |]].
  - intros m_ibuf m_obuf Hbufs. split; [now apply (Hdouble m_ibuf) |].
    unfold staged_response. simpl. now rewrite Hbufs.
  - intros K (_ & _ & Hnext & Hbottom & _). apply Hdrained.
    unfold is_loaded. now rewrite Hnext, Hbottom.
Qed.

Lemma put_dropped_witness :
  let bd := put_all [0; 42]%Z (construct keyring_id (single_buffer [0; 0])%Z) in
  m_is_index_loaded bd = false /\
  m_load_count bd = 1%Z /\
  (Z.of_nat (size (m_dispatcher bd))
   <= index_in_ibuf (m_dispatcher bd)
        (ibuf_store (m_buffers bd) (Z.to_nat (m_ibuf_next bd)) 5))%Z /\
  is_loaded bd = false /\
  (put 5 bd).1 = DROPPED_PACKET /\
  staged_response (put 5 bd).2 = staged_response bd.
Proof.
  split; [reflexivity |]. split; [reflexivity |].
  split; [apply Z.leb_le; reflexivity |]. split; [reflexivity |].
  pose proof (put_dropped 5
                (put_all [0; 42]%Z (construct keyring_id (single_buffer [0; 0])%Z))
                eq_refl eq_refl ltac:(apply Z.leb_le; reflexivity))
    as (Hstatus & _ & _ & _ & _ & _ & _ & _ & Hstaged & _).
  split; [exact Hstatus | exact (Hstaged eq_refl)].
Defined.

Example wide_index_dropped :
  let fresh := construct keyring_300 (double_buffer [0; 0]%Z []) in
  (put 44 fresh).1 = LOADING_PACKET /\
  (put 1 (put 44 fresh).2).1 = DROPPED_PACKET /\
  index_in_ibuf (make_dispatcher keyring_300)
    (m_buffers (put 1 (put 44 fresh).2).2) = 300%Z.
Proof. repeat split; reflexivity. Qed.

End buffered_input.

(** ** The invariants of the state machine *)

Section buffered_invariants.
Import buffered_undispatcher.

Lemma index_in_ibuf_store d bufs i byte :
  width_bytes (index_t d) <= i ->
  index_in_ibuf d (ibuf_store bufs i byte) = index_in_ibuf d bufs.
Proof.
  intros Hi. unfold index_in_ibuf, get_index, io_bind, io_ret.
  rewrite !fill_spec. simpl.
  apply interpret_with_endianess_ext. intros j Hj.
  change (tuple.offset [t_unsigned (index_t d)] 0) with 0 in Hj.
  change (tuple.size [t_unsigned (index_t d)]) with (0 + width_bytes (index_t d)).
  change (map ?f ?l) with (f <$> l).
  rewrite !list_lookup_fmap, lookup_seq_lt by lia. simpl.
  unfold raw_at. destruct bufs; simpl; now rewrite list_lookup_insert_ne by lia.
Qed.

Lemma detail_max_ge (sizes : list nat) i x :
  sizes !! i = Some x -> x <= detail_max sizes.
Proof.
  revert i. induction sizes as [| y sizes IH]; intros [| i] H; simpl in *; try done.
  - injection H as ->. lia.
  - specialize (IH _ H). lia.
Qed.

Lemma input_size_at_bound K index :
  (0 <= index < Z.of_nat (keyring_size K))%Z ->
  (0 <= input_size_at (make_dispatcher K) index)%Z /\
  (Z.of_nat (width_bytes (keyring_index_t K)) + input_size_at (make_dispatcher K) index
   <= Z.of_nat (needed_input_buffer_size K))%Z.
Proof.
  intros Hindex. unfold input_size_at, needed_input_buffer_size. simpl.
  change (map ?f ?l) with (f <$> l). rewrite list_lookup_fmap.
  destruct (flist_t K !! Z.to_nat index) as [u |] eqn:Hu; simpl; [| lia].
  assert (Hmax : parameters_size (u_signature u)
                 <= detail_max (map_parameters_size (signatures_t K))).
  { apply (detail_max_ge _ (Z.to_nat index)).
    unfold map_parameters_size, signatures_t.
    change (map ?f ?l) with (f <$> l). now rewrite !list_lookup_fmap, Hu. }
  unfold input_size. simpl. lia.
Qed.

Lemma reached_construct K bufs :
  well_sized K bufs -> reached K (construct K bufs).
Proof.
  intros Hsized. unfold reached, construct. simpl.
  split; [done |]. split.
  - destruct bufs as [m_buf | m_ibuf m_obuf]; simpl in *.
    + rewrite Hsized. unfold buffer_size, max_p. lia.
    + destruct Hsized as [-> _]. unfold input_buffer_size. lia.
  - unfold sizeof_index_t. pose proof (width_bytes_pos (index_t (make_dispatcher K))).
    repeat split; lia.
Qed.

Lemma ibuf_ibuf_store bufs i byte :
  length (ibuf (ibuf_store bufs i byte)) = length (ibuf bufs).
Proof. destruct bufs; simpl; apply length_insert. Qed.

Lemma reached_put K byte bd :
  (Z.of_nat (needed_input_buffer_size K) < 2 ^ size_bits)%Z ->
  reached K bd -> reached K (put byte bd).2.
Proof.
  unfold size_bits. destruct bd as [d loaded count inext onext obottom bufs].
  unfold reached. simpl.
  intros Hfit (-> & Hlen & -> & -> & Hcount & Hstate).
  pose proof (width_bytes_pos (keyring_index_t K)) as Hw.
  assert (Hneeded : width_bytes (keyring_index_t K) <= needed_input_buffer_size K)
    by (unfold needed_input_buffer_size; lia).
  unfold put, wrap, size_bits, sizeof_index_t, index_t, size in *. simpl in *.
  destruct loaded.
  - destruct Hstate as (Hindex & Hpast & Hsum).
    destruct (input_size_at_bound K _ Hindex) as [Hb1 Hb2].
    rewrite !Z.mod_small by lia.
    destruct (Z.gtb_spec (count - 1) 0) as [Hmore | Hdone]; simpl.
    + rewrite ibuf_ibuf_store.
      rewrite index_in_ibuf_store by (unfold index_t; simpl; lia).
      repeat split; lia || done.
    + rewrite ibuf_ibuf_store. repeat split; lia || done.
  - destruct Hstate as (Hpos & Hsum).
    rewrite !Z.mod_small by lia.
    destruct (Z.gtb_spec (count - 1) 0) as [Hmore | Hdone]; simpl.
    + rewrite ibuf_ibuf_store. repeat split; lia || done.
    + set (bufs' := ibuf_store bufs (Z.to_nat inext) byte).
      destruct (Z.ltb_spec (index_in_ibuf (make_dispatcher K) bufs')
                  (Z.of_nat (keyring_size K))) as [Hin | Hout].
      * assert (Hnonneg : (0 <= index_in_ibuf (make_dispatcher K) bufs')%Z).
        { unfold index_in_ibuf.
          destruct (get_index_spec (make_dispatcher K) (raw_at (ibuf bufs')) (mk_io 0 []))
            as (index & -> & Hrange). simpl. lia. }
        destruct (input_size_at_bound K (index_in_ibuf (make_dispatcher K) bufs')
                    ltac:(lia)) as [Hb1 Hb2].
        destruct (Z.eqb_spec (input_size_at (make_dispatcher K)
                                (index_in_ibuf (make_dispatcher K) bufs')) 0)
          as [Hzero | Hargs]; simpl.
        -- unfold bufs'. rewrite ibuf_ibuf_store. repeat split; lia || done.
        -- unfold bufs' at 1. rewrite ibuf_ibuf_store. repeat split; lia || done.
      * simpl. unfold bufs'. rewrite ibuf_ibuf_store. repeat split; lia || done.
Qed.

Lemma reached_put_all K bytes : forall bd,
  (Z.of_nat (needed_input_buffer_size K) < 2 ^ size_bits)%Z ->
  reached K bd -> reached K (put_all bytes bd).
Proof.
  induction bytes as [| byte bytes IH]; intros bd Hfit Hbd; [done |].
  simpl. apply IH; [done |]. now apply reached_put.
Qed.

Lemma reached_invariants K bd :
  reached K bd ->
  invariants bd /\ Z.to_nat (m_ibuf_next bd) < length (ibuf (m_buffers bd)).
Proof.
  destruct bd as [d loaded count inext onext obottom bufs].
  unfold reached, invariants, current_input_size. simpl.
  intros (-> & Hlen & -> & -> & Hcount & Hstate).
  assert (Hneeded : width_bytes (keyring_index_t K) <= needed_input_buffer_size K)
    by (unfold needed_input_buffer_size; lia).
  unfold sizeof_index_t, index_t, size in *. simpl in *.
  destruct loaded.
  - destruct Hstate as (Hindex & Hpast & Hsum).
    destruct (input_size_at_bound K _ Hindex) as [Hb1 Hb2].
    repeat split; try lia; try done.
  - destruct Hstate as (Hpos & Hsum).
    repeat split; try lia; try done.
Qed.

(** C6, as the code has it.  After every sequence of calls to [put] on a
    fresh dispatcher: [ibuf_next] is at most the size of the input buffer (and
    the next byte has its place in it), [obuf_next <= obuf_bottom] is at most
    the size of the output buffer, [load_count + ibuf_next] is
    [sizeof(index_t)] while the index is not loaded, and
    [sizeof(index_t) + input_size] of the designated action once it is. *)
Theorem put_all_invariants (K : keyring) (bufs : buffers) (bytes : list byte_t) :
  well_sized K bufs ->
  (Z.of_nat (needed_input_buffer_size K) < 2 ^ size_bits)%Z ->
  invariants (put_all bytes (construct K bufs)) /\
  Z.to_nat (m_ibuf_next (put_all bytes (construct K bufs)))
  < length (ibuf (m_buffers (put_all bytes (construct K bufs)))).
Proof.
  intros Hsized Hfit. apply (reached_invariants K).
  apply reached_put_all; [done |]. now apply reached_construct.
Qed.

Lemma put_all_invariants_witness :
  well_sized keyring_id (double_buffer [0; 0] [0])%Z /\
  (Z.of_nat (needed_input_buffer_size keyring_id) < 2 ^ size_bits)%Z /\
  invariants (put_all [0; 42; 0]%Z (construct keyring_id (double_buffer [0; 0] [0])%Z)).
Proof.
  split; [split; reflexivity |]. split; [reflexivity |].
  exact (proj1 (put_all_invariants keyring_id (double_buffer [0; 0] [0])%Z [0; 42; 0]%Z
                  (conj eq_refl eq_refl) eq_refl)).
Defined.

(** The statement of C6 with [load_count = sizeof(index_t)] whenever the
    index is not loaded fails between the two bytes of a 16-bit index. *)
Lemma put_all_load_count_not_fixed :
  let bufs := double_buffer [0; 0]%Z [] in
  well_sized keyring_300 bufs /\
  m_is_index_loaded (put_all [0%Z] (construct keyring_300 bufs)) = false /\
  m_load_count (put_all [0%Z] (construct keyring_300 bufs)) = 1%Z /\
  sizeof_index_t (m_dispatcher (put_all [0%Z] (construct keyring_300 bufs))) = 2%Z /\
  ~ invariants_load_count_fixed (put_all [0%Z] (construct keyring_300 bufs)).
Proof.
  split; [split; reflexivity |]. split; [reflexivity |].
  split; [reflexivity |]. split; [reflexivity |].
  intros (_ & _ & _ & Hidle & _). specialize (Hidle eq_refl). discriminate Hidle.
Qed.

(** C1 (the code departs from it).  [put] never writes [obuf_bottom] nor,
    with two buffers, the output buffer, and it invokes no action: on the
    keyring of [u8 id(u8)], after the request [00 2A] it has returned
    [RESOLVED_PACKET] with [obuf_bottom = 0] and the output buffer as it was,
    where the plain dispatcher gives [2A] to its putter and [read] of
    [k2o::buffered_dispatcher] stages [2A] with [obuf_bottom] one past it. *)
Theorem put_resolved_without_invoke :
  (forall byte bd,
     m_obuf_next (put byte bd).2 = m_obuf_next bd /\
     m_obuf_bottom (put byte bd).2 = m_obuf_bottom bd /\
     m_buffers (put byte bd).2
     = ibuf_store (m_buffers bd) (Z.to_nat (m_ibuf_next bd)) byte) /\
  (forall byte d loaded count ibuf_next obuf_next obuf_bottom m_ibuf m_obuf,
     obuf (m_buffers (put byte (mk d loaded count ibuf_next obuf_next obuf_bottom
                                   (double_buffer m_ibuf m_obuf))).2)
     = m_obuf) /\
  (let fresh := construct keyring_id (double_buffer [0; 0] [0])%Z in
   let first := put 0%Z fresh in
   let second := put 42%Z first.2 in
   first.1 = LOADING_PACKET /\
   second.1 = RESOLVED_PACKET /\
   m_obuf_bottom second.2 = 0%Z /\
   obuf (m_buffers second.2) = [0%Z] /\
   is_loaded second.2 = false /\
   write_to 1 second.2 = Some ([], second.2)) /\
  dispatch (make_dispatcher keyring_id) (raw_at [0; 42]%Z) (mk_io 0 [])
  = (0%Z, mk_io 2 [42%Z]) /\
  (let staged :=
     k2o.read_all_bytes [0; 42]%Z (k2o.construct keyring_id (double_buffer [0; 0] [0])%Z) in
   k2o.m_obuf_bottom staged = 1 /\
   obuf (k2o.m_buffers staged) = [42%Z] /\
   k2o.m_is_index_loaded staged = false /\
   k2o.m_ibuf_next staged = 0).
Proof.
  split; [| split; [| repeat split; reflexivity]].
  - intros byte bd. now destruct (put_frame byte bd) as (_ & Hnext & Hbottom & Hbufs).
  - intros. destruct (put_frame byte (mk d loaded count ibuf_next obuf_next obuf_bottom
                                        (double_buffer m_ibuf m_obuf)))
      as (_ & _ & _ & ->). reflexivity.
Qed.

End buffered_invariants.

(** * More of the interface *)

(** ** Draining the output buffer *)

Lemma write_to_short fuel : forall bd,
  (0 <= buffered_undispatcher.m_obuf_next bd <= buffered_undispatcher.m_obuf_bottom bd)%Z ->
  (buffered_undispatcher.m_obuf_bottom bd < 2 ^ size_bits)%Z ->
  fuel < Z.to_nat (buffered_undispatcher.m_obuf_bottom bd
                   - buffered_undispatcher.m_obuf_next bd) ->
  buffered_undispatcher.write_to fuel bd = None.
Proof.
  induction fuel as [| fuel IH]; intros bd Hle Hmax Hfuel; simpl.
  - replace (buffered_undispatcher.is_loaded bd) with true; [done |].
    symmetry. apply is_loaded_iff. lia.
  - replace (buffered_undispatcher.is_loaded bd) with true
      by (symmetry; apply is_loaded_iff; lia).
    rewrite get_loaded by lia. rewrite IH; [done | simpl; lia .. ].
Qed.

(** X1. [write_to] ends after exactly [obuf_bottom - obuf_next] turns: it
    gives [dest] the bytes of the output buffer from [obuf_next] up to
    [obuf_bottom], in order, and leaves the buffer empty with nothing else
    changed; with fewer turns the loop is still running. *)
Theorem write_to_drains (fuel : nat) (bd : buffered_undispatcher.t) :
  (0 <= buffered_undispatcher.m_obuf_next bd <= buffered_undispatcher.m_obuf_bottom bd)%Z ->
  (buffered_undispatcher.m_obuf_bottom bd < 2 ^ size_bits)%Z ->
  let n := Z.to_nat (buffered_undispatcher.m_obuf_bottom bd
                     - buffered_undispatcher.m_obuf_next bd) in
  let staged :=
    map (raw_at (obuf (buffered_undispatcher.m_buffers bd)))
      (seq (Z.to_nat (buffered_undispatcher.m_obuf_next bd)) n) in
  let drained :=
    buffered_undispatcher.with_obuf_next bd (buffered_undispatcher.m_obuf_bottom bd) in
  (n <= fuel ->
   buffered_undispatcher.write_to fuel bd = Some (staged, drained) /\
   buffered_undispatcher.is_loaded drained = false /\
   buffered_undispatcher.get_n n bd = drained) /\
  (fuel < n -> buffered_undispatcher.write_to fuel bd = None).
Proof.
  intros Hle Hmax n staged drained. split.
  - intros Hfuel. split; [now apply write_to_spec |].
    split.
    + unfold buffered_undispatcher.is_loaded. simpl. now rewrite Z.eqb_refl.
    + subst n staged drained. clear Hfuel.
      remember (Z.to_nat (buffered_undispatcher.m_obuf_bottom bd
                          - buffered_undispatcher.m_obuf_next bd)) as n eqn:Hn.
      revert bd Hle Hmax Hn. induction n as [| n IH]; intros bd Hle Hmax Hn.
      * simpl. rewrite <- (with_obuf_next_same bd) at 1. f_equal. lia.
      * unfold buffered_undispatcher.get_n in *.
        rewrite Nat.iter_succ_r. rewrite get_loaded by lia. simpl.
        rewrite IH by (simpl; lia). reflexivity.
  - now apply write_to_short.
Qed.

Lemma write_to_drains_witness :
  let bd := buffered_undispatcher.mk (make_dispatcher keyring_id) false 1 0 1 3
              (double_buffer [0; 0] [7; 8; 9])%Z in
  (0 <= buffered_undispatcher.m_obuf_next bd <= buffered_undispatcher.m_obuf_bottom bd)%Z /\
  (buffered_undispatcher.m_obuf_bottom bd < 2 ^ size_bits)%Z /\
  buffered_undispatcher.write_to 2 bd
  = Some ([8; 9]%Z, buffered_undispatcher.with_obuf_next bd 3).
Proof.
  split; [simpl; lia |]. split; [reflexivity |].
  exact (proj1 (proj1 (write_to_drains 2
    (buffered_undispatcher.mk (make_dispatcher keyring_id) false 1 0 1 3
       (double_buffer [0; 0] [7; 8; 9])%Z)
    ltac:(simpl; lia) eq_refl) ltac:(simpl; lia))).
Defined.

Lemma k2o_write_loaded bd :
  k2o.m_obuf_next bd < k2o.m_obuf_bottom bd ->
  k2o.write bd
  = ([raw_at (obuf (k2o.m_buffers bd)) (k2o.m_obuf_next bd)],
     k2o.mk (k2o.m_dispatcher bd) (k2o.m_is_index_loaded bd) (k2o.m_load_count bd)
       (k2o.m_ibuf_next bd) (S (k2o.m_obuf_next bd)) (k2o.m_obuf_bottom bd)
       (k2o.m_buffers bd)).
Proof.
  intros Hlt. unfold k2o.write, k2o.is_loaded.
  replace (k2o.m_obuf_next bd =? k2o.m_obuf_bottom bd) with false; [done |].
  symmetry. apply Nat.eqb_neq. lia.
Qed.

Lemma k2o_write_all_enough (fuel : nat) : forall bd,
  k2o.m_obuf_next bd <= k2o.m_obuf_bottom bd ->
  k2o.m_obuf_bottom bd - k2o.m_obuf_next bd <= fuel ->
  k2o.write_all fuel bd
  = Some (map (raw_at (obuf (k2o.m_buffers bd)))
            (seq (k2o.m_obuf_next bd) (k2o.m_obuf_bottom bd - k2o.m_obuf_next bd)),
          k2o.mk (k2o.m_dispatcher bd) (k2o.m_is_index_loaded bd) (k2o.m_load_count bd)
            (k2o.m_ibuf_next bd) (k2o.m_obuf_bottom bd) (k2o.m_obuf_bottom bd)
            (k2o.m_buffers bd)).
Proof.
  induction fuel as [| fuel IH]; intros bd Hle Hfuel.
  - assert (Heq : k2o.m_obuf_next bd = k2o.m_obuf_bottom bd) by lia.
    simpl. unfold k2o.is_loaded. rewrite Heq, Nat.eqb_refl, Nat.sub_diag. simpl.
    destruct bd; simpl in *; now subst.
  - simpl. destruct (k2o.is_loaded bd) eqn:Hloaded.
    + unfold k2o.is_loaded in Hloaded. apply negb_true_iff, Nat.eqb_neq in Hloaded.
      rewrite k2o_write_loaded by lia.
      rewrite IH by (simpl; lia). simpl.
      replace (k2o.m_obuf_bottom bd - k2o.m_obuf_next bd)
        with (S (k2o.m_obuf_bottom bd - S (k2o.m_obuf_next bd))) by lia.
      reflexivity.
    + unfold k2o.is_loaded in Hloaded. apply negb_false_iff, Nat.eqb_eq in Hloaded.
      rewrite Hloaded, Nat.sub_diag. simpl. destruct bd; simpl in *; now subst.
Qed.

(** X2. [write_all] of the k2o buffered dispatcher ends after exactly
    [obuf_bottom - obuf_next] turns, has given the bytes between the two
    iterators to its functor, in order, and leaves [obuf_next] on
    [obuf_bottom]; [write] on an empty output buffer gives nothing and
    changes nothing. *)
Theorem k2o_write_all_drains (fuel : nat) (bd : k2o.buffered_dispatcher) :
  k2o.m_obuf_next bd <= k2o.m_obuf_bottom bd ->
  let n := k2o.m_obuf_bottom bd - k2o.m_obuf_next bd in
  let drained :=
    k2o.mk (k2o.m_dispatcher bd) (k2o.m_is_index_loaded bd) (k2o.m_load_count bd)
      (k2o.m_ibuf_next bd) (k2o.m_obuf_bottom bd) (k2o.m_obuf_bottom bd)
      (k2o.m_buffers bd) in
  (n <= fuel ->
   k2o.write_all fuel bd
   = Some (map (raw_at (obuf (k2o.m_buffers bd))) (seq (k2o.m_obuf_next bd) n), drained)) /\
  (fuel < n -> k2o.write_all fuel bd = None) /\
  k2o.write drained = ([], drained).
Proof.
  intros Hle n drained. split; [| split].
  - subst n drained. now apply k2o_write_all_enough.
  - subst n. clear drained. revert bd Hle.
    induction fuel as [| fuel IH]; intros bd Hle Hfuel; simpl.
    + unfold k2o.is_loaded.
      replace (k2o.m_obuf_next bd =? k2o.m_obuf_bottom bd) with false; [done |].
      symmetry. apply Nat.eqb_neq. lia.
    + unfold k2o.is_loaded.
      replace (k2o.m_obuf_next bd =? k2o.m_obuf_bottom bd) with false
        by (symmetry; apply Nat.eqb_neq; lia).
      simpl. rewrite k2o_write_loaded by lia. rewrite IH; [done | simpl; lia ..].
  - unfold k2o.write, k2o.is_loaded, drained. simpl. now rewrite Nat.eqb_refl.
Qed.

Lemma k2o_write_all_drains_witness :
  let bd := k2o.mk (make_dispatcher keyring_id) false 1 0 1 3
              (double_buffer [0; 0] [7; 8; 9])%Z in
  k2o.m_obuf_next bd <= k2o.m_obuf_bottom bd /\
  k2o.write_all 2 bd
  = Some ([8; 9]%Z,
          k2o.mk (make_dispatcher keyring_id) false 1 0 3 3
            (double_buffer [0; 0] [7; 8; 9])%Z).
Proof.
  split; [simpl; lia |].
  exact (proj1 (k2o_write_all_drains 2
    (k2o.mk (make_dispatcher keyring_id) false 1 0 1 3
       (double_buffer [0; 0] [7; 8; 9])%Z)
    ltac:(simpl; lia)) ltac:(simpl; lia)).
Defined.

(** ** The plain dispatcher: [get_action], [replace], and the index of k2o *)

Lemma make_dispatcher_lookup K index :
  m_actions (make_dispatcher K) !! index
  = make_action (kr_endianess K) (kr_signed_mode K) <$> (flist_t K !! index).
Proof. simpl. change (map ?f ?l) with (f <$> l). apply list_lookup_fmap. Qed.

(** X3. [get_action] reads exactly [sizeof(index_t)] bytes and gives nothing
    to a putter; it returns the action at the decoded index exactly when the
    index is below [size], [nullptr] otherwise; and [operator()] is
    [get_action] followed by the invocation of the action it returns. *)
Theorem get_action_spec (K : keyring) (src : getter) (s : io_state) :
  let d := make_dispatcher K in
  let index := (get_index d src s).1 in
  let found := get_action d src s in
  found.2 = mk_io (getter_calls s + width_bytes (index_t d)) (putter_bytes s) /\
  ((index < Z.of_nat (size d))%Z ->
     exists u, flist_t K !! Z.to_nat index = Some u /\
               found.1 = Some (make_action (kr_endianess K) (kr_signed_mode K) u)) /\
  ((Z.of_nat (size d) <= index)%Z -> found.1 = None) /\
  dispatch d src s
  = (index, match found.1 with
            | Some a => (invoke a src found.2).2
            | None => found.2
            end).
Proof.
  intros d index found. subst index found.
  destruct (get_index_spec d src s) as (index & Hget & Hrange).
  unfold get_action, dispatch, io_bind, io_ret. rewrite Hget. simpl.
  split; [done |].
  destruct (Z.ltb_spec index (Z.of_nat (size d))) as [Hin | Hout].
  - assert (Hlt : Z.to_nat index < length (flist_t K))
      by (unfold size, keyring_size in Hin; simpl in Hin; lia).
    destruct (lookup_lt_is_Some_2 _ _ Hlt) as [u Hu].
    change (map ?f ?l) with (f <$> l). rewrite list_lookup_fmap, Hu. simpl.
    split; [intros _; now exists u |]. split; [lia |].
    now destruct (invoke _ src _).
  - split; [lia |]. split; done.
Qed.

Lemma get_action_spec_witness :
  let d := make_dispatcher keyring_id in
  let request := raw_at [0; 42]%Z in
  ((get_index d request (mk_io 0 [])).1 < Z.of_nat (size d))%Z /\
  exists u, flist_t keyring_id !! Z.to_nat (get_index d request (mk_io 0 [])).1 = Some u /\
            (get_action d request (mk_io 0 [])).1
            = Some (make_action LITTLE TWOS_COMPLEMENT u).
Proof.
  split; [reflexivity |].
  exact (proj1 (proj2 (get_action_spec keyring_id (raw_at [0; 42]%Z) (mk_io 0 []))) eq_refl).
Defined.

Lemma width_eqb_eq a b : width_eqb a b = true <-> a = b.
Proof. destruct a, b; simpl; split; congruence. Qed.

Lemma type_eqb_eq a : forall b, type_eqb a b = true <-> a = b.
Proof.
  induction a as [w | w | elt IH len]; intros [w' | w' | elt' len']; simpl;
    try (split; congruence).
  - rewrite width_eqb_eq. split; congruence.
  - rewrite width_eqb_eq. split; congruence.
  - rewrite andb_true_iff, IH, Nat.eqb_eq. split; [intros [-> ->]; done | intros [= -> ->]; done].
Qed.

Lemma types_eqb_eq a : forall b, types_eqb a b = true <-> a = b.
Proof.
  induction a as [| T a IH]; intros [| T' b]; simpl; try (split; congruence).
  rewrite andb_true_iff, type_eqb_eq, IH. split; [intros [-> ->]; done | intros [= -> ->]; done].
Qed.

Lemma signature_eqb_eq a b : signature_eqb a b = true <-> a = b.
Proof.
  destruct a as [pa ra], b as [pb rb]. unfold signature_eqb. simpl.
  rewrite andb_true_iff, types_eqb_eq.
  destruct ra as [ra |], rb as [rb |]; rewrite ?type_eqb_eq;
    split; try (intros [-> ?]; congruence); try (intros [= -> ?]; split; congruence);
    try (intros [= -> ]; split; congruence).
Qed.

(** X4. [replace<Index>] is accepted exactly when the dispatcher has the
    overload for the callback (always for a callback with static storage
    duration, only with [action_features::ANY] for a callback of any kind)
    and the callable has the signature the keyring gives to [Index]; it then
    changes the action at [Index] to the one of the callable and no other,
    and every action keeps its [input_size] and [output_size], so that the
    dispatcher still has an action of the signature of the keyring at every
    index. *)
Theorem replace_spec (K : keyring) (Action_Features : action_features) (Index : nat)
    (ftor : callback) :
  let d := make_dispatcher K in
  let u := callback_callable ftor in
  (replace_enabled Action_Features ftor = true ->
   signatures_t K !! Index = Some (u_signature u) ->
   exists d',
     replace Action_Features Index ftor d = Some d' /\
     keyring_t d' = K /\
     m_actions d' !! Index
     = Some (make_action (kr_endianess K) (kr_signed_mode K) u) /\
     (forall J, J <> Index -> m_actions d' !! J = m_actions d !! J) /\
     map (fun a => u_signature (a_callable a)) (m_actions d') = signatures_t K /\
     map input_size (m_actions d') = map input_size (m_actions d) /\
     map output_size (m_actions d') = map output_size (m_actions d)) /\
  (signatures_t K !! Index <> Some (u_signature u) ->
   replace Action_Features Index ftor d = None) /\
  (replace_enabled Action_Features ftor = false ->
   replace Action_Features Index ftor d = None) /\
  (replace_enabled Action_Features ftor = false <->
   Action_Features = WEAK_REFERENCE /\ ftor = any_kind u).
Proof.
  intros d u. unfold replace.
  split; [| split; [| split]].
  - intros -> Hsig. simpl. fold u. rewrite Hsig.
    pose proof Hsig as Hold. unfold signatures_t in Hold.
    change (map ?f ?l) with (f <$> l) in Hold. rewrite list_lookup_fmap in Hold.
    destruct (flist_t K !! Index) as [old |] eqn:Hlookup; [| discriminate].
    pose proof (lookup_lt_Some _ _ _ Hlookup) as Hlt.
    replace (Index <? size d) with true
      by (symmetry; apply Nat.ltb_lt; unfold size, keyring_size; simpl; lia).
    replace (signature_eqb (u_signature u) (u_signature u)) with true
      by (symmetry; now apply signature_eqb_eq).
    eexists. split; [reflexivity |]. simpl. split; [done |].
    split; [apply list_lookup_insert_eq; rewrite length_map; lia |].
    split; [intros J HJ; now apply list_lookup_insert_ne |].
    unfold signatures_t. change (map ?f ?l) with (f <$> l).
    change (map (make_action (kr_endianess K) (kr_signed_mode K)) (flist_t K))
      with (make_action (kr_endianess K) (kr_signed_mode K) <$> flist_t K).
    change (map u_signature (flist_t K)) with (u_signature <$> flist_t K).
    assert (Hins : <[Index := make_action (kr_endianess K) (kr_signed_mode K) u]>
                     (make_action (kr_endianess K) (kr_signed_mode K) <$> flist_t K)
                   = make_action (kr_endianess K) (kr_signed_mode K)
                       <$> (<[Index := u]> (flist_t K))).
    { symmetry. apply list_fmap_insert. }
    rewrite Hins. rewrite <- !list_fmap_compose.
    assert (Hsame : forall {A : Type} (f : unevaluated -> A),
              f old = f u ->
              f <$> <[Index := u]> (flist_t K) = f <$> flist_t K).
    { intros A f Hf. rewrite list_fmap_insert. apply list_insert_id.
      rewrite list_lookup_fmap, Hlookup. simpl. now f_equal. }
    simpl in Hold. injection Hold as Hold.
    repeat split.
    + apply (Hsame _ (fun v => u_signature v)). exact Hold.
    + apply (Hsame _ (fun v => parameters_size (u_signature v))). now rewrite Hold.
    + apply (Hsame _ (fun v => return_type_size (u_signature v))). now rewrite Hold.
  - intros Hne. destruct (replace_enabled Action_Features ftor); [| done].
    simpl. fold u.
    destruct (signatures_t K !! Index) as [sig |] eqn:Hsig; [| done].
    replace (signature_eqb sig (u_signature u)) with false;
      [now rewrite andb_false_r |].
    symmetry. apply not_true_iff_false. rewrite signature_eqb_eq. congruence.
  - now intros ->.
  - subst u. destruct ftor as [v | v], Action_Features; simpl;
      (split; [intros Hdisabled | intros [Hfeatures Hftor]]);
      try discriminate; now split.
Qed.

Lemma replace_spec_witness :
  replace_enabled ANY (any_kind id_u8) = true /\
  signatures_t keyring_id !! 0 = Some (u_signature id_u8) /\
  (exists d',
     replace ANY 0 (any_kind id_u8) (make_dispatcher keyring_id) = Some d' /\
     keyring_t d' = keyring_id) /\
  replace WEAK_REFERENCE 0 (any_kind id_u8) (make_dispatcher keyring_id) = None.
Proof.
  split; [reflexivity |]. split; [reflexivity |]. split.
  - destruct (proj1 (replace_spec keyring_id ANY 0 (any_kind id_u8)) eq_refl eq_refl)
      as (d' & Hd' & HK & _).
    exists d'. split; assumption.
  - reflexivity.
Defined.

(** The index the k2o dispatcher reads with [read_as] from a local buffer is
    the index the upd dispatcher reads with [get<0>] from a tuple. *)
Lemma k2o_get_index_agrees (d : dispatcher) (src : getter) (s : io_state) :
  k2o.get_index d src s = get_index d src s.
Proof.
  unfold k2o.get_index, get_index, io_bind, io_ret. rewrite !fill_spec.
  unfold tuple.get, tuple.arg_t, tuple.mp_at_c. simpl.
  reflexivity.
Qed.

(** ** The bytes the codec writes *)

Lemma write_with_endianess_content e x offset n raw i :
  offset + n <= length raw -> i < n ->
  write_with_endianess e x offset n raw !! (offset + i)
  = Some (Z.land (Z.shiftr x (8 * Z.of_nat (match e with
                                            | LITTLE => i
                                            | BIG => n - 1 - i
                                            end))) 255).
Proof.
  intros Hlen Hi.
  destruct (write_loop_spec e x offset n raw n) as (_ & _ & Hin & _); [lia .. |].
  unfold write_with_endianess. destruct e.
  - rewrite <- (Hin i Hi). reflexivity.
  - rewrite <- (Hin (n - 1 - i)) by lia. simpl. f_equal. lia.
Qed.

Section codec_bytes.
Import serialization.
Variables (e : endianess) (sm : signed_mode).

Lemma write_as_bytes_length T x : length (write_as_bytes e sm T x) = sizeof T.
Proof.
  unfold write_as_bytes.
  destruct (write_as_frame e sm T x (replicate (sizeof T) 0%Z) 0) as [-> _];
    rewrite length_replicate; lia.
Qed.

Lemma array_fold_content x len sz
    (write_elt : value -> list byte_t -> nat -> list byte_t)
    (content : value -> nat -> option byte_t) :
  (forall y mem sequence, sequence + sz <= length mem ->
     length (write_elt y mem sequence) = length mem /\
     (forall j, j < sequence \/ sequence + sz <= j ->
        write_elt y mem sequence !! j = mem !! j) /\
     (forall i, i < sz -> write_elt y mem sequence !! (sequence + i) = content y i)) ->
  forall mem sequence m, m <= len -> sequence + len * sz <= length mem ->
  forall k i, k < m -> i < sz ->
    fold_left (fun mem k => write_elt (array_at x k) mem (sequence + k * sz)) (seq 0 m) mem
      !! (sequence + k * sz + i)
    = content (array_at x k) i /\
    length (fold_left (fun mem k => write_elt (array_at x k) mem (sequence + k * sz))
              (seq 0 m) mem) = length mem.
Proof.
  intros Hwrite mem sequence m.
  induction m as [| m IH]; intros Hm Hlen k i Hk Hi; [lia |].
  rewrite seq_S, fold_left_app. simpl.
  set (mem' := fold_left _ (seq 0 m) mem) in *.
  assert (Hmem' : length mem' = length mem).
  { destruct m as [| m']; [done |]. now apply (IH ltac:(lia) Hlen m' 0); [lia | lia]. }
  pose proof (array_slot sequence m len sz ltac:(lia)) as Hslot.
  destruct (Hwrite (array_at x m) mem' (sequence + m * sz) ltac:(lia))
    as (Hl & Hframe & Hcontent).
  split; [| lia].
  destruct (decide (k = m)) as [-> | Hne].
  - now apply Hcontent.
  - rewrite Hframe by nia. apply IH; lia.
Qed.

(** The byte [write_as] leaves at place [i] of the [sizeof(T)] bytes it
    writes does not depend on the memory nor on the place it writes at. *)
Lemma write_as_content T : forall x mem sequence i,
  sequence + sizeof T <= length mem -> i < sizeof T ->
  write_as e sm T x mem sequence !! (sequence + i) = write_as_bytes e sm T x !! i.
Proof.
  induction T as [w | w | elt IH len]; intros x mem sequence i Hlen Hi.
  - unfold write_as_bytes. simpl in *. unfold to_endianess.
    rewrite write_with_endianess_content by lia.
    symmetry.
    apply (write_with_endianess_content e _ 0 _ _ i); rewrite ?length_replicate; lia.
  - unfold write_as_bytes. simpl in *. unfold to_endianess.
    rewrite write_with_endianess_content by lia.
    symmetry.
    apply (write_with_endianess_content e _ 0 _ _ i); rewrite ?length_replicate; lia.
  - simpl in Hlen, Hi.
    assert (Hsz : 0 < sizeof elt) by (destruct (sizeof elt); lia).
    assert (Helt : forall y mem sequence, sequence + sizeof elt <= length mem ->
      length (write_as e sm elt y mem sequence) = length mem /\
      (forall j, j < sequence \/ sequence + sizeof elt <= j ->
         write_as e sm elt y mem sequence !! j = mem !! j) /\
      (forall i, i < sizeof elt ->
         write_as e sm elt y mem sequence !! (sequence + i)
         = write_as_bytes e sm elt y !! i)).
    { intros y mem' sequence' Hl.
      destruct (write_as_frame e sm elt y mem' sequence' Hl) as [Hl' Hf].
      split; [done |]. split; [done |]. intros i' Hi'. now apply IH. }
    pose proof (Nat.div_mod_eq i (sizeof elt)) as Hdiv.
    pose proof (Nat.mod_upper_bound i (sizeof elt) ltac:(lia)) as Hmod.
    assert (Hk : i / sizeof elt < len).
    { apply Nat.Div0.div_lt_upper_bound. lia. }
    destruct (array_fold_content x len (sizeof elt)
                (fun y mem sequence => write_as e sm elt y mem sequence)
                (fun y i => write_as_bytes e sm elt y !! i) Helt
                mem sequence len ltac:(lia) ltac:(lia)
                (i / sizeof elt) (i mod sizeof elt) Hk Hmod) as [H1 _].
    destruct (array_fold_content x len (sizeof elt)
                (fun y mem sequence => write_as e sm elt y mem sequence)
                (fun y i => write_as_bytes e sm elt y !! i) Helt
                (replicate (len * sizeof elt) 0%Z) 0 len ltac:(lia)
                ltac:(rewrite length_replicate; lia)
                (i / sizeof elt) (i mod sizeof elt) Hk Hmod) as [H2 _].
    unfold write_as_bytes. simpl write_as. simpl sizeof.
    replace (sequence + i)
      with (sequence + (i / sizeof elt) * sizeof elt + i mod sizeof elt) by lia.
    rewrite H1, <- H2. f_equal. lia.
Qed.

End codec_bytes.

(** X5. [write_as] writes exactly [sizeof(T)] bytes, the same ones wherever
    it writes them: through a pointer it leaves the memory before and after
    these bytes as it was and puts in between the bytes that the iterator
    overload, going through its local buffer, gives to its iterator; and
    [unaligned_data::write] leaves the same memory. *)
Theorem write_as_in_place (e : endianess) (sm : signed_mode) (T : type) (x : value)
    (mem : list byte_t) (sequence : nat) :
  sequence + sizeof T <= length mem ->
  length (serialization.write_as_bytes e sm T x) = sizeof T /\
  serialization.write_as e sm T x mem sequence
  = take sequence mem ++ serialization.write_as_bytes e sm T x
    ++ drop (sequence + sizeof T) mem /\
  unaligned_data.m_raw_data
    (unaligned_data.write T x sequence (unaligned_data.mk mem e sm))
  = serialization.write_as e sm T x mem sequence.
Proof.
  intros Hlen. pose proof (write_as_bytes_length e sm T x) as Hbytes.
  split; [done |]. split; [| now rewrite write_write_as].
  destruct (write_as_frame e sm T x mem sequence Hlen) as [Hl Hframe].
  apply list_eq. intros j.
  destruct (Nat.lt_ge_cases j sequence) as [Hlow | Hge].
  - rewrite Hframe by lia.
    rewrite lookup_app_l by (rewrite length_take; lia).
    now rewrite lookup_take_lt.
  - rewrite lookup_app_r by (rewrite length_take; lia).
    rewrite length_take, Nat.min_l by lia.
    destruct (Nat.lt_ge_cases j (sequence + sizeof T)) as [Hin | Hhigh].
    + rewrite lookup_app_l by lia.
      replace j with (sequence + (j - sequence)) at 1 by lia.
      apply write_as_content; lia.
    + rewrite lookup_app_r by lia. rewrite Hframe by lia.
      rewrite lookup_drop. f_equal. lia.
Qed.

Lemma write_as_in_place_witness :
  3 + sizeof (t_unsigned W16) <= length [1; 2; 3; 4; 5; 6]%Z /\
  serialization.write_as BIG TWOS_COMPLEMENT (t_unsigned W16) (v_int 258)
    [1; 2; 3; 4; 5; 6]%Z 3
  = take 3 [1; 2; 3; 4; 5; 6]%Z
    ++ serialization.write_as_bytes BIG TWOS_COMPLEMENT (t_unsigned W16) (v_int 258)
    ++ drop (3 + sizeof (t_unsigned W16)) [1; 2; 3; 4; 5; 6]%Z.
Proof.
  split; [simpl; lia |].
  exact (proj1 (proj2 (write_as_in_place BIG TWOS_COMPLEMENT (t_unsigned W16) (v_int 258)
                         [1; 2; 3; 4; 5; 6]%Z 3 ltac:(simpl; lia)))).
Defined.

Lemma integer_bytes e x n i :
  i < n ->
  write_with_endianess e x 0 n (replicate n 0%Z) !! i
  = Some (Z.land (Z.shiftr x (8 * Z.of_nat (match e with
                                            | LITTLE => i
                                            | BIG => n - 1 - i
                                            end))) 255).
Proof.
  intros Hi. apply (write_with_endianess_content e x 0 n _ i); [| done].
  rewrite length_replicate. lia.
Qed.

Lemma big_reverse_little x n :
  write_with_endianess BIG x 0 n (replicate n 0%Z)
  = reverse (write_with_endianess LITTLE x 0 n (replicate n 0%Z)).
Proof.
  assert (Hlen : forall e, length (write_with_endianess e x 0 n (replicate n 0%Z)) = n).
  { intros e. rewrite write_with_endianess_length; rewrite length_replicate; lia. }
  apply list_eq. intros i.
  destruct (Nat.lt_ge_cases i n) as [Hi | Hi].
  - rewrite reverse_lookup by (rewrite Hlen; lia).
    rewrite Hlen, !integer_bytes by lia. do 4 f_equal. lia.
  - rewrite !(proj2 (lookup_ge_None _ _)); [done | |].
    + rewrite length_reverse, Hlen. lia.
    + rewrite Hlen. lia.
Qed.

(** X6. The [n] bytes [write_with_endianess] writes in BIG order are the
    bytes it writes in LITTLE order reversed; byte [i] in LITTLE order is
    bits [8 i] to [8 i + 7] of the value; and so it is for the bytes
    [write_as] writes for an unsigned integer. *)
Theorem big_is_reversed_little (x : Z) (offset n : nat) (raw : list byte_t)
    (sm : signed_mode) (w : width) :
  offset + n <= length raw ->
  let written e := take n (drop offset (write_with_endianess e x offset n raw)) in
  written BIG = reverse (written LITTLE) /\
  written LITTLE = map (fun i => Z.land (Z.shiftr x (8 * Z.of_nat i)) 255) (seq 0 n) /\
  serialization.write_as_bytes BIG sm (t_unsigned w) (v_int x)
  = reverse (serialization.write_as_bytes LITTLE sm (t_unsigned w) (v_int x)).
Proof.
  intros Hlen written.
  assert (Hwritten : forall e,
    written e = write_with_endianess e x 0 n (replicate n 0%Z)).
  { intros e. unfold written. apply list_eq. intros i.
    destruct (Nat.lt_ge_cases i n) as [Hi | Hi].
    - rewrite lookup_take_lt, lookup_drop by lia.
      rewrite write_with_endianess_content, integer_bytes by lia. reflexivity.
    - rewrite lookup_take_ge by lia. symmetry. apply lookup_ge_None.
      rewrite write_with_endianess_length; rewrite length_replicate; lia. }
  rewrite !Hwritten. split; [apply big_reverse_little |]. split.
  - apply list_eq. intros i.
    change (map ?f ?l) with (f <$> l). rewrite list_lookup_fmap.
    destruct (Nat.lt_ge_cases i n) as [Hi | Hi].
    + rewrite integer_bytes, lookup_seq_lt by lia. reflexivity.
    + rewrite lookup_seq_ge by lia. apply lookup_ge_None.
      rewrite write_with_endianess_length; rewrite length_replicate; lia.
  - apply big_reverse_little.
Qed.

Lemma big_is_reversed_little_witness :
  1 + 2 <= length [9; 9; 9; 9]%Z /\
  take 2 (drop 1 (write_with_endianess BIG 258 1 2 [9; 9; 9; 9]%Z))
  = reverse (take 2 (drop 1 (write_with_endianess LITTLE 258 1 2 [9; 9; 9; 9]%Z))).
Proof.
  split; [simpl; lia |].
  exact (proj1 (big_is_reversed_little 258 1 2 [9; 9; 9; 9]%Z TWOS_COMPLEMENT W16
                  ltac:(simpl; lia))).
Defined.

(** ** Writing back what was read *)

Lemma byte_high_bits (b t : Z) : (0 <= b < 256)%Z -> (8 <= t)%Z -> Z.testbit b t = false.
Proof.
  intros Hb Ht. rewrite <- (Z.mod_small b (2 ^ 8)) by (simpl; lia).
  rewrite Z.testbit_mod_pow2 by lia.
  replace (t <? 8)%Z with false by (symmetry; apply Z.ltb_ge; lia). reflexivity.
Qed.

Lemma interpret_loop_bits bits e raw offset n m :
  m <= n -> (8 * Z.of_nat n <= bits)%Z ->
  (forall i, i < n -> (0 <= raw_at raw (endian_index e offset n i) < 256)%Z) ->
  forall (i : nat) (j : Z), (0 <= j < 8)%Z ->
  Z.testbit
    (fold_left
       (fun retval i =>
          wrap bits (Z.lor retval
                       (Z.shiftl (wrap bits (raw_at raw (endian_index e offset n i)))
                                 (8 * Z.of_nat i))))
       (seq 0 m) 0%Z)
    (8 * Z.of_nat i + j)
  = if i <? m then Z.testbit (raw_at raw (endian_index e offset n i)) j else false.
Proof.
  intros Hm Hbits Hbytes. induction m as [| m IH]; intros i j Hj.
  - simpl. apply Z.bits_0.
  - rewrite seq_S, fold_left_app. simpl. unfold wrap at 1.
    rewrite Z.testbit_mod_pow2 by lia.
    rewrite Z.lor_spec, IH by (lia || done).
    rewrite Z.shiftl_spec by lia. unfold wrap.
    destruct (Nat.ltb_spec i m) as [Hlt | Hge].
    + replace (i <? S m) with true by (symmetry; apply Nat.ltb_lt; lia).
      rewrite (Z.testbit_neg_r _ (8 * Z.of_nat i + j - 8 * Z.of_nat m)) by lia.
      rewrite orb_false_r.
      replace (8 * Z.of_nat i + j <? bits)%Z with true
        by (symmetry; apply Z.ltb_lt; lia).
      reflexivity.
    + simpl. rewrite Z.testbit_mod_pow2 by lia.
      destruct (decide (i = m)) as [-> | Hne].
      * replace (m <? S m) with true by (symmetry; apply Nat.ltb_lt; lia).
        replace (8 * Z.of_nat m + j - 8 * Z.of_nat m)%Z with j by lia.
        replace (8 * Z.of_nat m + j <? bits)%Z with true
          by (symmetry; apply Z.ltb_lt; lia).
        replace (j <? bits)%Z with true by (symmetry; apply Z.ltb_lt; lia).
        reflexivity.
      * replace (i <? S m) with false by (symmetry; apply Nat.ltb_ge; lia).
        rewrite (byte_high_bits (raw_at raw (endian_index e offset n m)))
          by (try apply Hbytes; lia).
        now rewrite andb_false_r, andb_false_r.
Qed.

Lemma interpret_byte bits e raw offset n i :
  i < n -> (8 * Z.of_nat n <= bits)%Z ->
  (forall i, i < n -> (0 <= raw_at raw (endian_index e offset n i) < 256)%Z) ->
  Z.land (Z.shiftr (interpret_with_endianess bits e raw offset n) (8 * Z.of_nat i)) 255
  = raw_at raw (endian_index e offset n i).
Proof.
  intros Hi Hbits Hbytes. apply Z.bits_inj'. intros j Hj.
  rewrite Z.land_spec, Z.shiftr_spec by lia.
  change 255%Z with (Z.ones 8). rewrite Z.testbit_ones by lia.
  replace (0 <=? j)%Z with true by (symmetry; apply Z.leb_le; lia). simpl.
  destruct (Z.ltb_spec j 8) as [Hlow | Hhigh].
  - rewrite andb_true_r. unfold interpret_with_endianess.
    replace (j + 8 * Z.of_nat i)%Z with (8 * Z.of_nat i + j)%Z by lia.
    rewrite (interpret_loop_bits bits e raw offset n n) by (lia || done).
    now replace (i <? n) with true by (symmetry; apply Nat.ltb_lt; lia).
  - rewrite andb_false_r. symmetry. apply byte_high_bits; [apply Hbytes |]; lia.
Qed.

(** X7. Writing back with [write_with_endianess] the value that
    [interpret_with_endianess] reads from [n] bytes leaves the memory as it
    is: no two sequences of [n] bytes are read as the same value. *)
Theorem write_interpret_with_endianess (bits : Z) (e : endianess)
    (raw : list byte_t) (offset n : nat) :
  offset + n <= length raw ->
  (8 * Z.of_nat n <= bits)%Z ->
  (forall j, offset <= j < offset + n -> (0 <= raw_at raw j < 256)%Z) ->
  write_with_endianess e (interpret_with_endianess bits e raw offset n) offset n raw
  = raw.
Proof.
  intros Hlen Hbits Hbytes.
  assert (Hbytes' : forall i, i < n ->
            (0 <= raw_at raw (endian_index e offset n i) < 256)%Z).
  { intros i Hi. apply Hbytes. now apply endian_index_range. }
  apply list_eq. intros j.
  destruct (decide (offset <= j < offset + n)) as [Hin | Hout].
  - replace j with (offset + (j - offset)) at 1 by lia.
    rewrite write_with_endianess_content by lia.
    rewrite interpret_byte by (try done; destruct e; lia).
    unfold raw_at.
    replace (endian_index e offset n
               match e with LITTLE => j - offset | BIG => n - 1 - (j - offset) end)
      with j by (destruct e; simpl; lia).
    destruct (lookup_lt_is_Some_2 raw j ltac:(lia)) as [b ->]. reflexivity.
  - apply write_with_endianess_frame; lia.
Qed.

Lemma write_interpret_with_endianess_witness :
  1 + 2 <= length [7; 1; 2; 9]%Z /\
  write_with_endianess BIG (interpret_with_endianess 16 BIG [7; 1; 2; 9]%Z 1 2) 1 2
    [7; 1; 2; 9]%Z
  = [7; 1; 2; 9]%Z.
Proof.
  split; [simpl; lia |].
  apply (write_interpret_with_endianess 16 BIG [7; 1; 2; 9]%Z 1 2); [simpl; lia | lia |].
  intros j Hj.
  destruct j as [| [| [| j]]]; unfold raw_at; simpl in *; lia.
Defined.

(** ** Tuples built from values *)

Lemma lay_prefix e sm Ts args m : forall raw,
  m <= length Ts -> length raw = tuple.size Ts ->
  exists raw',
    fold_left (fun tu I => default tu (tuple.set I (nth I args (v_int 0)) tu))
      (seq 0 m) (tuple.default_init Ts e sm raw)
    = tuple.default_init Ts e sm raw' /\
    length raw' = tuple.size Ts /\
    forall I T i, I < m -> Ts !! I = Some T -> i < sizeof T ->
      raw' !! (tuple.offset Ts I + i)
      = serialization.write_as_bytes e sm T (nth I args (v_int 0)) !! i.
Proof.
  intros raw. induction m as [| m IH]; intros Hm Hraw.
  - exists raw. split; [done |]. split; [done |]. intros I T i HI. lia.
  - destruct IH as (raw' & Hfold & Hlen & Hfields); [lia | done |].
    rewrite seq_S, fold_left_app, Hfold. simpl.
    destruct (lookup_lt_is_Some_2 Ts m ltac:(lia)) as [Tm HTm].
    unfold tuple.set, tuple.arg_t, tuple.mp_at_c. simpl. rewrite HTm. simpl.
    rewrite write_write_as. simpl.
    pose proof (field_fits Ts m Tm HTm) as Hfit.
    destruct (write_as_frame e sm Tm (nth m args (v_int 0)) raw' (tuple.offset Ts m)
                ltac:(lia)) as [Hl Hframe].
    eexists. split; [reflexivity |]. split; [lia |].
    intros I T i HI HT Hi.
    destruct (decide (I = m)) as [-> | Hne].
    + assert (T = Tm) as -> by congruence.
      apply write_as_content; lia.
    + pose proof (fields_disjoint Ts I m T HT ltac:(lia)).
      rewrite Hframe by lia. apply Hfields; [lia | done | done].
Qed.

(** X8. In the tuple that [make_tuple] (the constructor from values) lays
    out, the bytes of field [I], at its offset, are the bytes [write_as]
    writes for the [I]-th value, whatever the other values are; and
    [get<I>()] returns that value when it is representable. *)
Theorem make_tuple_fields (e : endianess) (sm : signed_mode) (Ts : list type)
    (args : list value) (I : nat) (T : type) :
  Ts !! I = Some T ->
  let tu := tuple.make_tuple e sm Ts args in
  let x := nth I args (v_int 0) in
  tuple.typelist tu = Ts /\
  length (tuple.bytes tu) = tuple.size Ts /\
  take (sizeof T) (drop (tuple.offset Ts I) (tuple.bytes tu))
  = serialization.write_as_bytes e sm T x /\
  (representable sm T x = true -> tuple.get I tu = Some x).
Proof.
  intros HT tu x. subst tu. unfold tuple.make_tuple, tuple.lay. simpl.
  destruct (lay_prefix e sm Ts args (length Ts) (replicate (tuple.size Ts) 0%Z)
              ltac:(lia) ltac:(apply length_replicate))
    as (raw' & -> & Hlen & Hfields).
  pose proof (field_fits Ts I T HT) as Hfit.
  pose proof (lookup_lt_Some _ _ _ HT) as HI.
  unfold tuple.bytes, tuple.get, tuple.arg_t, tuple.mp_at_c. simpl. rewrite HT.
  split; [done |]. split; [done |]. split.
  - apply list_eq. intros i.
    destruct (Nat.lt_ge_cases i (sizeof T)) as [Hi | Hi].
    + rewrite lookup_take_lt, lookup_drop by lia. now apply Hfields.
    + rewrite lookup_take_ge by lia. symmetry. apply lookup_ge_None.
      rewrite write_as_bytes_length. lia.
  - intros Hrep. f_equal. rewrite interpret_as_read_as. simpl.
    rewrite <- (roundtrip_at e sm T x raw' (tuple.offset Ts I) Hrep ltac:(lia)).
    apply read_as_ext. intros j Hj.
    replace j with (tuple.offset Ts I + (j - tuple.offset Ts I)) by lia.
    rewrite write_as_content by lia. apply Hfields; [done | done | lia].
Qed.

Lemma make_tuple_fields_witness :
  let Ts := [t_unsigned W8; t_signed W16; t_array (t_unsigned W8) 2] in
  let args := [v_int 7; v_int (-2); v_array [v_int 1; v_int 2]] in
  Ts !! 1 = Some (t_signed W16) /\
  representable TWOS_COMPLEMENT (t_signed W16) (nth 1 args (v_int 0)) = true /\
  tuple.get 1 (tuple.make_tuple BIG TWOS_COMPLEMENT Ts args) = Some (v_int (-2)).
Proof.
  split; [reflexivity |]. split; [reflexivity |].
  exact (proj2 (proj2 (proj2
    (make_tuple_fields BIG TWOS_COMPLEMENT
       [t_unsigned W8; t_signed W16; t_array (t_unsigned W8) 2]
       [v_int 7; v_int (-2); v_array [v_int 1; v_int 2]] 1 (t_signed W16) eq_refl)))
    eq_refl).
Defined.

(** ** Reading one request *)

Section read_one_request.
Import buffered_undispatcher.

Lemma put_loading d loaded count ibuf_next obuf_next obuf_bottom bufs byte :
  (2 <= count < 2 ^ 64)%Z -> (0 <= ibuf_next < 2 ^ 64 - 1)%Z ->
  put byte (mk d loaded count ibuf_next obuf_next obuf_bottom bufs)
  = (LOADING_PACKET,
     mk d loaded (count - 1) (ibuf_next + 1) obuf_next obuf_bottom
        (ibuf_store bufs (Z.to_nat ibuf_next) byte)).
Proof.
  intros Hcount Hnext. unfold put, wrap, size_bits. simpl.
  rewrite !Z.mod_small by lia.
  destruct (Z.gtb_spec (count - 1) 0); [done | lia].
Qed.

Lemma put_last_argument d ibuf_next obuf_next obuf_bottom bufs byte :
  put byte (mk d true 1 ibuf_next obuf_next obuf_bottom bufs)
  = (RESOLVED_PACKET,
     mk d false (sizeof_index_t d) 0 obuf_next obuf_bottom
        (ibuf_store bufs (Z.to_nat ibuf_next) byte)).
Proof. reflexivity. Qed.

Lemma put_last_index d ibuf_next obuf_next obuf_bottom bufs byte :
  (0 <= ibuf_next < 2 ^ 64 - 1)%Z ->
  let bufs' := ibuf_store bufs (Z.to_nat ibuf_next) byte in
  let index := index_in_ibuf d bufs' in
  put byte (mk d false 1 ibuf_next obuf_next obuf_bottom bufs)
  = if (index <? Z.of_nat (size d))%Z then
      if (input_size_at d index =? 0)%Z then
        (RESOLVED_PACKET, mk d false (sizeof_index_t d) 0 obuf_next obuf_bottom bufs')
      else
        (LOADING_PACKET,
         mk d true (input_size_at d index) (ibuf_next + 1) obuf_next obuf_bottom bufs')
    else (DROPPED_PACKET, mk d false (sizeof_index_t d) 0 obuf_next obuf_bottom bufs').
Proof.
  intros Hnext bufs' index. unfold put, wrap, size_bits. simpl.
  rewrite !Z.mod_small by lia. reflexivity.
Qed.

Lemma get_index_of_calls d src calls out out' :
  (get_index d src (mk_io calls out)).1 = (get_index d src (mk_io calls out')).1.
Proof. unfold get_index, io_bind, io_ret. now rewrite !fill_spec. Qed.

Lemma index_in_ibuf_of_stream d bufs src p0 :
  (forall j, j < width_bytes (index_t d) -> raw_at (ibuf bufs) j = src (p0 + j)) ->
  index_in_ibuf d bufs = (get_index d src (mk_io p0 [])).1.
Proof.
  intros Hsame. unfold index_in_ibuf, get_index, io_bind, io_ret.
  rewrite !fill_spec. simpl.
  apply interpret_with_endianess_ext. intros j Hj.
  change (tuple.offset [t_unsigned (index_t d)] 0) with 0 in Hj.
  change (tuple.size [t_unsigned (index_t d)]) with (0 + width_bytes (index_t d)).
  change (map ?f ?l) with (f <$> l).
  rewrite !list_lookup_fmap, lookup_seq_lt by lia. simpl.
  f_equal. apply Hsame. lia.
Qed.

Lemma raw_at_ibuf_store bufs i byte j :
  i < length (ibuf bufs) ->
  raw_at (ibuf (ibuf_store bufs i byte)) j
  = if decide (j = i) then byte else raw_at (ibuf bufs) j.
Proof.
  intros Hi. unfold raw_at.
  destruct bufs as [m_buf | m_ibuf m_obuf]; simpl in *;
    (destruct (decide (j = i)) as [-> | Hne];
     [now rewrite list_lookup_insert_eq | now rewrite list_lookup_insert_ne]).
Qed.

End read_one_request.

Section read_from_loops.
Import buffered_undispatcher.

Lemma read_from_index_done fuel src status bd s :
  negb (m_is_index_loaded bd) && is_loading status = false ->
  read_from_index fuel src status bd s = Some (status, bd, s).
Proof. intros H. destruct fuel; simpl; now rewrite H. Qed.

Lemma read_from_arguments_done fuel src status bd s :
  m_is_index_loaded bd = false ->
  read_from_arguments fuel src status bd s = Some (status, bd, s).
Proof. intros H. destruct fuel; simpl; now rewrite H. Qed.

Lemma read_from_index_step fuel src bd p out :
  m_is_index_loaded bd = false ->
  read_from_index (S fuel) src LOADING_PACKET bd (mk_io p out)
  = read_from_index fuel src (put (src p) bd).1 (put (src p) bd).2 (mk_io (S p) out).
Proof.
  intros H. cbn [read_from_index]. rewrite H. unfold call_src.
  cbn [negb andb is_loading getter_calls putter_bytes].
  now destruct (put (src p) bd).
Qed.

Lemma read_from_arguments_step fuel src status bd p out :
  m_is_index_loaded bd = true ->
  read_from_arguments (S fuel) src status bd (mk_io p out)
  = read_from_arguments fuel src (put (src p) bd).1 (put (src p) bd).2 (mk_io (S p) out).
Proof.
  intros H. cbn [read_from_arguments]. rewrite H. unfold call_src.
  cbn [getter_calls putter_bytes].
  now destruct (put (src p) bd).
Qed.

Lemma put_all_cons byte bytes bd : put_all (byte :: bytes) bd = put_all bytes (put byte bd).2.
Proof. reflexivity. Qed.

Lemma read_from_index_spec K src p0 obuf_next obuf_bottom out : forall m k bufs fuel,
  let d := make_dispatcher K in
  let index := (get_index d src (mk_io p0 [])).1 in
  k + m = width_bytes (index_t d) -> 1 <= m ->
  width_bytes (index_t d) <= length (ibuf bufs) ->
  (forall j, j < k -> raw_at (ibuf bufs) j = src (p0 + j)) ->
  m <= fuel ->
  exists bufs',
    length (ibuf bufs') = length (ibuf bufs) /\
    let bd := mk d false (Z.of_nat m) (Z.of_nat k) obuf_next obuf_bottom bufs in
    let result :=
      if (index <? Z.of_nat (size d))%Z then
        if (input_size_at d index =? 0)%Z then
          (RESOLVED_PACKET, mk d false (sizeof_index_t d) 0 obuf_next obuf_bottom bufs')
        else
          (LOADING_PACKET,
           mk d true (input_size_at d index) (sizeof_index_t d)
              obuf_next obuf_bottom bufs')
      else (DROPPED_PACKET, mk d false (sizeof_index_t d) 0 obuf_next obuf_bottom bufs') in
    read_from_index fuel src LOADING_PACKET bd (mk_io (p0 + k) out)
    = Some (result, mk_io (p0 + width_bytes (index_t d)) out) /\
    put_all (map src (seq (p0 + k) m)) bd = result.2.
Proof.
  intros m. induction m as [| m IH]; intros k bufs fuel d index Hsum Hm Hlen Hsame Hfuel;
    [lia |].
  pose proof (width_bytes_pos (index_t d)) as Hw.
  destruct fuel as [| fuel]; [lia |].
  destruct m as [| m].
  - (* the last byte of the index *)
    exists (ibuf_store bufs k (src (p0 + k))).
    split; [apply ibuf_ibuf_store |].
    intros bd result. subst bd.
    assert (Hindex : index_in_ibuf d (ibuf_store bufs k (src (p0 + k))) = index).
    { apply index_in_ibuf_of_stream. intros j Hj.
      rewrite raw_at_ibuf_store by lia.
      destruct (decide (j = k)) as [-> | Hne]; [done |]. apply Hsame. lia. }
    assert (Hput : put (src (p0 + k))
                     (mk d false (Z.of_nat 1) (Z.of_nat k) obuf_next obuf_bottom bufs)
                   = result).
    { change (Z.of_nat 1) with 1%Z.
      rewrite put_last_index by lia. rewrite Nat2Z.id, Hindex. fold index.
      replace (Z.of_nat k + 1)%Z with (sizeof_index_t d)
        by (unfold sizeof_index_t; lia).
      reflexivity. }
    rewrite read_from_index_step by reflexivity. rewrite Hput.
    replace (S (p0 + k)) with (p0 + width_bytes (index_t d)) by lia.
    split.
    + subst result.
      destruct (index <? Z.of_nat (size d))%Z;
        [destruct (input_size_at d index =? 0)%Z |];
        now rewrite read_from_index_done.
    + cbn [map seq]. rewrite put_all_cons, Hput. reflexivity.
  - (* a byte of the index before the last *)
    pose proof (IH (S k) (ibuf_store bufs k (src (p0 + k))) fuel) as IH'.
    cbv zeta in IH'. fold d in IH'. fold index in IH'.
    destruct IH' as (bufs' & Hlen' & Hspec); [lia | lia | | | lia |].
    { rewrite ibuf_ibuf_store. exact Hlen. }
    { intros j Hj. rewrite raw_at_ibuf_store by lia.
      destruct (decide (j = k)) as [-> | Hne]; [done |]. apply Hsame. lia. }
    exists bufs'. split; [now rewrite Hlen', ibuf_ibuf_store |].
    intros bd result. subst bd.
    assert (Hput : put (src (p0 + k))
                     (mk d false (Z.of_nat (S (S m))) (Z.of_nat k)
                        obuf_next obuf_bottom bufs)
                   = (LOADING_PACKET,
                      mk d false (Z.of_nat (S m)) (Z.of_nat (S k)) obuf_next obuf_bottom
                         (ibuf_store bufs k (src (p0 + k))))).
    { rewrite put_loading by lia. rewrite Nat2Z.id. do 2 f_equal; lia. }
    rewrite read_from_index_step by reflexivity. rewrite Hput.
    cbn [fst snd]. replace (S (p0 + k)) with (p0 + S k) by lia.
    destruct Hspec as [Hread Hall]. split; [exact Hread |].
    cbn [map seq]. rewrite put_all_cons, Hput. cbn [snd].
    replace (S (p0 + k)) with (p0 + S k) by lia. exact Hall.
Qed.

Lemma read_from_arguments_spec d src obuf_next obuf_bottom out :
  forall m ibuf_next bufs fuel p status,
  1 <= m -> (0 <= ibuf_next)%Z -> (ibuf_next + Z.of_nat m < 2 ^ 64)%Z -> m <= fuel ->
  exists bufs',
    length (ibuf bufs') = length (ibuf bufs) /\
    let bd := mk d true (Z.of_nat m) ibuf_next obuf_next obuf_bottom bufs in
    let bd' := mk d false (sizeof_index_t d) 0 obuf_next obuf_bottom bufs' in
    read_from_arguments fuel src status bd (mk_io p out)
    = Some (RESOLVED_PACKET, bd', mk_io (p + m) out) /\
    put_all (map src (seq p m)) bd = bd'.
Proof.
  intros m. induction m as [| m IH];
    intros ibuf_next bufs fuel p status Hm Hnext Hfit Hfuel; [lia |].
  destruct fuel as [| fuel]; [lia |].
  destruct m as [| m].
  - exists (ibuf_store bufs (Z.to_nat ibuf_next) (src p)).
    split; [apply ibuf_ibuf_store |].
    intros bd bd'. subst bd.
    rewrite read_from_arguments_step by reflexivity.
    change (Z.of_nat 1) with 1%Z. rewrite put_last_argument. cbn [fst snd].
    replace (S p) with (p + 1) by lia.
    split; [now rewrite read_from_arguments_done | reflexivity].
  - destruct (IH (ibuf_next + 1)%Z (ibuf_store bufs (Z.to_nat ibuf_next) (src p))
                fuel (S p) LOADING_PACKET) as (bufs' & Hlen' & Hspec); try lia.
    exists bufs'. split; [now rewrite Hlen', ibuf_ibuf_store |].
    intros bd bd'. subst bd.
    assert (Hput : put (src p)
                     (mk d true (Z.of_nat (S (S m))) ibuf_next obuf_next obuf_bottom bufs)
                   = (LOADING_PACKET,
                      mk d true (Z.of_nat (S m)) (ibuf_next + 1) obuf_next obuf_bottom
                         (ibuf_store bufs (Z.to_nat ibuf_next) (src p)))).
    { rewrite put_loading by lia. do 2 f_equal; lia. }
    rewrite read_from_arguments_step by reflexivity. rewrite Hput. cbn [fst snd].
    replace (p + S (S m)) with (S p + S m) by lia.
    destruct Hspec as [Hread Hall]. split; [exact Hread |].
    cbn [map seq]. rewrite put_all_cons, Hput. exact Hall.
Qed.

End read_from_loops.

Section read_from_request.
Import buffered_undispatcher.

Lemma put_all_app bytes1 bytes2 bd :
  put_all (bytes1 ++ bytes2) bd = put_all bytes2 (put_all bytes1 bd).
Proof. unfold put_all. apply fold_left_app. Qed.

Lemma read_from_request (K : keyring) (src : getter) (bd : t) (s : io_state)
    (fuel : nat) :
  awaits_request K bd ->
  (Z.of_nat (needed_input_buffer_size K) < 2 ^ size_bits)%Z ->
  let d := make_dispatcher K in
  let index := (get_index d src s).1 in
  let in_range := (index <? Z.of_nat (size d))%Z in
  let n := if in_range then Z.to_nat (input_size_at d index) else 0 in
  let total := width_bytes (index_t d) + n in
  total <= fuel ->
  let bd' := put_all (map src (seq (getter_calls s) total)) bd in
  read_from fuel src bd s
  = Some (if in_range then RESOLVED_PACKET else DROPPED_PACKET, bd',
          mk_io (getter_calls s + total) (putter_bytes s)) /\
  awaits_request K bd' /\
  m_obuf_next bd' = m_obuf_next bd /\
  m_obuf_bottom bd' = m_obuf_bottom bd.
Proof.
  intros Hawaits Hfit d index in_range n total Hfuel bd'.
  destruct bd as [d0 loaded count inext onext obottom bufs].
  destruct s as [p out].
  unfold awaits_request, size_bits in *.
  cbn [m_dispatcher m_buffers m_is_index_loaded m_ibuf_next m_load_count
       m_obuf_next m_obuf_bottom getter_calls putter_bytes] in *.
  destruct Hawaits as (-> & Hlen & -> & -> & ->).
  pose proof (width_bytes_pos (index_t d)) as Hw.
  assert (Hneeded : width_bytes (index_t d) <= needed_input_buffer_size K)
    by (unfold needed_input_buffer_size, d, index_t; simpl; lia).
  assert (Hindex : index = (get_index d src (mk_io p [])).1)
    by apply get_index_of_calls.
  destruct (get_index_spec d src (mk_io p [])) as (i0 & Hi0 & Hrange).
  assert (Hnonneg : (0 <= index)%Z) by (rewrite Hindex, Hi0; simpl; lia).
  pose proof (read_from_index_spec K src p onext obottom out
                (width_bytes (index_t d)) 0 bufs fuel) as Hloop.
  cbv zeta in Hloop. fold d in Hloop. rewrite <- Hindex in Hloop.
  destruct Hloop as (bufs1 & Hlen1 & Hread & Hall);
    [lia | lia | lia | intros j Hj; lia | lia |].
  rewrite Nat.add_0_r in Hread, Hall.
  change (Z.of_nat 0) with 0%Z in Hread, Hall.
  fold (sizeof_index_t d) in Hread, Hall.
  unfold read_from. fold d. rewrite Hread. clear Hread.
  subst bd' total n. fold d. fold in_range in Hall |- *.
  destruct in_range eqn:Hin.
  - apply Z.ltb_lt in Hin.
    destruct (input_size_at_bound K index) as [Hb1 Hb2];
      [unfold size in Hin; simpl in Hin; lia |].
    fold d in Hb1, Hb2.
    destruct (Z.eqb_spec (input_size_at d index) 0) as [Hzero | Hargs].
    + rewrite Hzero. simpl Z.to_nat. rewrite Nat.add_0_r, Hall. simpl.
      rewrite read_from_arguments_done by reflexivity.
      repeat split; try done. lia.
    + pose proof (read_from_arguments_spec d src onext obottom out
                    (Z.to_nat (input_size_at d index)) (sizeof_index_t d) bufs1 fuel
                    (p + width_bytes (index_t d)) LOADING_PACKET) as Hargs_loop.
      rewrite Z2Nat.id in Hargs_loop by lia.
      destruct Hargs_loop as (bufs2 & Hlen2 & Hread2 & Hall2);
        [lia | unfold sizeof_index_t; lia
         | unfold sizeof_index_t, index_t, d in *; simpl in *; lia | lia |].
      simpl. rewrite Hread2.
      rewrite seq_app, map_app, put_all_app, Hall. simpl. rewrite Hall2.
      rewrite Nat.add_assoc.
      repeat split; try done. simpl. lia.
  - simpl. rewrite Nat.add_0_r, Hall. simpl.
    rewrite read_from_arguments_done by reflexivity.
    repeat split; try done. lia.
Qed.

(** X9. On a dispatcher that waits for a request, [read_from] ends: it
    takes from the getter the [sizeof(index_t)] bytes of the index and, when
    the index is below [size], the [input_size] bytes of the arguments of
    the designated action, and no other byte; it has given these bytes to
    [put] in order; it returns [RESOLVED_PACKET] when the index is below
    [size] and [DROPPED_PACKET] otherwise; and the dispatcher waits for a
    request again, [obuf_next] and [obuf_bottom] being as they were. *)
Theorem read_from_one_request (K : keyring) (src : getter) (bd : t) (s : io_state)
    (fuel : nat) :
  awaits_request K bd ->
  (Z.of_nat (needed_input_buffer_size K) < 2 ^ size_bits)%Z ->
  let d := make_dispatcher K in
  let index := (get_index d src s).1 in
  let in_range := (index <? Z.of_nat (size d))%Z in
  let n := if in_range then Z.to_nat (input_size_at d index) else 0 in
  let total := width_bytes (index_t d) + n in
  total <= fuel ->
  let bd' := put_all (map src (seq (getter_calls s) total)) bd in
  read_from fuel src bd s
  = Some (if in_range then RESOLVED_PACKET else DROPPED_PACKET, bd',
          mk_io (getter_calls s + total) (putter_bytes s)) /\
  awaits_request K bd' /\
  m_obuf_next bd' = m_obuf_next bd /\
  m_obuf_bottom bd' = m_obuf_bottom bd.
Proof. exact (read_from_request K src bd s fuel). Qed.

Lemma read_from_one_request_witness :
  let bd := construct keyring_id (double_buffer [0; 0] [0])%Z in
  awaits_request keyring_id bd /\
  (Z.of_nat (needed_input_buffer_size keyring_id) < 2 ^ size_bits)%Z /\
  read_from 2 (raw_at [0; 42]%Z) bd (mk_io 0 [])
  = Some (RESOLVED_PACKET, put_all [0; 42]%Z bd, mk_io 2 []).
Proof.
  split; [repeat split; simpl; lia || reflexivity |]. split; [reflexivity |].
  exact (proj1 (read_from_one_request keyring_id (raw_at [0; 42]%Z)
                  (construct keyring_id (double_buffer [0; 0] [0])%Z) (mk_io 0 []) 2
                  ltac:(repeat split; simpl; lia || reflexivity) eq_refl
                  ltac:(vm_compute; lia))).
Defined.

End read_from_request.

Section process_request.
Import buffered_undispatcher.

Lemma put_all_double_buffer bytes : forall bd m_ibuf m_obuf,
  m_buffers bd = double_buffer m_ibuf m_obuf ->
  exists m_ibuf', m_buffers (put_all bytes bd) = double_buffer m_ibuf' m_obuf.
Proof.
  induction bytes as [| byte bytes IH]; intros bd m_ibuf m_obuf Hbufs.
  - now exists m_ibuf.
  - rewrite put_all_cons.
    destruct (put_frame byte bd) as (_ & _ & _ & Hstore).
    rewrite Hbufs in Hstore. simpl in Hstore. now apply (IH _ _ _ Hstore).
Qed.

(** X10. [operator()] of the buffered dispatcher, on a dispatcher that
    waits for a request: it reads one request as [read_from] does and, the
    request being resolved, gives [dest] the bytes that are between
    [obuf_next] and [obuf_bottom], which are where they were before the
    request; with two buffers these are the bytes the output buffer held
    before the request, and with an empty output buffer [dest] is given
    nothing.  A dropped request gives [dest] nothing. *)
Theorem process_one_request (K : keyring) (src : getter) (bd : t) (s : io_state)
    (fuel : nat) :
  awaits_request K bd ->
  (Z.of_nat (needed_input_buffer_size K) < 2 ^ size_bits)%Z ->
  (0 <= m_obuf_next bd <= m_obuf_bottom bd)%Z ->
  (m_obuf_bottom bd < 2 ^ size_bits)%Z ->
  let d := make_dispatcher K in
  let index := (get_index d src s).1 in
  let in_range := (index <? Z.of_nat (size d))%Z in
  let n := if in_range then Z.to_nat (input_size_at d index) else 0 in
  let total := width_bytes (index_t d) + n in
  let staged := Z.to_nat (m_obuf_bottom bd - m_obuf_next bd) in
  total <= fuel -> staged <= fuel ->
  let bd' := put_all (map src (seq (getter_calls s) total)) bd in
  let output :=
    map (raw_at (obuf (m_buffers bd'))) (seq (Z.to_nat (m_obuf_next bd)) staged) in
  process fuel src bd s
  = Some (if in_range
          then (RESOLVED_PACKET, with_obuf_next bd' (m_obuf_bottom bd),
                mk_io (getter_calls s + total) (putter_bytes s ++ output))
          else (DROPPED_PACKET, bd',
                mk_io (getter_calls s + total) (putter_bytes s))) /\
  (forall m_ibuf m_obuf, m_buffers bd = double_buffer m_ibuf m_obuf ->
     output = map (raw_at m_obuf) (seq (Z.to_nat (m_obuf_next bd)) staged)) /\
  (m_obuf_next bd = m_obuf_bottom bd -> output = []).
Proof.
  intros Hawaits Hfit Hobuf Hmax d index in_range n total staged Hfuel Hstaged bd' output.
  destruct (read_from_request K src bd s fuel Hawaits Hfit Hfuel)
    as (Hread & _ & Hnext & Hbottom).
  fold d index in_range n total bd' in Hread, Hnext, Hbottom.
  split; [| split].
  - unfold process. rewrite Hread.
    destruct in_range; [| reflexivity].
    cbn [is_resolved].
    rewrite write_to_spec by (rewrite ?Hnext, ?Hbottom; lia).
    rewrite Hnext, Hbottom. reflexivity.
  - intros m_ibuf m_obuf Hbufs. unfold output.
    destruct (put_all_double_buffer (map src (seq (getter_calls s) total)) bd
                m_ibuf m_obuf Hbufs) as (m_ibuf' & Hbufs').
    fold bd' in Hbufs'. now rewrite Hbufs'.
  - intros Hempty. unfold output, staged. now rewrite Hempty, Z.sub_diag.
Qed.

Lemma process_one_request_witness :
  let bd := construct keyring_id (double_buffer [0; 0] [0])%Z in
  awaits_request keyring_id bd /\
  (Z.of_nat (needed_input_buffer_size keyring_id) < 2 ^ size_bits)%Z /\
  (0 <= m_obuf_next bd <= m_obuf_bottom bd)%Z /\
  (m_obuf_bottom bd < 2 ^ size_bits)%Z /\
  process 2 (raw_at [0; 42]%Z) bd (mk_io 0 [])
  = Some (RESOLVED_PACKET, put_all [0; 42]%Z bd, mk_io 2 []).
Proof.
  split; [repeat split; simpl; lia || reflexivity |]. split; [reflexivity |].
  split; [simpl; lia |]. split; [reflexivity |].
  exact (proj1 (process_one_request keyring_id (raw_at [0; 42]%Z)
                  (construct keyring_id (double_buffer [0; 0] [0])%Z) (mk_io 0 []) 2
                  ltac:(repeat split; simpl; lia || reflexivity) eq_refl
                  ltac:(simpl; lia) eq_refl
                  ltac:(vm_compute; lia) ltac:(vm_compute; lia))).
Defined.

End process_request.

(** ** The k2o buffered dispatcher *)

Section k2o_read.

Lemma k2o_read_loading d loaded count ibuf_next obuf_next obuf_bottom bufs byte :
  (2 <= count < 2 ^ 64)%Z ->
  k2o.read byte (k2o.mk d loaded count ibuf_next obuf_next obuf_bottom bufs)
  = k2o.mk d loaded (count - 1) (S ibuf_next) obuf_next obuf_bottom
      (ibuf_store bufs ibuf_next byte).
Proof.
  intros Hcount. unfold k2o.read, wrap, size_bits. simpl.
  rewrite Z.mod_small by lia.
  destruct (Z.eqb_spec (count - 1) 0); [lia | done].
Qed.

Lemma k2o_read_wrap d loaded ibuf_next obuf_next obuf_bottom bufs byte :
  k2o.read byte (k2o.mk d loaded 0 ibuf_next obuf_next obuf_bottom bufs)
  = k2o.mk d loaded (2 ^ 64 - 1) (S ibuf_next) obuf_next obuf_bottom
      (ibuf_store bufs ibuf_next byte).
Proof. reflexivity. Qed.

Lemma k2o_read_last_index d ibuf_next obuf_next obuf_bottom bufs byte :
  k2o.read byte (k2o.mk d false 1 ibuf_next obuf_next obuf_bottom bufs)
  = k2o.mk d true
      (buffered_undispatcher.input_size_at d
         (k2o.get_index d (raw_at (ibuf (ibuf_store bufs ibuf_next byte))) (mk_io 0 [])).1)
      (S ibuf_next) obuf_next obuf_bottom (ibuf_store bufs ibuf_next byte).
Proof. reflexivity. Qed.

Lemma ibuf_store_seq_cons bufs i byte bytes :
  ibuf_store_seq bufs i (byte :: bytes)
  = ibuf_store_seq (ibuf_store bufs i byte) (S i) bytes.
Proof. reflexivity. Qed.

Lemma k2o_read_all_loading d loaded obuf_next obuf_bottom bytes :
  forall count ibuf_next bufs,
  (Z.of_nat (length bytes) < count < 2 ^ 64)%Z ->
  k2o.read_all_bytes bytes
    (k2o.mk d loaded count ibuf_next obuf_next obuf_bottom bufs)
  = k2o.mk d loaded (count - Z.of_nat (length bytes)) (ibuf_next + length bytes)
      obuf_next obuf_bottom (ibuf_store_seq bufs ibuf_next bytes).
Proof.
  induction bytes as [| byte bytes IH]; intros count ibuf_next bufs Hcount.
  - simpl. unfold ibuf_store_seq. simpl. f_equal; lia.
  - unfold k2o.read_all_bytes in *. cbn [fold_left].
    rewrite k2o_read_loading by (simpl length in Hcount; lia).
    rewrite IH by (simpl length in Hcount; lia).
    rewrite ibuf_store_seq_cons. simpl length. f_equal; lia.
Qed.

(** X11. In the k2o buffered dispatcher an order without parameters is not
    invoked: the byte that completes its index leaves the dispatcher waiting
    for arguments with [load_count = 0], the next byte takes [load_count]
    to [2 ^ 64 - 1], and no byte after it, as long as the input buffer has
    room for all of them and there are fewer than [2 ^ 64 - 1], changes
    [obuf_next] or [obuf_bottom]. *)
Theorem k2o_order_without_parameters (d : dispatcher) (ibuf_next obuf_next obuf_bottom : nat)
    (bufs : buffers) (byte next_byte : byte_t) (bytes : list byte_t) :
  let bufs' := ibuf_store bufs ibuf_next byte in
  let index := (k2o.get_index d (raw_at (ibuf bufs')) (mk_io 0 [])).1 in
  (exists order, m_actions d !! Z.to_nat index = Some order /\ input_size order = 0) ->
  (Z.of_nat (length bytes) < 2 ^ 64 - 1)%Z ->
  ibuf_next + 2 + length bytes <= length (ibuf bufs) ->
  let loaded := k2o.read byte (k2o.mk d false 1 ibuf_next obuf_next obuf_bottom bufs) in
  loaded = k2o.mk d true 0 (S ibuf_next) obuf_next obuf_bottom bufs' /\
  k2o.read next_byte loaded
  = k2o.mk d true (2 ^ 64 - 1) (S (S ibuf_next)) obuf_next obuf_bottom
      (ibuf_store bufs' (S ibuf_next) next_byte) /\
  let after := k2o.read_all_bytes (next_byte :: bytes) loaded in
  k2o.m_is_index_loaded after = true /\
  k2o.m_load_count after = (2 ^ 64 - 1 - Z.of_nat (length bytes))%Z /\
  k2o.m_obuf_next after = obuf_next /\
  k2o.m_obuf_bottom after = obuf_bottom /\
  k2o.is_loaded after = k2o.is_loaded (k2o.mk d false 1 ibuf_next obuf_next obuf_bottom bufs).
Proof.
  intros bufs' index (order & Horder & Hzero) Hbytes Hroom loaded.
  assert (Hloaded : loaded = k2o.mk d true 0 (S ibuf_next) obuf_next obuf_bottom bufs').
  { unfold loaded. rewrite k2o_read_last_index. fold bufs'. fold index.
    unfold buffered_undispatcher.input_size_at. rewrite Horder, Hzero. reflexivity. }
  split; [exact Hloaded |]. rewrite Hloaded. split; [apply k2o_read_wrap |].
  intros after. subst after. unfold k2o.read_all_bytes. cbn [fold_left].
  rewrite k2o_read_wrap.
  fold (k2o.read_all_bytes bytes
          (k2o.mk d true (2 ^ 64 - 1) (S (S ibuf_next)) obuf_next obuf_bottom
             (ibuf_store bufs' (S ibuf_next) next_byte))).
  rewrite k2o_read_all_loading by lia.
  repeat split.
Qed.

Lemma k2o_order_without_parameters_witness :
  let d := make_dispatcher (mk_keyring LITTLE TWOS_COMPLEMENT [noop]) in
  let fresh := k2o.construct (mk_keyring LITTLE TWOS_COMPLEMENT [noop])
                 (double_buffer [9; 9; 9] [])%Z in
  (exists order,
     m_actions d !! Z.to_nat
       (k2o.get_index d (raw_at (ibuf (ibuf_store (double_buffer [9; 9; 9] [])%Z 0 0%Z)))
          (mk_io 0 [])).1 = Some order /\ input_size order = 0) /\
  0 + 2 + length (@nil Z) <= length (ibuf (double_buffer [9; 9; 9] [])%Z) /\
  k2o.read 0%Z fresh = k2o.mk d true 0 1 0 0 (double_buffer [0; 9; 9] [])%Z /\
  k2o.read 7%Z (k2o.read 0%Z fresh)
  = k2o.mk d true (2 ^ 64 - 1) 2 0 0 (double_buffer [0; 7; 9] [])%Z.
Proof.
  split; [eexists; split; reflexivity |].
  pose proof (k2o_order_without_parameters
    (make_dispatcher (mk_keyring LITTLE TWOS_COMPLEMENT [noop])) 0 0 0
    (double_buffer [9; 9; 9] [])%Z 0%Z 7%Z []
    ltac:(eexists; split; reflexivity) ltac:(simpl; lia) ltac:(simpl; lia)) as H.
  split; [simpl; lia |].
  split; [exact (proj1 H) | exact (proj1 (proj2 H))].
Defined.

End k2o_read.

Section k2o_request.

Lemma ibuf_store_seq_lengths bytes : forall bufs i,
  length (ibuf (ibuf_store_seq bufs i bytes)) = length (ibuf bufs) /\
  length (obuf (ibuf_store_seq bufs i bytes)) = length (obuf bufs).
Proof.
  induction bytes as [| byte bytes IH]; intros bufs i; [done |].
  rewrite ibuf_store_seq_cons.
  destruct (IH (ibuf_store bufs i byte) (S i)) as [-> ->].
  split; [apply ibuf_ibuf_store | apply obuf_ibuf_store].
Qed.

Lemma ibuf_store_seq_app bufs i bytes1 bytes2 :
  ibuf_store_seq bufs i (bytes1 ++ bytes2)
  = ibuf_store_seq (ibuf_store_seq bufs i bytes1) (i + length bytes1) bytes2.
Proof.
  revert bufs i. induction bytes1 as [| byte bytes1 IH]; intros bufs i.
  - change (ibuf_store_seq bufs i []) with bufs. simpl. now rewrite Nat.add_0_r.
  - simpl app. rewrite !ibuf_store_seq_cons, IH. simpl length. f_equal. lia.
Qed.

Lemma raw_at_ibuf_store_seq bytes : forall bufs i j,
  i + length bytes <= length (ibuf bufs) ->
  raw_at (ibuf (ibuf_store_seq bufs i bytes)) j
  = if decide (i <= j < i + length bytes) then raw_at bytes (j - i)
    else raw_at (ibuf bufs) j.
Proof.
  induction bytes as [| byte bytes IH]; intros bufs i j Hlen.
  - unfold ibuf_store_seq. simpl. destruct (decide _); [lia | done].
  - rewrite ibuf_store_seq_cons. simpl length in *.
    rewrite IH by (rewrite ibuf_ibuf_store; lia).
    rewrite raw_at_ibuf_store by lia.
    destruct (decide (S i <= j < S i + length bytes)) as [Hin | Hout].
    + destruct (decide (i <= j < i + S (length bytes))); [| lia].
      replace (j - i) with (S (j - S i)) by lia. reflexivity.
    + destruct (decide (j = i)) as [-> | Hne].
      * destruct (decide (i <= i < i + S (length bytes))); [| lia].
        now rewrite Nat.sub_diag.
      * destruct (decide (i <= j < i + S (length bytes))); [lia | done].
Qed.

Lemma k2o_read_all_phase d loaded obuf_next obuf_bottom bytes byte ibuf_next bufs :
  (Z.of_nat (length bytes) + 1 < 2 ^ 64)%Z ->
  k2o.read_all_bytes (bytes ++ [byte])
    (k2o.mk d loaded (Z.of_nat (S (length bytes))) ibuf_next obuf_next obuf_bottom bufs)
  = k2o.read byte
      (k2o.mk d loaded 1 (ibuf_next + length bytes) obuf_next obuf_bottom
         (ibuf_store_seq bufs ibuf_next bytes)).
Proof.
  intros Hfit. unfold k2o.read_all_bytes. rewrite fold_left_app. cbn [fold_left].
  fold (k2o.read_all_bytes bytes
          (k2o.mk d loaded (Z.of_nat (S (length bytes))) ibuf_next obuf_next obuf_bottom
             bufs)).
  rewrite k2o_read_all_loading by lia. do 2 f_equal. lia.
Qed.

Lemma split_last (bytes : list byte_t) m :
  length bytes = S m -> exists front last, bytes = front ++ [last] /\ length front = m.
Proof.
  intros Hlen. destruct (exists_last (l := bytes)) as (front & last & ->).
  - intros ->. discriminate.
  - exists front, last. split; [done |]. rewrite length_app in Hlen. simpl in Hlen. lia.
Qed.

Lemma k2o_get_index_ext d src1 src2 s :
  (forall k, k < width_bytes (index_t d) ->
     src1 (getter_calls s + k) = src2 (getter_calls s + k)) ->
  k2o.get_index d src1 s = k2o.get_index d src2 s.
Proof.
  intros Hsame. unfold k2o.get_index, io_bind, io_ret. rewrite !fill_spec.
  assert (Hmap : map (fun k => src1 (getter_calls s + k)) (seq 0 (width_bytes (index_t d)))
                 = map (fun k => src2 (getter_calls s + k))
                     (seq 0 (width_bytes (index_t d)))).
  { apply map_ext_in. intros k Hk. apply in_seq in Hk. apply Hsame. lia. }
  now rewrite Hmap.
Qed.

Lemma k2o_get_index_calls d src s :
  (k2o.get_index d src s).2
  = mk_io (getter_calls s + width_bytes (index_t d)) (putter_bytes s).
Proof. unfold k2o.get_index, io_bind, io_ret. now rewrite fill_spec. Qed.

Lemma invoke_ext e sm u src1 src2 s :
  (forall k, k < input_size (make_action e sm u) ->
     src1 (getter_calls s + k) = src2 (getter_calls s + k)) ->
  invoke (make_action e sm u) src1 s = invoke (make_action e sm u) src2 s.
Proof.
  intros Hsame. unfold invoke, call, io_bind. simpl. rewrite !fill_spec.
  assert (Hmap : map (fun k => src1 (getter_calls s + k))
                   (seq 0 (tuple.size (parameters (u_signature u))))
                 = map (fun k => src2 (getter_calls s + k))
                     (seq 0 (tuple.size (parameters (u_signature u))))).
  { apply map_ext_in. intros k Hk. apply in_seq in Hk. apply Hsame.
    unfold input_size. simpl. unfold parameters_size. lia. }
  now rewrite Hmap.
Qed.

End k2o_request.

Section k2o_staging.

Lemma k2o_dispatch_in_range K src u :
  let d := make_dispatcher K in
  flist_t K !! Z.to_nat (k2o.get_index d src (mk_io 0 [])).1 = Some u ->
  putter_bytes (k2o.dispatch d src (mk_io 0 [])).2
  = putter_bytes
      (invoke (make_action (kr_endianess K) (kr_signed_mode K) u) src
         (mk_io (width_bytes (keyring_index_t K)) [])).2.
Proof.
  intros d Hu. unfold k2o.dispatch, io_bind.
  pose proof (k2o_get_index_calls d src (mk_io 0 [])) as Hcalls.
  destruct (k2o.get_index d src (mk_io 0 [])) as [index s'] eqn:Hindex.
  simpl in Hu, Hcalls. subst s'.
  pose proof (lookup_lt_Some _ _ _ Hu) as Hlt.
  replace (index <? Z.of_nat (size d))%Z with true
    by (symmetry; apply Z.ltb_lt; unfold size, d, keyring_size; simpl; lia).
  unfold d. rewrite make_dispatcher_lookup, Hu. simpl.
  now destruct (invoke _ _ _).
Qed.

Lemma raw_at_stored_prefix bufs (stored rest : list byte_t) j :
  length stored <= length (ibuf bufs) -> j < length stored ->
  raw_at (ibuf (ibuf_store_seq bufs 0 stored)) j = raw_at (stored ++ rest) j.
Proof.
  intros Hlen Hj. rewrite raw_at_ibuf_store_seq by lia.
  destruct (decide (0 <= j < 0 + length stored)); [| lia].
  rewrite Nat.sub_0_r. unfold raw_at. now rewrite lookup_app_l.
Qed.

Lemma k2o_read_last_argument d ibuf_next obuf_next obuf_bottom bufs byte order :
  let bufs' := ibuf_store bufs ibuf_next byte in
  let index := (k2o.get_index d (raw_at (ibuf bufs')) (mk_io 0 [])).1 in
  let output :=
    putter_bytes
      (invoke order (raw_at (ibuf bufs')) (mk_io (width_bytes (index_t d)) [])).2 in
  (index < Z.of_nat (size d))%Z ->
  m_actions d !! Z.to_nat index = Some order ->
  k2o.read byte (k2o.mk d true 1 ibuf_next obuf_next obuf_bottom bufs)
  = k2o.mk d false (Z.of_nat (width_bytes (index_t d))) 0 0 (length output)
      (obuf_store_seq bufs' 0 output).
Proof.
  intros bufs' index output Hlt Horder. unfold k2o.read. simpl. fold bufs'.
  pose proof (k2o_get_index_calls d (raw_at (ibuf bufs')) (mk_io 0 [])) as Hcalls.
  subst output index.
  destruct (k2o.get_index d (raw_at (ibuf bufs')) (mk_io 0 [])) as [index ibuf_it].
  simpl in *. subst ibuf_it.
  replace (index >=? Z.of_nat (size d))%Z with false
    by (symmetry; rewrite Z.geb_leb; apply Z.leb_gt; lia).
  now rewrite Horder.
Qed.

Lemma k2o_read_index_bytes K bufs front last rest u :
  let d := make_dispatcher K in
  S (length front) = width_bytes (keyring_index_t K) ->
  flist_t K !! Z.to_nat (k2o.get_index d (raw_at ((front ++ [last]) ++ rest))
                           (mk_io 0 [])).1 = Some u ->
  S (length front) <= length (ibuf bufs) ->
  k2o.read_all_bytes (front ++ [last]) (k2o.construct K bufs)
  = k2o.mk d true (Z.of_nat (parameters_size (u_signature u))) (S (0 + length front)) 0 0
      (ibuf_store_seq bufs 0 (front ++ [last])).
Proof.
  intros d Hfront Hu Hibuf. subst d.
  pose proof (width_bytes_pos (keyring_index_t K)) as Hwidth.
  unfold k2o.construct. rewrite <- Hfront.
  rewrite k2o_read_all_phase by lia.
  rewrite k2o_read_last_index.
  assert (Hstored : ibuf_store (ibuf_store_seq bufs 0 front) (0 + length front) last
                    = ibuf_store_seq bufs 0 (front ++ [last]))
    by (now rewrite ibuf_store_seq_app).
  rewrite Hstored.
  assert (Hindex : k2o.get_index (make_dispatcher K)
                     (raw_at (ibuf (ibuf_store_seq bufs 0 (front ++ [last])))) (mk_io 0 [])
                   = k2o.get_index (make_dispatcher K) (raw_at ((front ++ [last]) ++ rest))
                       (mk_io 0 [])).
  { apply k2o_get_index_ext. intros k Hk. simpl.
    apply raw_at_stored_prefix; rewrite length_app; simpl;
      change (index_t (make_dispatcher K)) with (keyring_index_t K) in Hk; lia. }
  rewrite Hindex.
  unfold buffered_undispatcher.input_size_at.
  rewrite make_dispatcher_lookup, Hu. reflexivity.
Qed.

Lemma k2o_read_request K bufs front last arguments last_argument u :
  let d := make_dispatcher K in
  let request := (front ++ [last]) ++ (arguments ++ [last_argument]) in
  let output := putter_bytes (k2o.dispatch d (raw_at request) (mk_io 0 [])).2 in
  S (length front) = width_bytes (keyring_index_t K) ->
  flist_t K !! Z.to_nat (k2o.get_index d (raw_at request) (mk_io 0 [])).1 = Some u ->
  S (length arguments) = parameters_size (u_signature u) ->
  (Z.of_nat (length request) < 2 ^ 64)%Z ->
  length request <= length (ibuf bufs) ->
  k2o.read_all_bytes request (k2o.construct K bufs)
  = k2o.mk d false (Z.of_nat (width_bytes (keyring_index_t K))) 0 0 (length output)
      (obuf_store_seq (ibuf_store_seq bufs 0 request) 0 output).
Proof.
  intros d request output Hfront Hu Harguments Hfit Hibuf. subst d.
  assert (Hlen : length request = S (length front) + S (length arguments))
    by (unfold request; rewrite !length_app; simpl; lia).
  unfold request at 1. unfold k2o.read_all_bytes. rewrite fold_left_app.
  fold (k2o.read_all_bytes (front ++ [last]) (k2o.construct K bufs)).
  rewrite (k2o_read_index_bytes K bufs front last (arguments ++ [last_argument]) u)
    by (done || lia).
  rewrite <- Harguments.
  fold (k2o.read_all_bytes (arguments ++ [last_argument])
          (k2o.mk (make_dispatcher K) true (Z.of_nat (S (length arguments)))
             (S (0 + length front)) 0 0 (ibuf_store_seq bufs 0 (front ++ [last])))).
  rewrite k2o_read_all_phase by lia.
  assert (Hall : ibuf_store
                   (ibuf_store_seq (ibuf_store_seq bufs 0 (front ++ [last]))
                      (S (0 + length front)) arguments)
                   (S (0 + length front) + length arguments) last_argument
                 = ibuf_store_seq bufs 0 request).
  { unfold request. rewrite (ibuf_store_seq_app bufs 0 (front ++ [last])).
    rewrite (ibuf_store_seq_app _ _ arguments).
    replace (0 + length (front ++ [last])) with (S (0 + length front))
      by (rewrite length_app; simpl; lia).
    reflexivity. }
  assert (Hraw : forall j, j < length request ->
            raw_at (ibuf (ibuf_store_seq bufs 0 request)) j = raw_at request j).
  { intros j Hj. rewrite (raw_at_stored_prefix bufs request [] j) by lia.
    now rewrite app_nil_r. }
  assert (Hindex' : k2o.get_index (make_dispatcher K)
                      (raw_at (ibuf (ibuf_store_seq bufs 0 request))) (mk_io 0 [])
                    = k2o.get_index (make_dispatcher K) (raw_at request) (mk_io 0 [])).
  { apply k2o_get_index_ext. intros k Hk. simpl. apply Hraw.
    change (index_t (make_dispatcher K)) with (keyring_index_t K) in Hk. lia. }
  pose proof (lookup_lt_Some _ _ _ Hu) as Hlt.
  rewrite (k2o_read_last_argument (make_dispatcher K) _ 0 0 _ last_argument
             (make_action (kr_endianess K) (kr_signed_mode K) u)).
  - rewrite Hall. change (index_t (make_dispatcher K)) with (keyring_index_t K).
    assert (Houtput : putter_bytes
                        (invoke (make_action (kr_endianess K) (kr_signed_mode K) u)
                           (raw_at (ibuf (ibuf_store_seq bufs 0 request)))
                           (mk_io (width_bytes (keyring_index_t K)) [])).2
                      = output).
    { unfold output. rewrite (k2o_dispatch_in_range K (raw_at request) u Hu).
      f_equal. f_equal. apply invoke_ext. intros k Hk. simpl. apply Hraw.
      unfold input_size in Hk. simpl in Hk. lia. }
    now rewrite Houtput.
  - rewrite Hall, Hindex'. unfold size, keyring_size. simpl. lia.
  - rewrite Hall, Hindex'. now rewrite make_dispatcher_lookup, Hu.
Qed.

(** X12. The k2o buffered dispatcher fed, byte by byte, a complete request
    for an order with at least one parameter byte stages in its output
    buffer exactly what the plain k2o dispatcher gives its putter on the
    same bytes: it is back at the start of a request with [obuf_next] at
    the beginning of the output buffer and [obuf_bottom] after the response,
    the output buffer starts with the response, and [write_all] gives the
    response to its functor and empties the dispatcher. *)
Theorem k2o_read_stages_dispatch (K : keyring) (bufs : buffers) (request : list byte_t)
    (u : unevaluated) (fuel : nat) :
  let d := make_dispatcher K in
  let output := putter_bytes (k2o.dispatch d (raw_at request) (mk_io 0 [])).2 in
  let bd := k2o.read_all_bytes request (k2o.construct K bufs) in
  let start obuf_next :=
    k2o.mk d false (Z.of_nat (width_bytes (keyring_index_t K))) 0 obuf_next (length output)
      (k2o.m_buffers bd) in
  flist_t K !! Z.to_nat (k2o.get_index d (raw_at request) (mk_io 0 [])).1 = Some u ->
  1 <= parameters_size (u_signature u) ->
  length request = width_bytes (keyring_index_t K) + parameters_size (u_signature u) ->
  (Z.of_nat (length request) < 2 ^ 64)%Z ->
  length request <= length (ibuf bufs) ->
  length output <= length (obuf bufs) ->
  length output <= fuel ->
  bd = start 0 /\
  take (length output) (obuf (k2o.m_buffers bd)) = output /\
  k2o.write_all fuel bd = Some (output, start (length output)).
Proof.
  intros d output bd start Hu Hparameters Hlen Hfit Hibuf Hobuf Hfuel.
  pose proof (width_bytes_pos (keyring_index_t K)) as Hwidth.
  set (index_bytes := take (width_bytes (keyring_index_t K)) request).
  set (argument_bytes := drop (width_bytes (keyring_index_t K)) request).
  destruct (split_last index_bytes (width_bytes (keyring_index_t K) - 1))
    as (front & last & Hindex_bytes & Hfront);
    [unfold index_bytes; rewrite length_take; lia |].
  destruct (split_last argument_bytes (parameters_size (u_signature u) - 1))
    as (arguments & last_argument & Hargument_bytes & Harguments);
    [unfold argument_bytes; rewrite length_drop; lia |].
  assert (Hrequest : request = (front ++ [last]) ++ (arguments ++ [last_argument])).
  { rewrite <- Hindex_bytes, <- Hargument_bytes. symmetry. apply take_drop. }
  assert (Hbd : bd = k2o.mk d false (Z.of_nat (width_bytes (keyring_index_t K))) 0 0
                       (length output)
                       (obuf_store_seq (ibuf_store_seq bufs 0 request) 0 output)).
  { subst bd output d. clear index_bytes argument_bytes Hindex_bytes Hargument_bytes.
    subst request.
    apply (k2o_read_request K bufs front last arguments last_argument u); try lia; done. }
  assert (Hstaged : take (length output) (obuf (k2o.m_buffers bd)) = output).
  { rewrite Hbd. simpl.
    destruct (ibuf_store_seq_lengths request bufs 0) as [_ Hobuf'].
    destruct (ibuf_store_seq bufs 0 request) as [m_buf | m_ibuf m_obuf]; simpl in *;
      rewrite store_seq_spec by lia; simpl; now rewrite take_app_length. }
  split; [| split].
  - unfold start. rewrite Hbd at 1. rewrite Hbd. reflexivity.
  - exact Hstaged.
  - rewrite (k2o_write_all_enough fuel bd) by (rewrite Hbd; simpl; lia).
    assert (Hnext : k2o.m_obuf_bottom bd - k2o.m_obuf_next bd = length output
                    /\ k2o.m_obuf_next bd = 0) by (rewrite Hbd; simpl; lia).
    destruct Hnext as [-> ->]. f_equal. f_equal.
    + transitivity (take (length output) (obuf (k2o.m_buffers bd))); [| exact Hstaged].
      apply list_eq. intros i.
      change (map ?f ?l) with (f <$> l). rewrite list_lookup_fmap.
      destruct (decide (i < length output)) as [Hi | Hi].
      * rewrite lookup_seq_lt by lia. simpl. rewrite lookup_take_lt by lia.
        unfold raw_at.
        destruct (obuf (k2o.m_buffers bd) !! i) eqn:Hlookup; [done |].
        apply lookup_ge_None in Hlookup.
        assert (length (take (length output) (obuf (k2o.m_buffers bd))) = length output)
          by now rewrite Hstaged.
        rewrite length_take in *. lia.
      * rewrite lookup_seq_ge by lia. simpl. symmetry. apply lookup_ge_None.
        rewrite length_take. lia.
    + unfold start. rewrite Hbd. reflexivity.
Qed.

Lemma k2o_read_stages_dispatch_witness :
  let K := mk_keyring BIG TWOS_COMPLEMENT [id_u8; add_u16] in
  let bd := k2o.read_all_bytes [1; 1; 2; 0; 3]%Z
              (k2o.construct K (single_buffer [9; 9; 9; 9; 9; 9])%Z) in
  flist_t K !! Z.to_nat (k2o.get_index (make_dispatcher K) (raw_at [1; 1; 2; 0; 3]%Z)
                           (mk_io 0 [])).1 = Some add_u16 /\
  bd = k2o.mk (make_dispatcher K) false 1 0 0 2 (single_buffer [1; 5; 2; 0; 3; 9])%Z /\
  k2o.write_all 2 bd
  = Some ([1; 5]%Z,
          k2o.mk (make_dispatcher K) false 1 0 2 2 (single_buffer [1; 5; 2; 0; 3; 9])%Z).
Proof.
  split; [reflexivity |].
  pose proof (k2o_read_stages_dispatch (mk_keyring BIG TWOS_COMPLEMENT [id_u8; add_u16])
                (single_buffer [9; 9; 9; 9; 9; 9])%Z [1; 1; 2; 0; 3]%Z add_u16 2
                eq_refl ltac:(vm_compute; lia) eq_refl ltac:(vm_compute; reflexivity)
                ltac:(vm_compute; lia) ltac:(vm_compute; lia) ltac:(vm_compute; lia))
    as (Hbd & _ & Hwrite).
  split; [exact Hbd | exact Hwrite].
Defined.

End k2o_staging.

Section k2o_read_all.

Lemma k2o_read_all_while_exit loaded fuel src bd s :
  k2o.m_is_index_loaded bd = negb loaded ->
  k2o.read_all_while loaded fuel src bd s = Some (bd, s).
Proof. intros Hexit. destruct fuel; simpl; rewrite Hexit; now destruct loaded. Qed.

Lemma k2o_read_all_while_steps loaded src turns : forall fuel bd s,
  (forall k, k < turns ->
     k2o.m_is_index_loaded (k2o.read_all_bytes (map src (seq (getter_calls s) k)) bd)
     = loaded) ->
  turns <= fuel ->
  k2o.read_all_while loaded fuel src bd s
  = k2o.read_all_while loaded (fuel - turns) src
      (k2o.read_all_bytes (map src (seq (getter_calls s) turns)) bd)
      (mk_io (getter_calls s + turns) (putter_bytes s)).
Proof.
  induction turns as [| turns IH]; intros fuel bd s Hloaded Hfuel.
  - rewrite Nat.sub_0_r, Nat.add_0_r. now destruct s.
  - destruct fuel as [| fuel]; [lia |].
    pose proof (Hloaded 0 ltac:(lia)) as Hfirst. simpl in Hfirst.
    cbn [k2o.read_all_while]. rewrite Hfirst, eqb_reflx. unfold call_src.
    rewrite IH; [| | lia].
    + simpl. do 2 f_equal. lia.
    + intros k Hk. exact (Hloaded (S k) ltac:(lia)).
Qed.

Lemma obuf_store_seq_staged bufs output :
  length output <= length (obuf bufs) ->
  take (length output) (obuf (obuf_store_seq bufs 0 output)) = output.
Proof.
  intros Hroom. destruct bufs as [m_buf | m_ibuf m_obuf]; simpl in *;
    rewrite store_seq_spec by lia; simpl; now rewrite take_app_length.
Qed.

(** X13. [read_all] of the k2o buffered dispatcher, started on a fresh
    dispatcher in front of a request for an order with at least one
    parameter byte, the request fitting the input buffer and the response
    of the order the output buffer, returns after it has taken exactly
    [sizeof(index_t)] plus [input_size] bytes from its source, no more; it
    leaves the dispatcher as these bytes given to [read] one at a time do,
    at the start of the next request, with the response staged. *)
Theorem k2o_read_all_one_request (K : keyring) (bufs : buffers) (src : getter)
    (s : io_state) (u : unevaluated) (fuel : nat) :
  let d := make_dispatcher K in
  let n := width_bytes (keyring_index_t K) + parameters_size (u_signature u) in
  let request := map src (seq (getter_calls s) n) in
  let output := putter_bytes (k2o.dispatch d (raw_at request) (mk_io 0 [])).2 in
  let bd := k2o.read_all_bytes request (k2o.construct K bufs) in
  flist_t K !! Z.to_nat (k2o.get_index d (raw_at request) (mk_io 0 [])).1 = Some u ->
  1 <= parameters_size (u_signature u) ->
  (Z.of_nat n < 2 ^ 64)%Z ->
  n <= length (ibuf bufs) ->
  length output <= length (obuf bufs) ->
  n <= fuel ->
  k2o.read_all fuel src (k2o.construct K bufs) s
  = Some (bd, mk_io (getter_calls s + n) (putter_bytes s)) /\
  k2o.m_is_index_loaded bd = false /\
  k2o.m_load_count bd = Z.of_nat (width_bytes (keyring_index_t K)) /\
  k2o.m_ibuf_next bd = 0 /\
  k2o.m_obuf_next bd = 0 /\
  k2o.m_obuf_bottom bd = length output /\
  take (length output) (obuf (k2o.m_buffers bd)) = output.
Proof.
  intros d n request output bd Hu Hparameters Hfit Hibuf Hobuf Hfuel.
  pose proof (width_bytes_pos (keyring_index_t K)) as Hwidth.
  set (index_bytes := map src (seq (getter_calls s) (width_bytes (keyring_index_t K)))).
  set (argument_bytes :=
         map src (seq (getter_calls s + width_bytes (keyring_index_t K))
                    (parameters_size (u_signature u)))).
  assert (Hsplit : request = index_bytes ++ argument_bytes)
    by (unfold request, n; now rewrite seq_app, map_app).
  destruct (split_last index_bytes (width_bytes (keyring_index_t K) - 1))
    as (front & last & Hindex_bytes & Hfront);
    [unfold index_bytes; rewrite length_map, length_seq; lia |].
  destruct (split_last argument_bytes (parameters_size (u_signature u) - 1))
    as (arguments & last_argument & Hargument_bytes & Harguments);
    [unfold argument_bytes; rewrite length_map, length_seq; lia |].
  assert (Hlen : length request = n) by (unfold request; now rewrite length_map, length_seq).
  assert (Hindex : k2o.read_all_bytes index_bytes (k2o.construct K bufs)
                   = k2o.mk d true (Z.of_nat (parameters_size (u_signature u)))
                       (S (0 + length front)) 0 0
                       (ibuf_store_seq bufs 0 (front ++ [last]))).
  { rewrite Hindex_bytes.
    apply (k2o_read_index_bytes K bufs front last argument_bytes u); [lia | | lia].
    rewrite <- Hindex_bytes, <- Hsplit. exact Hu. }
  assert (Hbd : bd = k2o.mk d false (Z.of_nat (width_bytes (keyring_index_t K))) 0 0
                       (length output)
                       (obuf_store_seq (ibuf_store_seq bufs 0 request) 0 output)).
  { unfold bd, output. rewrite Hsplit, Hindex_bytes, Hargument_bytes in *.
    apply (k2o_read_request K bufs front last arguments last_argument u); try lia; done. }
  assert (Hstaged : take (length output) (obuf (k2o.m_buffers bd)) = output).
  { rewrite Hbd. simpl. apply obuf_store_seq_staged.
    destruct (ibuf_store_seq_lengths request bufs 0) as [_ ->]. exact Hobuf. }
  split; [| rewrite Hbd at 1 2 3 4 5; repeat split; exact Hstaged].
  unfold k2o.read_all.
  rewrite (k2o_read_all_while_steps false src (width_bytes (keyring_index_t K)));
    [| | lia].
  - fold index_bytes. rewrite Hindex.
    rewrite k2o_read_all_while_exit by reflexivity.
    rewrite (k2o_read_all_while_steps true src (parameters_size (u_signature u)));
      [| | lia].
    + cbn [getter_calls putter_bytes]. fold argument_bytes.
      rewrite <- Hindex. unfold k2o.read_all_bytes. rewrite <- fold_left_app.
      fold (k2o.read_all_bytes (index_bytes ++ argument_bytes) (k2o.construct K bufs)).
      rewrite <- Hsplit. fold bd.
      rewrite k2o_read_all_while_exit by (now rewrite Hbd).
      unfold n. now rewrite Nat.add_assoc.
    + intros k Hk. cbn [getter_calls].
      rewrite k2o_read_all_loading by (rewrite length_map, length_seq; lia).
      reflexivity.
  - intros k Hk. unfold k2o.construct.
    rewrite k2o_read_all_loading by (rewrite length_map, length_seq; lia).
    reflexivity.
Qed.

Lemma k2o_read_all_one_request_witness :
  let K := mk_keyring BIG TWOS_COMPLEMENT [id_u8; add_u16] in
  let src := raw_at [1; 1; 2; 0; 3; 77]%Z in
  flist_t K !! Z.to_nat (k2o.get_index (make_dispatcher K)
                           (raw_at (map src (seq 0 5))) (mk_io 0 [])).1 = Some add_u16 /\
  k2o.read_all 5 src (k2o.construct K (double_buffer [9; 9; 9; 9; 9] [9; 9; 9])%Z)
    (mk_io 0 [])
  = Some (k2o.mk (make_dispatcher K) false 1 0 0 2
            (double_buffer [1; 1; 2; 0; 3] [1; 5; 9])%Z,
          mk_io 5 []).
Proof.
  split; [reflexivity |].
  exact (proj1 (k2o_read_all_one_request
                  (mk_keyring BIG TWOS_COMPLEMENT [id_u8; add_u16])
                  (double_buffer [9; 9; 9; 9; 9] [9; 9; 9])%Z
                  (raw_at [1; 1; 2; 0; 3; 77]%Z) (mk_io 0 []) add_u16 5
                  eq_refl ltac:(vm_compute; lia) ltac:(vm_compute; reflexivity)
                  ltac:(vm_compute; lia) ltac:(vm_compute; lia)
                  ltac:(vm_compute; lia))).
Defined.

End k2o_read_all.
